(** * Sanscript: a shallow embedding of [src/sanscript.js]

    The development follows the source file top to bottom: JavaScript
    strings and the fragment of regular expressions the file uses, the
    scheme detector, the map compiler [makeMap], the two engines
    [transliterateRoman] and [transliterateBrahmic], the audio-number
    helpers and the dispatcher [Sanscript.t] with its one-slot cache.

    Modelling conventions.
    - A JavaScript string is the list of its UTF-16 code units ([list N]);
      [length], [charAt], [substr] are the list operations.
    - The scheme tables ([schemes], a parameter of
      [exportSanscriptSingleton]) are not part of the source file: every
      definition takes the registry as an argument.
    - A thrown exception is the [Throw] result; all exceptions the modelled
      code can raise are [TypeError]s, tagged with the place that raises.
    - Scheme tables and compiled maps hold own properties: names inherited
      from [Object.prototype] (such as [constructor]) are not scheme tokens.
      A text can still spell such a name: what the Roman engine reads off
      a compiled map as a plain object, inherited members included, is
      [Prototype.visible], and [RomanReading] relates the two readings. *)

From Stdlib Require Import NArith ZArith Lia Bool List.
From Stdlib Require Import Ascii String.
From stdpp Require Import base option list gmap strings.

Import ListNotations.
Local Open Scope N_scope.

(** ** JavaScript strings *)

Module JS.

(** A string is its sequence of UTF-16 code units. *)
Abbreviation jstring := (list N).

(** An ASCII literal as a JavaScript string. *)
Definition u (s : string) : jstring :=
  map N_of_ascii (list_ascii_of_string s).

Definition char_eqb (a b : N) : bool := N.eqb a b.

Fixpoint str_eqb (a b : jstring) : bool :=
  match a, b with
  | [], [] => true
  | x :: a', y :: b' => N.eqb x y && str_eqb a' b'
  | _, _ => false
  end.

(** [s.substr(0, n)] and [s.substr(n)]. *)
Definition substr0 (n : nat) (s : jstring) : jstring := firstn n s.
Definition substr_from (n : nat) (s : jstring) : jstring := skipn n s.

(** [a.includes(b)] and the position of the first occurrence of a literal. *)
Fixpoint is_prefix (p s : jstring) : bool :=
  match p, s with
  | [], _ => true
  | x :: p', y :: s' => N.eqb x y && is_prefix p' s'
  | _ :: _, [] => false
  end.

Fixpoint includes (s p : jstring) : bool :=
  is_prefix p s ||
  match s with
  | [] => false
  | _ :: s' => includes s' p
  end.

(** [Array.prototype.join("")]. *)
Definition join (l : list jstring) : jstring := concat l.

(** [String.prototype.toLowerCase], on the ASCII letters (the detector's
    scheme names, the only strings it is applied to, are ASCII). *)
Definition lower_unit (c : N) : N :=
  if (65 <=? c) && (c <=? 90) then c + 32 else c.
Definition toLowerCase (s : jstring) : jstring := map lower_unit s.

(** Results of code that may throw. *)
Inductive throw_site :=
  | UnknownFromScheme
  | UnknownToScheme
  | MissingBaseVowel (baseVowel : jstring)
  | MissingGroup (schemeName group : jstring)
  | BadPreferredAlternates.

Inductive jserror := TypeError (site : throw_site).

Inductive result (A : Type) :=
  | Ok (a : A)
  | Throw (e : jserror).
Arguments Ok {A} a.
Arguments Throw {A} e.

Definition bind {A B} (r : result A) (f : A -> result B) : result B :=
  match r with
  | Ok a => f a
  | Throw e => Throw e
  end.

End JS.
Import JS.

Notation "'let?' x ':=' r 'in' k" := (JS.bind r (fun x => k))
  (at level 10, x name, r at level 100, k at level 200).

(** ** Regular expressions

    The source uses literals, character classes, [^] and [$], sequence,
    alternation, [?], and [*]/[+] over a character class.  Matching is the
    backtracking search of ECMAScript: alternatives left to right, greedy
    quantifiers; none of the source's expressions has the [u], [m] or [y]
    flag. *)

Module Regex.

Inductive regex :=
  | Chr (c : N)
  | Cls (p : N -> bool)
  | Bol
  | Eol
  | Seq (a b : regex)
  | Alt (a b : regex)
  | Opt (a : regex)
  | Star (p : N -> bool)
  | Plus (p : N -> bool).

(** Greedy iteration of a class, then the continuation. *)
Fixpoint star {A} (p : N -> bool) (s : jstring) (k : jstring -> option A)
  : option A :=
  match s with
  | c :: s' =>
      if p c then
        match star p s' k with
        | Some r => Some r
        | None => k s
        end
      else k s
  | [] => k s
  end.

(** [run r bol s k]: match [r] at the head of [s]; [bol] says whether the
    head of [s] is position 0 of the subject; [k] receives the same flag
    for the rest and the rest itself. *)
Fixpoint run {A} (r : regex) (bol : bool) (s : jstring)
    (k : bool -> jstring -> option A) : option A :=
  match r with
  | Chr c =>
      match s with
      | x :: s' => if N.eqb x c then k false s' else None
      | [] => None
      end
  | Cls p =>
      match s with
      | x :: s' => if p x then k false s' else None
      | [] => None
      end
  | Bol => if bol then k bol s else None
  | Eol => match s with [] => k bol s | _ :: _ => None end
  | Seq a b => run a bol s (fun bol' s' => run b bol' s' k)
  | Alt a b =>
      match run a bol s k with
      | Some x => Some x
      | None => run b bol s k
      end
  | Opt a =>
      match run a bol s k with
      | Some x => Some x
      | None => k bol s
      end
  | Star p => star p s (fun s' => k (bol && Nat.eqb (length s') (length s)) s')
  | Plus p =>
      match s with
      | x :: s' => if p x then star p s' (fun s'' => k false s'') else None
      | [] => None
      end
  end.

(** Length of the match of [r] at the head of [s], if there is one. *)
Definition match_len (r : regex) (bol : bool) (s : jstring) : option nat :=
  run r bol s (fun _ rest => Some (length s - length rest)%nat).

(** [r.test(s)]: is there a match at some position. *)
Fixpoint test_from (r : regex) (bol : bool) (s : jstring) : bool :=
  match match_len r bol s with
  | Some _ => true
  | None =>
      match s with
      | [] => false
      | _ :: s' => test_from r false s'
      end
  end.

Definition test (r : regex) (s : jstring) : bool := test_from r true s.

(** [s.replace(r, f)] for a global [r] and a replacement function [f] of
    the matched text.  [skip] counts the units of the current match that
    are still to be passed over. *)
Fixpoint replace_scan (r : regex) (f : jstring -> jstring) (bol : bool)
    (skip : nat) (s : jstring) {struct s} : jstring :=
  match skip, s with
  | S k, _ :: s' => replace_scan r f false k s'
  | S _, [] => []
  | O, _ =>
      match match_len r bol s with
      | Some n =>
          (f (firstn n s) ++
           match s with
           | [] => []
           | c :: s' =>
               match n with
               | O => c :: replace_scan r f false O s'
               | S k => replace_scan r f false k s'
               end
           end)%list
      | None =>
          match s with
          | [] => []
          | c :: s' => c :: replace_scan r f false O s'
          end
      end
  end.

Definition replace_all (r : regex) (f : jstring -> jstring) (s : jstring)
  : jstring := replace_scan r f true O s.

(** [s.split(r)] for an expression without capture groups: the pieces
    between the matches.  [cur] is the piece being collected, reversed. *)
Fixpoint split_scan (r : regex) (bol : bool) (skip : nat) (cur : jstring)
    (s : jstring) {struct s} : list jstring :=
  match skip, s with
  | S k, _ :: s' => split_scan r false k cur s'
  | S _, [] => [rev cur]
  | O, [] => [rev cur]
  | O, c :: s' =>
      match match_len r bol s with
      | Some (S k) => rev cur :: split_scan r false k [] s'
      | Some O =>
          match cur with
          | [] => split_scan r false O [c] s'
          | _ :: _ => rev cur :: split_scan r false O [c] s'
          end
      | None => split_scan r false O (c :: cur) s'
      end
  end.

Definition split (r : regex) (s : jstring) : list jstring :=
  match s with
  | [] => match match_len r true [] with Some _ => [] | None => [[]] end
  | _ => split_scan r true O [] s
  end.

(** Character classes. *)
Definition one_of (l : list N) (c : N) : bool := existsb (N.eqb c) l.
Definition digit (c : N) : bool := (48 <=? c) && (c <=? 57).
Definition lower_az (c : N) : bool := (97 <=? c) && (c <=? 122).
Definition upper_az (c : N) : bool := (65 <=? c) && (c <=? 90).
Definition word_char (c : N) : bool :=
  digit c || lower_az c || upper_az c || N.eqb c 95.

(** A literal string and an alternation of several expressions. *)
Fixpoint lit (s : jstring) : regex :=
  match s with
  | [] => Opt (Cls (fun _ => false))
  | [c] => Chr c
  | c :: s' => Seq (Chr c) (lit s')
  end.

Fixpoint alts (l : list regex) : regex :=
  match l with
  | [] => Cls (fun _ => false)
  | [r] => r
  | r :: l' => Alt r (alts l')
  end.

End Regex.

(** ** The scheme detector ([Sanscript.detect]) *)

Module Detect.
Import Regex.

(** [DETECTION_PATTERNS.SCHEMES]: name and first code point of the block
    ([None] is the source's [null]). *)
Definition SCHEMES : list (jstring * option N) :=
  [ (u "Bengali", Some 0x0980);
    (u "Devanagari", Some 0x0900);
    (u "Gujarati", Some 0x0a80);
    (u "Gurmukhi", Some 0x0a00);
    (u "Kannada", Some 0x0c80);
    (u "Malayalam", Some 0x0d00);
    (u "Oriya", Some 0x0b00);
    (u "Tamil", Some 0x0b80);
    (u "Telugu", Some 0x0c00);
    (u "HK", None);
    (u "IAST", None);
    (u "ITRANS", None);
    (u "Kolkata", None);
    (u "SLP1", None);
    (u "Velthuis", None) ].

Definition BRAHMIC_FIRST_CODE_POINT : N := 0x0900.
Definition BRAHMIC_LAST_CODE_POINT : N := 0x0d7f.

(** [/[āīūṛṝḷḹēōṃḥṅñṭḍṇśṣḻ]/] *)
Definition RE_IAST_OR_KOLKATA_ONLY : regex :=
  Cls (one_of [0x101; 0x12b; 0x16b; 0x1e5b; 0x1e5d; 0x1e37; 0x1e39; 0x113;
               0x14d; 0x1e43; 0x1e25; 0x1e45; 0xf1; 0x1e6d; 0x1e0d; 0x1e47;
               0x15b; 0x1e63; 0x1e3b]).

(** [/aa|ii|uu|~n/] *)
Definition RE_ITRANS_OR_VELTHUIS_ONLY : regex :=
  alts [lit (u "aa"); lit (u "ii"); lit (u "uu"); lit (u "~n")].

(** [/ee|oo|\^[iI]|RR[iI]|L[iI]|~N|N\^|Ch|chh|JN|sh|Sh|\.a/] *)
Definition RE_ITRANS_ONLY : regex :=
  alts [lit (u "ee"); lit (u "oo");
        Seq (lit (u "^")) (Cls (one_of (u "iI")));
        Seq (lit (u "RR")) (Cls (one_of (u "iI")));
        Seq (lit (u "L")) (Cls (one_of (u "iI")));
        lit (u "~N"); lit (u "N^"); lit (u "Ch"); lit (u "chh");
        lit (u "JN"); lit (u "sh"); lit (u "Sh"); lit (u ".a")].

(** [/[ēō]/] *)
Definition RE_KOLKATA_ONLY : regex := Cls (one_of [0x113; 0x14d]).

(** [[fFxXEOCYwWqQPB]|kz|Nk|Ng|tT|dD|Sc|Sn|[aAiIuUfFxXeEoO]R|G[yr]|(\W|^)G] *)
Definition RE_SLP1_ONLY : regex :=
  alts [Cls (one_of (u "fFxXEOCYwWqQPB"));
        lit (u "kz"); lit (u "Nk"); lit (u "Ng"); lit (u "tT"); lit (u "dD");
        lit (u "Sc"); lit (u "Sn");
        Seq (Cls (one_of (u "aAiIuUfFxXeEoO"))) (lit (u "R"));
        Seq (lit (u "G")) (Cls (one_of (u "yr")));
        Seq (Alt (Cls (fun c => negb (word_char c))) Bol) (lit (u "G"))].

(** [/\.[mhnrltds]|Qn|~s/] where Q stands for the double quote (unit 34) *)
Definition RE_VELTHUIS_ONLY : regex :=
  alts [Seq (lit (u ".")) (Cls (one_of (u "mhnrltds")));
        Seq (Chr 34) (lit (u "n"));
        lit (u "~s")].

(** [Array.prototype.sort] with a comparison function: a stable insertion
    sort; [cmp x y <= 0] keeps [x] before [y]. *)
Section Sort.
Context {A : Type} (cmp : A -> A -> Z).

Fixpoint insert_sorted (x : A) (l : list A) : list A :=
  match l with
  | [] => [x]
  | y :: l' => if (cmp x y <? 0)%Z then x :: l else y :: insert_sorted x l'
  end.

Definition sort (l : list A) : list A :=
  fold_left (fun acc x => insert_sorted x acc) l [].
End Sort.

(** The blocks: entries with a code point, by descending code point. *)
Definition BLOCKS : list (jstring * N) :=
  sort (fun x y => (Z.of_N (snd y) - Z.of_N (snd x))%Z)
       (omap (fun x : jstring * option N =>
                match snd x with
                | Some cp => if N.eqb cp 0 then None else Some (fst x, cp)
                | None => None
                end) SCHEMES).

(** The inner loop: the first block that starts at or below [code]. *)
Fixpoint find_block (code : N) (blocks : list (jstring * N))
  : option jstring :=
  match blocks with
  | [] => None
  | block :: rest =>
      if snd block <=? code then Some (fst block) else find_block code rest
  end.

(** The outer loop over the text. *)
Fixpoint scan_brahmic (text : jstring) : option jstring :=
  match text with
  | [] => None
  | code :: rest =>
      if (BRAHMIC_FIRST_CODE_POINT <=? code)
         && (code <=? BRAHMIC_LAST_CODE_POINT)
      then match find_block code BLOCKS with
           | Some name => Some name
           | None => scan_brahmic rest
           end
      else scan_brahmic rest
  end.

(** The cascade over romanizations. *)
Definition detect_roman (text : jstring) : jstring :=
  if test RE_IAST_OR_KOLKATA_ONLY text then
    if test RE_KOLKATA_ONLY text then u "Kolkata" else u "IAST"
  else if test RE_ITRANS_ONLY text then u "ITRANS"
  else if test RE_SLP1_ONLY text then u "SLP1"
  else if test RE_VELTHUIS_ONLY text then u "Velthuis"
  else if test RE_ITRANS_OR_VELTHUIS_ONLY text then u "ITRANS"
  else u "HK".

Definition detect (text : jstring) : jstring :=
  match scan_brahmic text with
  | Some name => name
  | None => detect_roman text
  end.

End Detect.

(** ** Schemes and the map compiler ([makeMap]) *)

Module Schemes.

(** A group maps a canonical key to the scheme's rendering; the list is
    the object's enumeration order. *)
Abbreviation group := (list (jstring * jstring)).

(** A scheme object: the three properties [makeMap] treats apart, and the
    remaining own properties (the groups) in enumeration order.
    [None] is an absent property. *)
Record scheme := {
  isRomanScheme : bool;
  alternates : option (list (jstring * list jstring));
  accented_vowel_alternates : option (list (jstring * list jstring));
  groups : list (jstring * group)
}.

(** [obj[key]] on an enumeration-ordered object. *)
Fixpoint prop {V} (key : jstring) (obj : list (jstring * V)) : option V :=
  match obj with
  | [] => None
  | (k, v) :: rest => if str_eqb k key then Some v else prop key rest
  end.

(** [list.includes(x)] on strings. *)
Definition includes_str (l : list jstring) (x : jstring) : bool :=
  existsb (str_eqb x) l.

(** [x || d] for a string-valued property: the value when it is defined
    and not the empty string. *)
Definition truthy_or (x : option jstring) (d : jstring) : jstring :=
  match x with
  | Some (c :: s) => c :: s
  | _ => d
  end.


(** The canonical keys the source names. *)
Definition key_virama : jstring := [0x94d].
Definition key_a : jstring := [0x905].

(** Values an options object holds: [undefined], a boolean, or an object
    (an identity, for [===], and its table: scheme name to a list of
    literal/replacement pairs). *)
Inductive jsval :=
  | VUndefined
  | VBool (b : bool)
  | VObject (id : N) (table : list (jstring * list (jstring * jstring))).

End Schemes.
Import Schemes.

Module MakeMap.

(** The compiled map.  [maxTokenLength] is [None] for [-Infinity]
    ([Math.max] of no numbers); [virama], [toSchemeA] and [fromSchemeA] are
    [None] when the property read gives [undefined]. *)
Record compiled := {
  consonants : gmap jstring jstring;
  accents : gmap jstring jstring;
  fromRoman : bool;
  letters : gmap jstring jstring;
  marks : gmap jstring jstring;
  maxTokenLength : option nat;
  toRoman : bool;
  virama : option jstring;
  toSchemeA : option jstring;
  fromSchemeA : option jstring;
  from : jstring;
  to : jstring
}.

(** The objects [makeMap] fills in its loop over the groups. *)
Record tables := {
  t_consonants : gmap jstring jstring;
  t_letters : gmap jstring jstring;
  t_tokenLengths : list nat;
  t_marks : gmap jstring jstring;
  t_accents : gmap jstring jstring
}.

Definition empty_tables : tables :=
  {| t_consonants := ∅; t_letters := ∅; t_tokenLengths := [];
     t_marks := ∅; t_accents := ∅ |}.

(** [m[F] = T; for (j...) m[alts[j]] = T]. *)
Definition set_all (tokens : list jstring) (T : jstring)
    (m : gmap jstring jstring) : gmap jstring jstring :=
  fold_left (fun m tok => <[tok := T]> m) tokens m.

(** The body of the loop over the entries of one group. *)
Definition add_entry (alternates : list (jstring * list jstring))
    (group : jstring) (toGroup : Schemes.group) (acc : tables)
    (entry : jstring * jstring) : tables :=
  let '(key, F) := entry in
  match prop key toGroup with
  | None => acc
  | Some T0 =>
      let T :=
        if str_eqb T0 [] &&
           negb (includes_str [u "virama"; u "zwj"; u "skip"] group)
        then F else T0 in
      let alts := default [] (prop F alternates) in
      let tokens := F :: alts in
      let lengths := (t_tokenLengths acc ++ map length tokens)%list in
      if str_eqb group (u "vowel_marks") || str_eqb group (u "virama") then
        {| t_consonants := t_consonants acc;
           t_letters := t_letters acc;
           t_tokenLengths := lengths;
           t_marks := set_all tokens T (t_marks acc);
           t_accents := t_accents acc |}
      else
        {| t_consonants :=
             if str_eqb group (u "consonants")
                || str_eqb group (u "extra_consonants")
             then set_all tokens T (t_consonants acc)
             else t_consonants acc;
           t_letters := set_all tokens T (t_letters acc);
           t_tokenLengths := lengths;
           t_marks := t_marks acc;
           t_accents :=
             if str_eqb group (u "accents")
             then set_all tokens T (t_accents acc)
             else t_accents acc |}
  end.

(** The body of the loop over the groups of the source scheme. *)
Definition add_group (alternates : list (jstring * list jstring))
    (toScheme : scheme) (acc : tables) (g : jstring * Schemes.group)
  : tables :=
  let '(group, fromGroup) := g in
  if includes_str
       [u "alternates"; u "accented_vowel_alternates"; u "isRomanScheme"]
       group
  then acc
  else
    match prop group (groups toScheme) with
    | None => acc
    | Some toGroup =>
        fold_left (add_entry alternates group toGroup) fromGroup acc
    end.

(** The loop over the groups; [alternates] is
    [fromScheme["alternates"] || {}]. *)
Definition group_tables (fromScheme toScheme : scheme) : tables :=
  let alternates := default [] (alternates fromScheme) in
  fold_left (add_group alternates toScheme) (groups fromScheme) empty_tables.

(** One synonym of an accented vowel.  The source logs to the console
    when [letters[baseVowel]] is falsy and goes on; [concat] on an
    [undefined] base then raises. *)
Definition add_synonym (accents : gmap jstring jstring)
    (baseAccentedVowel : jstring)
    (st : gmap jstring jstring * gmap jstring jstring)
    (accentedVowel : jstring)
  : result (gmap jstring jstring * gmap jstring jstring) :=
  let '(marks, letters) := st in
  let baseVowel := removelast baseAccentedVowel in
  let sourceAccent :=
    match last baseAccentedVowel with
    | Some accent => [accent]
    | None => u "undefined"
    end in
  let targetAccent := truthy_or (accents !! sourceAccent) sourceAccent in
  let marks' :=
    <[accentedVowel := (truthy_or (marks !! baseVowel) [] ++ targetAccent)%list]>
      marks in
  match letters !! baseVowel with
  | None => Throw (TypeError (MissingBaseVowel baseVowel))
  | Some l => Ok (marks', <[accentedVowel := (l ++ targetAccent)%list]> letters)
  end.

Fixpoint add_synonyms (accents : gmap jstring jstring)
    (baseAccentedVowel : jstring) (synonyms : list jstring)
    (st : gmap jstring jstring * gmap jstring jstring)
  : result (gmap jstring jstring * gmap jstring jstring) :=
  match synonyms with
  | [] => Ok st
  | accentedVowel :: rest =>
      let? st' := add_synonym accents baseAccentedVowel st accentedVowel in
      add_synonyms accents baseAccentedVowel rest st'
  end.

Fixpoint add_accented (accents : gmap jstring jstring)
    (ava : list (jstring * list jstring))
    (st : gmap jstring jstring * gmap jstring jstring)
  : result (gmap jstring jstring * gmap jstring jstring) :=
  match ava with
  | [] => Ok st
  | (baseAccentedVowel, synonyms) :: rest =>
      let? st' := add_synonyms accents baseAccentedVowel synonyms st in
      add_accented accents rest st'
  end.

(** [Math.max.apply(Math, tokenLengths)]. *)
Definition math_max (l : list nat) : option nat :=
  match l with
  | [] => None
  | x :: l' => Some (fold_left Nat.max l' x)
  end.

(** [scheme.<group>[key]]: a [TypeError] when the group is absent. *)
Definition group_prop (name : jstring) (s : scheme) (group key : jstring)
  : result (option jstring) :=
  match prop group (groups s) with
  | None => Throw (TypeError (MissingGroup name group))
  | Some g => Ok (prop key g)
  end.

(** [makeMap(from, to, options)].  An unregistered scheme makes the first
    property read of [fromScheme] or [toScheme] raise. *)
Definition makeMap (schemes : gmap jstring scheme) (from to : jstring)
    (options : gmap string jsval) : result compiled :=
  match schemes !! from with
  | None => Throw (TypeError UnknownFromScheme)
  | Some fromScheme =>
      match schemes !! to with
      | None => Throw (TypeError UnknownToScheme)
      | Some toScheme =>
          let acc := group_tables fromScheme toScheme in
          let? ml :=
            match accented_vowel_alternates fromScheme with
            | None => Ok (t_marks acc, t_letters acc)
            | Some ava =>
                add_accented (t_accents acc) ava (t_marks acc, t_letters acc)
            end in
          let? virama := group_prop to toScheme (u "virama") key_virama in
          let? toSchemeA := group_prop to toScheme (u "vowels") key_a in
          let? fromSchemeA := group_prop from fromScheme (u "vowels") key_a in
          Ok {| consonants := t_consonants acc;
                accents := t_accents acc;
                fromRoman := isRomanScheme fromScheme;
                letters := snd ml;
                marks := fst ml;
                maxTokenLength := math_max (t_tokenLengths acc);
                toRoman := isRomanScheme toScheme;
                virama := virama;
                toSchemeA := toSchemeA;
                fromSchemeA := fromSchemeA;
                from := from;
                to := to |}
      end
  end.

End MakeMap.

(** ** The options object as the engines read it *)

Module Options.

(** [options[key]]; an absent key reads as [undefined]. *)
Definition get (options : gmap string jsval) (key : string) : jsval :=
  default VUndefined (options !! key).

(** ToBoolean. *)
Definition truthy_val (v : jsval) : bool :=
  match v with
  | VUndefined => false
  | VBool b => b
  | VObject _ _ => true
  end.

(** [a === b]: objects are equal when they are the same object. *)
Definition strict_eqb (a b : jsval) : bool :=
  match a, b with
  | VUndefined, VUndefined => true
  | VBool x, VBool y => Bool.eqb x y
  | VObject i _, VObject j _ => N.eqb i j
  | _, _ => false
  end.

End Options.

(** ** Accent reordering, shared by the two engines

    The source builds [([A])([B])] from the joined renderings and replaces
    every match by ["$2$1"].  The renderings are taken to hold no character
    that is special inside a class (backslash, closing bracket, caret,
    hyphen). *)

Module Reorder.
Import Regex MakeMap.

(** [Object.values(obj).join("")] as a character class. *)
Definition class_of (values : list jstring) (c : N) : bool :=
  existsb (fun v => existsb (N.eqb c) v) values.

Definition accent_values (map : compiled) : list jstring :=
  List.map snd (map_to_list (accents map)).

(** [s.replace(new RegExp("([A])([B])", "g"), "$2$1")]. *)
Definition swap_pairs (A B : N -> bool) (s : jstring) : jstring :=
  replace_all (Seq (Cls A) (Cls B)) (@rev N) s.

(** [Object.values(toScheme['yogavaahas'])], which raises when the scheme
    of the map's target is gone or has no such group. *)
Definition yogavaaha_values (schemes : gmap jstring scheme) (map : compiled)
  : result (list jstring) :=
  match schemes !! to map with
  | None => Throw (TypeError UnknownToScheme)
  | Some toScheme =>
      match prop (u "yogavaahas") (groups toScheme) with
      | None => Throw (TypeError (MissingGroup (to map) (u "yogavaahas")))
      | Some g => Ok (List.map snd g)
      end
  end.

End Reorder.

(** ** The Roman engine ([transliterateRoman]) *)

Module Roman.
Import MakeMap Options.

(** What [buf.push] receives. *)
Inductive piece :=
  | PLetter (s : jstring)
  | PMark (s : jstring)
  | PVirama
  | PToken (s : jstring).

(** What one run of the inner loop does with the head of the buffer: it
    consumes the toggle [##], a token found in [letters], or one unit
    that is pushed as it is. *)
Inductive action :=
  | Toggle
  | Match (token : jstring) (out : list piece)
  | Raw (token : jstring) (out : list piece).

Record state := {
  tokenBuffer : jstring;
  hadConsonant : bool;
  skippingSGML : jsval;
  toggledTrans : bool
}.

Definition initial : state :=
  {| tokenBuffer := []; hadConsonant := false;
     skippingSGML := VBool false; toggledTrans := false |}.

Section Engine.

(** The tables of [map] hold what the reads [letters[token]],
    [marks[token]] and [token in consonants] answer. *)
Variable map : compiled.
Variable options : gmap string jsval.

Definition optSkipSGML : jsval := get options "skip_sgml".
Definition optSyncope : jsval := get options "syncope".

(** The tests on SGML and on the toggle at the head of the inner loop's
    body: the new [skippingSGML], or [None] when the body toggles and
    leaves the loop. *)
Definition sgml_step (st : state) (token : jstring) : option jsval :=
  if strict_eqb (skippingSGML st) (VBool true) then
    Some (VBool (negb (str_eqb token (u ">"))))
  else if str_eqb token (u "<") then Some optSkipSGML
  else if str_eqb token (u "##") then None
  else Some (skippingSGML st).

(** What a token found in [letters] pushes, given [hadConsonant]. *)
Definition emit_match (had : bool) (token tempLetter : jstring)
  : list piece :=
  if toRoman map then [PLetter tempLetter]
  else if had then
    match marks map !! token with
    | Some (c :: m) => [PMark (c :: m)]
    | _ =>
        if bool_decide (Some token = fromSchemeA map) then []
        else [PVirama; PLetter tempLetter]
    end
  else [PLetter tempLetter].

(** What the last iteration pushes when nothing matched. *)
Definition emit_raw (had : bool) (token : jstring) : list piece :=
  ((if had && negb (truthy_val optSyncope) then [PVirama] else [])
   ++ [PToken token])%list.

(** The inner loop, [for (j = 0; j < maxTokenLength; j++)]; [n] is
    [maxTokenLength - j], the length of the candidate. *)
Fixpoint match_tokens (n : nat) (st : state) : option action * state :=
  match n with
  | O => (None, st)
  | S n' =>
      let token := substr0 n (tokenBuffer st) in
      match sgml_step st token with
      | None =>
          (Some Toggle,
           {| tokenBuffer := substr_from 2 (tokenBuffer st);
              hadConsonant := hadConsonant st;
              skippingSGML := skippingSGML st;
              toggledTrans := negb (toggledTrans st) |})
      | Some sgml =>
          let skippingTrans := truthy_val sgml || toggledTrans st in
          match letters map !! token, skippingTrans with
          | Some tempLetter, false =>
              (Some (Match token (emit_match (hadConsonant st) token tempLetter)),
               {| tokenBuffer := substr_from n (tokenBuffer st);
                  hadConsonant :=
                    if toRoman map then hadConsonant st
                    else bool_decide (is_Some (consonants map !! token));
                  skippingSGML := sgml;
                  toggledTrans := toggledTrans st |})
          | _, _ =>
              match n' with
              | O =>
                  (Some (Raw token (emit_raw (hadConsonant st) token)),
                   {| tokenBuffer := substr_from 1 (tokenBuffer st);
                      hadConsonant := false;
                      skippingSGML := sgml;
                      toggledTrans := toggledTrans st |})
              | S _ =>
                  match_tokens n'
                    {| tokenBuffer := tokenBuffer st;
                       hadConsonant := hadConsonant st;
                       skippingSGML := sgml;
                       toggledTrans := toggledTrans st |}
              end
          end
      end
  end.

(** [difference > 0] and [difference > 1], with [maxTokenLength]
    possibly [-Infinity]. *)
Definition room (buffer : jstring) : bool :=
  match maxTokenLength map with
  | Some m => Nat.ltb (length buffer) m
  | None => false
  end.

Definition room_after_fill (buffer : jstring) : bool :=
  match maxTokenLength map with
  | Some m => Nat.ltb (S (length buffer)) m
  | None => false
  end.

(** The number of turns of [for (j = 0; j < maxTokenLength; j++)]. *)
Definition loop_bound : nat :=
  match maxTokenLength map with
  | Some m => m
  | None => O
  end.

Definition with_buffer (st : state) (b : jstring) : state :=
  {| tokenBuffer := b; hadConsonant := hadConsonant st;
     skippingSGML := skippingSGML st; toggledTrans := toggledTrans st |}.

Definition cons_action (a : option action) (l : list action) : list action :=
  match a with
  | Some x => x :: l
  | None => l
  end.

(** The outer loop.  [rest] is the input from index [i] on, so that
    [L = data.charAt(i)] is its head and [i++] drops it.  [None] when
    [fuel] iterations do not reach the end of the loop. *)
Fixpoint outer_loop (fuel : nat) (rest : jstring) (st : state)
  : option (list action * state) :=
  match fuel with
  | O => None
  | S fuel' =>
      match rest, tokenBuffer st with
      | [], [] => Some ([], st)
      | _, _ =>
          let fill :=
            match rest with
            | L :: _ =>
                if room (tokenBuffer st)
                then Some (with_buffer st (tokenBuffer st ++ [L]))
                else None
            | [] => None
            end in
          match fill with
          | Some st1 =>
              if room_after_fill (tokenBuffer st)
              then outer_loop fuel' (tail rest) st1
              else
                let '(a, st2) :=
                  match_tokens loop_bound st1 in
                match outer_loop fuel' (tail rest) st2 with
                | Some (l, st3) => Some (cons_action a l, st3)
                | None => None
                end
          | None =>
              let '(a, st2) :=
                match_tokens loop_bound st in
              match outer_loop fuel' (tail rest) st2 with
              | Some (l, st3) => Some (cons_action a l, st3)
              | None => None
              end
          end
      end
  end.

(** The push after the loop. *)
Definition final_pieces (st : state) : list piece :=
  if hadConsonant st && negb (truthy_val optSyncope) then [PVirama] else [].

Definition pieces_of (a : action) : list piece :=
  match a with
  | Toggle => []
  | Match _ out => out
  | Raw _ out => out
  end.

(** [buf.join("")]; an [undefined] virama joins as the empty string. *)
Definition render (p : piece) : jstring :=
  match p with
  | PLetter s => s
  | PMark s => s
  | PVirama => default [] (virama map)
  | PToken s => s
  end.

Definition buf_of (run : list action * state) : list piece :=
  (flat_map pieces_of (fst run) ++ final_pieces (snd run))%list.

End Engine.

(** Iterations that suffice for an input (see the termination theorem). *)
Definition enough_fuel (data : jstring) : nat := S (2 * length data).

(** [transliterateRoman(data, map, options)], with the bound on the
    iterations of the outer loop made explicit. *)
Definition transliterateRoman (schemes : gmap jstring scheme) (fuel : nat)
    (data : jstring) (map : compiled) (options : gmap string jsval)
  : option (result jstring) :=
  match outer_loop map options fuel data initial with
  | None => None
  | Some run =>
      let result := join (List.map (render map) (buf_of options run)) in
      Some
        (if negb (toRoman map) && negb (bool_decide (accents map = ∅)) then
           let? yogavaahas := Reorder.yogavaaha_values schemes map in
           Ok (Reorder.swap_pairs
                 (Reorder.class_of (Reorder.accent_values map))
                 (Reorder.class_of yogavaahas) result)
         else Ok result)
  end.

End Roman.

(** ** The Brahmic engine ([transliterateBrahmic]) *)

Module Brahmic.
Import MakeMap Options.

Record state := {
  danglingHash : bool;
  hadRomanConsonant : bool;
  skippingTrans : bool
}.

Definition initial : state :=
  {| danglingHash := false; hadRomanConsonant := false;
     skippingTrans := false |}.

Section Engine.
Variable map : compiled.

(** [buf.push(map.toSchemeA)] joins as the empty string when the property
    is [undefined]. *)
Definition schemeA : jstring := default [] (toSchemeA map).

(** The loop body for one unit [L]: the pushes and the next state. *)
Definition step (st : state) (L : N) : list jstring * state :=
  if N.eqb L 35 then
    ((if hadRomanConsonant st then [schemeA] else []),
     {| danglingHash := negb (danglingHash st);
        hadRomanConsonant := false;
        skippingTrans :=
          if danglingHash st then negb (skippingTrans st)
          else skippingTrans st |})
  else if skippingTrans st then ([[L]], st)
  else
    match marks map !! [L] with
    | Some temp =>
        ([temp],
         {| danglingHash := danglingHash st;
            hadRomanConsonant := false;
            skippingTrans := skippingTrans st |})
    | None =>
        let hash := if danglingHash st then [u "#"] else [] in
        let a := if hadRomanConsonant st then [schemeA] else [] in
        match letters map !! [L] with
        | Some (c :: temp) =>
            ((hash ++ a ++ [c :: temp])%list,
             {| danglingHash := false;
                hadRomanConsonant :=
                  toRoman map && bool_decide (is_Some (consonants map !! [L]));
                skippingTrans := skippingTrans st |})
        | _ =>
            ((hash ++ a ++ [[L]])%list,
             {| danglingHash := false;
                hadRomanConsonant := false;
                skippingTrans := skippingTrans st |})
        end
    end.

(** [for (i = 0; (L = data.charAt(i)); i++)] and the push after it. *)
Fixpoint loop (data : jstring) (st : state) : list jstring :=
  match data with
  | [] => if hadRomanConsonant st then [schemeA] else []
  | L :: rest =>
      let '(out, st') := step st L in
      (out ++ loop rest st')%list
  end.

End Engine.

(** [transliterateBrahmic(data, map, options)]. *)
Definition transliterateBrahmic (schemes : gmap jstring scheme)
    (data : jstring) (map : compiled) (options : gmap string jsval)
  : result jstring :=
  let? data' :=
    if toRoman map && negb (bool_decide (accents map = ∅)) then
      let? yogavaahas := Reorder.yogavaaha_values schemes map in
      Ok (Reorder.swap_pairs
            (Reorder.class_of yogavaahas)
            (Reorder.class_of (Reorder.accent_values map)) data)
    else Ok data in
  Ok (join (loop map data' initial)).

End Brahmic.

(** ** Audio numbers ([pickAudioNumbers], [refillAudioNumbers]) *)

Module Audio.
Import Regex.

(** The audio marker. *)
Definition marker : N := 0x25b7.

(** [RE_AUDIO_WITH_NUM = /M\d+[a-z]?|M\d*/g], with M the marker. *)
Definition RE_AUDIO_WITH_NUM : regex :=
  Alt (Seq (Chr marker) (Seq (Plus digit) (Opt (Cls lower_az))))
      (Seq (Chr marker) (Star digit)).

Definition digit_or_az (c : N) : bool := digit c || lower_az c.

(** The [while] loop that extends [num]: the longest run of units in
    the class. *)
Fixpoint take_while (p : N -> bool) (s : jstring) : jstring :=
  match s with
  | c :: s' => if p c then c :: take_while p s' else []
  | [] => []
  end.

(** The callback of [forEach] over the segments: [idx] and [audios] are
    the variables it updates. *)
Definition pick_segment (text : jstring) (st : nat * list jstring)
    (seg : jstring) : nat * list jstring :=
  let '(idx, audios) := st in
  let idx := (idx + length seg)%nat in
  match text !! idx with
  | None => (idx, audios)
  | Some _ =>
      let idx := S idx in
      match text !! idx with
      | Some d =>
          if digit d then
            let more := take_while digit_or_az (skipn (S idx) text) in
            ((S idx + length more)%nat, (audios ++ [d :: more])%list)
          else (idx, (audios ++ [[]])%list)
      | None => (idx, (audios ++ [[]])%list)
      end
  end.

(** [pickAudioNumbers(audios, text)]: the array after the call and the
    returned string. *)
Definition pickAudioNumbers (audios : list jstring) (text : jstring)
  : list jstring * jstring :=
  let segments := split RE_AUDIO_WITH_NUM text in
  let '(_, audios') := fold_left (pick_segment text) segments (O, audios) in
  (audios', replace_all RE_AUDIO_WITH_NUM (fun _ => [marker]) text).

(** [refillAudioNumbers(audios, index, text)]: the replacement of each
    marker by itself and [audios[index++] || ''].  The expression is the
    single unit of the marker, so the scan is over the units. *)
Fixpoint refillAudioNumbers (audios : list jstring) (index : nat)
    (text : jstring) : jstring :=
  match text with
  | [] => []
  | c :: rest =>
      if N.eqb c marker then
        (c :: default [] (audios !! index)
           ++ refillAudioNumbers audios (S index) rest)%list
      else c :: refillAudioNumbers audios index rest
  end.

End Audio.

(** ** Replacement by a literal pattern *)

Module Literal.
Import Regex.

(** The replacement text of [s.replace(pattern, replacement)] for a string
    pattern (GetSubstitution without captures): [$$], [$&], [$`] and [$']
    are expanded, any other unit stands for itself. *)
Fixpoint substitution (matched before after : jstring)
    (replacement : jstring) : jstring :=
  match replacement with
  | [] => []
  | c :: r =>
      match r with
      | d :: r' =>
          if N.eqb c 36 then
            if N.eqb d 36 then 36 :: substitution matched before after r'
            else if N.eqb d 38 then
              (matched ++ substitution matched before after r')%list
            else if N.eqb d 96 then
              (before ++ substitution matched before after r')%list
            else if N.eqb d 39 then
              (after ++ substitution matched before after r')%list
            else c :: substitution matched before after r
          else c :: substitution matched before after r
      | [] => [c]
      end
  end.

(** The scan for the first occurrence; [before] is reversed. *)
Fixpoint replace_at_first (pattern replacement : jstring)
    (before : jstring) (s : jstring) : option jstring :=
  if is_prefix pattern s then
    let after := skipn (length pattern) s in
    Some (rev before
            ++ substitution pattern (rev before) after replacement
            ++ after)%list
  else
    match s with
    | [] => None
    | c :: s' => replace_at_first pattern replacement (c :: before) s'
    end.

(** [s.replace(pattern, replacement)] with a string pattern: the first
    occurrence only. *)
Definition replace (pattern replacement : jstring) (s : jstring) : jstring :=
  default s (replace_at_first pattern replacement [] s).

(** [s.split(key).join(value)]. *)
Fixpoint intersperse (value : jstring) (s : jstring) : jstring :=
  match s with
  | [] => []
  | [c] => [c]
  | c :: s' => (c :: value ++ intersperse value s')%list
  end.

Definition split_join (key value : jstring) (s : jstring) : jstring :=
  match key with
  | [] => intersperse value s
  | _ :: _ => replace_all (lit key) (fun _ => value) s
  end.

End Literal.

(** ** The dispatcher ([Sanscript.t]) and its cache *)

Module Dispatcher.
Import Regex MakeMap Options.

(** [Sanscript.defaults], in enumeration order.  The default
    [preferred_alternates] is one object, here with identity 0. *)
Definition defaults : list (string * jsval) :=
  [ ("skip_sgml"%string, VBool false);
    ("syncope"%string, VBool false);
    ("preferred_alternates"%string, VObject 0 []);
    ("split_aksara"%string, VBool false);
    ("move_consonant"%string, VBool false) ].

(** Option objects live in a heap, so that the caller, [t] and the cache
    can hold the same object. *)
Abbreviation loc := nat.

Record cache_entry := {
  c_from : jstring;
  c_map : compiled;
  c_options : loc;
  c_to : jstring
}.

(** The state [t] works on: the option objects and the variable [cache]
    ([None] is the initial [{}]). *)
Record world := {
  heap : gmap loc (gmap string jsval);
  cache : option cache_entry
}.

(** One turn of the loop over the keys of [defaults]: it writes
    [options[key]] and compares the value with [cachedOptions[key]]. *)
Definition merge_key (l : loc) (cached : option loc)
    (st : gmap loc (gmap string jsval) * bool) (d : string * jsval)
  : gmap loc (gmap string jsval) * bool :=
  let '(h, hasPriorState) := st in
  let '(key, dflt) := d in
  let options := default ∅ (h !! l) in
  let value :=
    match options !! key with
    | Some v => v
    | None => dflt
    end in
  let h' := <[l := <[key := value]> options]> h in
  let cachedValue :=
    match cached with
    | Some cl => get (default ∅ (h' !! cl)) key
    | None => VUndefined
    end in
  (h', if strict_eqb value cachedValue then hasPriorState else false).

(** The rewrites for an ITRANS source. *)
Definition prepare_itrans (data : jstring) : jstring :=
  let data := replace_all (lit ([123; 92] ++ u "m+}")) (fun _ => u ".h.N") data in
  let data := replace_all (lit (u ".h")) (fun _ => []) data in
  replace_all
    (Seq (Chr 92) (Alt (Cls (fun c => negb (one_of [39; 96; 95] c))) Eol))
    (fun m => (u "##" ++ tail m ++ u "##")%list) data.

(** The rewrites for IAST to Devanagari: [RE_OTHER_AVAGRAHA],
    [RE_REMAIN_NUM_DOT], [RE_REMOVE_LIGATURE], [RE_ALTERNATE_PUNC]. *)
Definition prepare_iast_devanagari (data : jstring) : jstring :=
  let data := replace_all (Cls (one_of [0x2018; 0x2019])) (fun _ => [39]) data in
  let data :=
    replace_all (Seq (Cls digit) (Seq (Chr 46) (Cls digit)))
      (fun s => Literal.replace (u ".") (u "##.##") s) data in
  let data := replace_all (Chr 45) (fun _ => []) data in
  replace_all
    (Seq (Alt Bol (Cls (fun c => negb (one_of [35; 92] c))))
         (Cls (one_of (u ",?!:"))))
    (fun s => ((if Nat.ltb 1 (length s) then firstn 1 s else []) ++ u "|")%list)
    data.

(** The class the two Tamil patterns share: the vowel marks, the virama
    and two accents of [tamil_superscripted]; reading a group the scheme
    lacks raises. *)
Definition tamil_name : jstring := u "tamil_superscripted".

Definition tamil_class (schemes : gmap jstring scheme)
    (site : throw_site) : result (N -> bool) :=
  match schemes !! tamil_name with
  | None => Throw (TypeError site)
  | Some s =>
      match prop (u "vowel_marks") (groups s) with
      | None => Throw (TypeError (MissingGroup tamil_name (u "vowel_marks")))
      | Some vm =>
          match prop (u "virama") (groups s) with
          | None => Throw (TypeError (MissingGroup tamil_name (u "virama")))
          | Some v =>
              Ok (Reorder.class_of
                    (List.map snd vm
                       ++ [default (u "undefined") (prop key_virama v)]
                       ++ [[0x952; 0x951]])%list)
          end
      end
  end.

Definition superscript (c : N) : bool := one_of [0xb2; 0xb3; 0x2074] c.

(** [schemes[name]["shortcuts"]]. *)
Definition shortcuts_of (schemes : gmap jstring scheme) (name : jstring)
    (site : throw_site) : result (option group) :=
  match schemes !! name with
  | None => Throw (TypeError site)
  | Some s => Ok (prop (u "shortcuts") (groups s))
  end.

(** The loop over the shortcuts of the source scheme. *)
Definition from_shortcut (data : jstring) (entry : jstring * jstring)
  : jstring :=
  let '(key, shortcut) := entry in
  let data :=
    if includes key shortcut then Literal.replace key shortcut data
    else data in
  Literal.replace shortcut key data.

(** The loop over the shortcuts of the target scheme. *)
Definition to_shortcut (result : jstring) (entry : jstring * jstring)
  : jstring :=
  let '(key, shortcut) := entry in
  let result :=
    if includes shortcut key then Literal.replace shortcut key result
    else result in
  Literal.replace key shortcut result.

(** The last step: [options.preferred_alternates[to]]. *)
Definition apply_preferred (options : gmap string jsval) (to : jstring)
    (result : jstring) : JS.result jstring :=
  match get options "preferred_alternates" with
  | VUndefined => Throw (TypeError BadPreferredAlternates)
  | VBool _ => Ok result
  | VObject _ table =>
      match prop to table with
      | None => Ok result
      | Some substitutions =>
          Ok (fold_left
                (fun r kv => Literal.split_join (fst kv) (snd kv) r)
                substitutions result)
      end
  end.

(** Everything [t] does once it holds the map. *)
Definition with_map (schemes : gmap jstring scheme) (data from to : jstring)
    (options : gmap string jsval) (map : compiled)
  : option (JS.result jstring) :=
  let prepared : JS.result jstring :=
    if str_eqb from (u "itrans") then Ok (prepare_itrans data)
    else if str_eqb from tamil_name then
      let? cls := tamil_class schemes UnknownFromScheme in
      Ok (replace_all (Seq (Plus cls) (Cls superscript))
            (fun m => (firstn 1 (rev m) ++ removelast m)%list) data)
    else if str_eqb from (u "iast") && str_eqb to (u "devanagari") then
      Ok (prepare_iast_devanagari data)
    else Ok data in
  let shortened : JS.result jstring :=
    let? data := prepared in
    let? fromShortcuts := shortcuts_of schemes from UnknownFromScheme in
    Ok (fold_left from_shortcut (default [] fromShortcuts) data) in
  match shortened with
  | Throw e => Some (Throw e)
  | Ok data =>
      let engine :=
        if fromRoman map
        then Roman.transliterateRoman schemes (Roman.enough_fuel data)
               data map options
        else Some (Brahmic.transliterateBrahmic schemes data map options) in
      match engine with
      | None => None
      | Some r =>
          Some
            (let? result := r in
             let? toShortcuts := shortcuts_of schemes to UnknownToScheme in
             let result :=
               fold_left to_shortcut (default [] toShortcuts) result in
             let? result :=
               if str_eqb to tamil_name then
                 let? cls := tamil_class schemes UnknownToScheme in
                 Ok (replace_all (Seq (Cls superscript) (Plus cls))
                       (fun m => (tail m ++ firstn 1 m)%list) result)
               else Ok result in
             apply_preferred options to result)
      end
  end.

(** [Sanscript.t(data, from, to, options)].  [options] is the object the
    caller passes ([None] for [null] or a missing argument).  The result
    is [None] only if the Roman engine runs out of iterations. *)
Definition t (schemes : gmap jstring scheme) (w : world)
    (data from to : jstring) (options : option loc)
  : world * option (JS.result jstring) :=
  let from :=
    match from with
    | [] => toLowerCase (Detect.detect data)
    | _ :: _ => from
    end in
  let l :=
    match options with
    | Some l => l
    | None => fresh (dom (heap w))
    end in
  let h0 :=
    match options with
    | Some _ => heap w
    | None => <[l := ∅]> (heap w)
    end in
  let hasPriorState :=
    match cache w with
    | Some c => str_eqb (c_from c) from && str_eqb (c_to c) to
    | None => false
    end in
  let '(h, hasPriorState) :=
    fold_left (merge_key l (c_options <$> cache w)) defaults
              (h0, hasPriorState) in
  let options := default ∅ (h !! l) in
  let built : JS.result (compiled * option cache_entry) :=
    match hasPriorState, cache w with
    | true, Some c => Ok (c_map c, cache w)
    | _, _ =>
        let? map := makeMap schemes from to options in
        Ok (map, Some {| c_from := from; c_map := map;
                         c_options := l; c_to := to |})
    end in
  match built with
  | Throw e => ({| heap := h; cache := cache w |}, Some (Throw e))
  | Ok (map, cache') =>
      ({| heap := h; cache := cache' |},
       with_map schemes data from to options map)
  end.

End Dispatcher.

(** ** Small tables for the examples

    The scheme tables are data outside the source file.  The examples
    below run on fragments in their shape. *)

Module Demo.
Import MakeMap Dispatcher.

(** The conjunct ksha: ka, virama, ssa. *)
Definition ksha : jstring := [0x915; 0x94d; 0x937].

(** A fragment of Devanagari. *)
Definition devanagari : scheme :=
  {| isRomanScheme := false;
     alternates := None;
     accented_vowel_alternates := None;
     groups :=
       [ (u "vowels", [([0x905], [0x905]); ([0x906], [0x906]); ([0x907], [0x907])]);
         (u "vowel_marks", [([0x93e], [0x93e]); ([0x93f], [0x93f])]);
         (u "yogavaahas", [([0x903], [0x903])]);
         (u "virama", [([0x94d], [0x94d])]);
         (u "consonants",
          [([0x915], [0x915]); ([0x92e], [0x92e]); ([0x930], [0x930]);
           (ksha, ksha)]) ] |}.

(** A fragment of Harvard-Kyoto, with the [vowel_marks] that
    [addRomanScheme] derives. *)
Definition hk : scheme :=
  {| isRomanScheme := true;
     alternates := None;
     accented_vowel_alternates := None;
     groups :=
       [ (u "vowels", [([0x905], u "a"); ([0x906], u "A"); ([0x907], u "i")]);
         (u "yogavaahas", [([0x903], u "H")]);
         (u "virama", [([0x94d], [])]);
         (u "consonants",
          [([0x915], u "k"); ([0x92e], u "m"); ([0x930], u "r")]);
         (u "vowel_marks", [([0x93e], u "A"); ([0x93f], u "i")]) ] |}.

(** A Roman scheme whose accented vowel [e'] (its base [e] is no vowel
    of the scheme) has the synonym [E']. *)
Definition accented : scheme :=
  {| isRomanScheme := true;
     alternates := None;
     accented_vowel_alternates := Some [(u "e'", [u "E'"])];
     groups := groups hk |}.

(** A Roman scheme whose accented vowel [a'] has the three-unit synonym
    [a''], longer than every token of the groups. *)
Definition long_synonym : scheme :=
  {| isRomanScheme := true;
     alternates := None;
     accented_vowel_alternates := Some [(u "a'", [u "a''"])];
     groups := groups hk |}.

(** A scheme whose groups are empty. *)
Definition bare : scheme :=
  {| isRomanScheme := false; alternates := None;
     accented_vowel_alternates := None;
     groups := [(u "vowels", []); (u "virama", [])] |}.

(** A Roman scheme with the consonant [kS] and the shortcut [x] for
    it. *)
Definition shortcut_scheme : scheme :=
  {| isRomanScheme := true;
     alternates := None;
     accented_vowel_alternates := None;
     groups :=
       [ (u "vowels", [([0x905], u "a")]);
         (u "virama", [([0x94d], [])]);
         (u "consonants",
          [([0x915], u "k"); (ksha, u "kS")]);
         (u "shortcuts", [(u "kS", u "x")]) ] |}.

Definition schemes : gmap jstring scheme :=
  list_to_map
    [ (u "devanagari", devanagari); (u "hk", hk); (u "accented", accented);
      (u "long_synonym", long_synonym); (u "bare", bare);
      (u "shortcut", shortcut_scheme) ].

(** The world before the first call. *)
Definition world0 : world := {| heap := ∅; cache := None |}.

(** A world whose object 1 is the caller's options. *)
Definition with_options (o : gmap string jsval) : world :=
  {| heap := {[ 1%nat := o ]}; cache := None |}.

End Demo.


(** ** Syllables *)

Module Aksara.
Import Regex.

Definition tab : N := 9.
Definition bar : N := 124.
Definition marker : N := Audio.marker.

(** The capital of a small letter of the expressions below.  Under the
    flag [i] a unit matches a letter of a class when it is the letter or
    its capital: no other unit has the same upper case, and the upper
    case of a unit above 127 is never compared with an ASCII letter. *)
Definition capital (c : N) : N :=
  if lower_az c then c - 32
  else if one_of [0xe1; 0xed; 0xfa; 0xe8; 0xf2; 0xf1] c then c - 32
  else if one_of [0x101; 0x12b; 0x16b; 0x113; 0x14d; 0x15b] c then c - 1
  else if one_of [0x1e5b; 0x1e5d; 0x1e37; 0x1e39; 0x1e43; 0x1e25;
                  0x1e6d; 0x1e0d; 0x1e45; 0x1e47; 0x1e63] c then c - 1
  else c.

Definition ci (letters : list N) (c : N) : bool :=
  existsb (fun a => N.eqb c a || N.eqb c (capital a)) letters.

(** The letters of [aiuāīūṛṝḷḹáíúeēèoōò]. *)
Definition vowel_letters : list N :=
  (u "aiu" ++ [0x101; 0x12b; 0x16b; 0x1e5b; 0x1e5d; 0x1e37; 0x1e39;
               0xe1; 0xed; 0xfa]
   ++ u "e" ++ [0x113; 0xe8] ++ u "o" ++ [0x14d; 0xf2])%list.

(** [RE_AKSARA_VOWEL = /[aiuāīūṛṝḷḹáíúeēèoōò]+[ṃḥ]?/i]. *)
Definition RE_AKSARA_VOWEL : regex :=
  Seq (Plus (ci vowel_letters)) (Opt (Cls (ci [0x1e43; 0x1e25]))).

Definition dot_or_dash (c : N) : bool := one_of [46; 45] c.

(** [RE_AKSARA_PUNC_NUM = /[▷,?!:]|\|+\d[|\d.-]*|\|+|\d[\d.-]*/g]. *)
Definition RE_AKSARA_PUNC_NUM : regex :=
  alts
    [ Cls (one_of (marker :: u ",?!:"));
      Seq (Plus (N.eqb bar))
        (Seq (Cls digit)
           (Star (fun c => N.eqb c bar || digit c || dot_or_dash c)));
      Plus (N.eqb bar);
      Seq (Cls digit) (Star (fun c => digit c || dot_or_dash c)) ].

(** The letters of [kgcjṭḍtdpb] and of [ṅñṇnmyrlvśṣsh]. *)
Definition stop_letters : list N :=
  (u "kgcj" ++ [0x1e6d; 0x1e0d] ++ u "tdpb")%list.

Definition other_letters : list N :=
  ([0x1e45; 0xf1; 0x1e47] ++ u "nmyrlv" ++ [0x15b; 0x1e63] ++ u "sh")%list.

(** [RE_CONSONANT2 = /kṣ|jñ|ll|[kgcjṭḍtdpb]h?|[ṅñṇnmyrlvśṣsh]/gi]. *)
Definition RE_CONSONANT2 : regex :=
  alts
    [ Seq (Cls (ci (u "k"))) (Cls (ci [0x1e63]));
      Seq (Cls (ci (u "j"))) (Cls (ci [0xf1]));
      Seq (Cls (ci (u "l"))) (Cls (ci (u "l")));
      Seq (Cls (ci stop_letters)) (Opt (Cls (ci (u "h"))));
      Cls (ci other_letters) ].

(** [RE_CONSONANT1 = /[kgcjṭḍtdpbṅñṇnmyrlvśṣsh]/i]. *)
Definition RE_CONSONANT1 : regex :=
  Cls (ci (stop_letters ++ other_letters)).

(** [RE_AKSARA_TYPE_NUM = /[\d०-९]/]. *)
Definition RE_AKSARA_TYPE_NUM : regex :=
  Cls (fun c => digit c || ((0x966 <=? c) && (c <=? 0x96f))).

(** [RE_AKSARA_TYPE_PUNC = /^[,.?!:|।॥]/]. *)
Definition RE_AKSARA_TYPE_PUNC : regex :=
  Seq Bol (Cls (one_of (u ",.?!:|" ++ [0x964; 0x965]))).

(** [RE_AKSARA_CONS_HELP = [/[\t'-]/g, /^\t+/]]. *)
Definition RE_AKSARA_CONS_HELP_0 : regex := Cls (one_of [tab; 39; 45]).
Definition RE_AKSARA_CONS_HELP_1 : regex := Seq Bol (Plus (N.eqb tab)).

(** [s.search(r)] with the length of the match: the first position with
    a match. *)
Fixpoint search_from (r : regex) (bol : bool) (s : jstring) (i : nat)
  : option (nat * nat) :=
  match match_len r bol s with
  | Some n => Some (i, n)
  | None =>
      match s with
      | [] => None
      | _ :: s' => search_from r false s' (S i)
      end
  end.

Definition search (r : regex) (s : jstring) : option (nat * nat) :=
  search_from r true s O.

(** [s.replace(r, replacement)] for an expression that is not global and
    a replacement without [$]: the first match only. *)
Definition replace_first (r : regex) (replacement : jstring) (s : jstring)
  : jstring :=
  match search r s with
  | Some (i, n) => (firstn i s ++ replacement ++ skipn (i + n) s)%list
  | None => s
  end.

(** [s.split(sep)] for a separator of one unit; [cur] is the piece
    being collected, reversed. *)
Fixpoint split_on (sep : N) (cur : jstring) (s : jstring) : list jstring :=
  match s with
  | [] => [rev cur]
  | c :: s' =>
      if N.eqb c sep then rev cur :: split_on sep [] s'
      else split_on sep (c :: cur) s'
  end.

(** The inner function [split] of [splitAksara]: the syllables it
    pushes.  Every turn of its loop takes at least one unit off [str];
    [None] when [fuel] turns do not empty it. *)
Fixpoint split_syllables (fuel : nat) (str : jstring)
  : option (list jstring) :=
  match str with
  | [] => Some []
  | _ :: _ =>
      match fuel with
      | O => None
      | S fuel' =>
          match search RE_AKSARA_VOWEL str with
          | None => Some [str]
          | Some (vowelIndex, vowel) =>
              match
                split_syllables fuel' (skipn (vowelIndex + vowel) str)
              with
              | Some more => Some (firstn (vowelIndex + vowel) str :: more)
              | None => None
              end
          end
      end
  end.

(** The class that extends a number or a run of bars. *)
Definition punc_class (punc : N) (c : N) : bool :=
  if N.eqb punc bar then N.eqb c bar || digit c || dot_or_dash c
  else digit c || dot_or_dash c.

(** The callback of [forEach] over the sentences: [idx] and [items] are
    the variables it updates. *)
Definition split_sentence (data : jstring)
    (st : option (nat * list jstring)) (sentence : jstring)
  : option (nat * list jstring) :=
  match st with
  | None => None
  | Some (idx, items) =>
      match split_syllables (length sentence) sentence with
      | None => None
      | Some syllables =>
          let items := (items ++ syllables)%list in
          let idx := (idx + length sentence)%nat in
          match data !! idx with
          | None => Some (idx, items)
          | Some punc =>
              if N.eqb punc bar || digit punc then
                let more :=
                  Audio.take_while (punc_class punc) (skipn (S idx) data) in
                Some ((S idx + length more)%nat,
                      (items ++ [punc :: more])%list)
              else Some (S idx, (items ++ [[punc]])%list)
          end
      end
  end.

(** [Sanscript.splitAksara(data)]. *)
Definition splitAksara (data : jstring) : option (list jstring) :=
  match
    fold_left (split_sentence data) (split RE_AKSARA_PUNC_NUM data)
      (Some (O, []))
  with
  | Some (_, items) => Some items
  | None => None
  end.

(** The branches of [getAksaraType] for a text without tab. *)
Definition type_of_part (text : jstring) : jstring :=
  match text with
  | [] => u " "
  | c :: _ =>
      if N.eqb c marker then u "u"
      else if test RE_AKSARA_TYPE_NUM text then u "n"
      else if test RE_AKSARA_TYPE_PUNC text then u "p"
      else
        let hasVowel := test RE_AKSARA_VOWEL text in
        let con :=
          replace_first RE_CONSONANT1 [tab]
            (replace_all RE_CONSONANT2 (fun _ => [tab])
               (replace_all RE_AKSARA_CONS_HELP_0 (fun _ => []) text)) in
        let n :=
          match search RE_AKSARA_CONS_HELP_1 con with
          | Some (_, n) => n
          | None => O
          end in
        [48 + N.of_nat ((if hasVowel then 4 else 0)
                        + (if Nat.ltb 1 n then 2 else n))]
  end.

(** [Sanscript.getAksaraType(text)]; [depth] bounds the nesting of the
    calls through [map]. *)
Fixpoint getAksaraType (depth : nat) (text : jstring) : option jstring :=
  match depth with
  | O => None
  | S depth' =>
      if existsb (N.eqb tab) text then
        match mapM (getAksaraType depth') (split_on tab [] text) with
        | Some types => Some (concat types)
        | None => None
        end
      else Some (type_of_part text)
  end.

(** [isConsonantAtEnd(sy, i)], on the syllables from index [i] on. *)
Fixpoint consonant_at_end (from_i : list jstring) : bool :=
  match from_i with
  | [] => false
  | [_] => true
  | _ :: (next :: rest) as tl =>
      test RE_AKSARA_TYPE_NUM next
      || test RE_AKSARA_TYPE_PUNC next
      || (str_eqb next [marker]
          && negb (Nat.eqb (length rest) 0)
          && consonant_at_end tl)
  end.

Definition isConsonantAtEnd (sy : list jstring) (i : nat) : bool :=
  consonant_at_end (skipn i sy).

End Aksara.

(** ** Reads of a plain object

    [makeMap] builds [letters], [marks] and [consonants] as plain
    objects ([{}]), and the Roman engine reads them with [obj[token]]
    and [token in obj].  Both go up the prototype chain, so a token
    spelled like a member of [Object.prototype] is found although the
    table has no such key.  The compiled map holds the own properties;
    [visible] gives what the reads of the engine see. *)

Module Prototype.
Import MakeMap.

(** The property names of [Object.prototype]. *)
Definition names : list jstring :=
  [u "constructor"; u "__defineGetter__"; u "__defineSetter__";
   u "hasOwnProperty"; u "__lookupGetter__"; u "__lookupSetter__";
   u "isPrototypeOf"; u "propertyIsEnumerable"; u "toString";
   u "valueOf"; u "__proto__"; u "toLocaleString"].

(** No member name occurs in the text. *)
Definition free_of_names (data : jstring) : bool :=
  forallb (fun name => negb (includes data name)) names.

Section Read.

(** What follows the keyword in the source text of a built-in function
    of the given name; the language leaves it to the implementation. *)
Variable native : jstring -> jstring.

(** What [buf.join("")] makes of an inherited member once it is pushed:
    the source text of the function, and [[object Object]] for
    [__proto__], which reads as [Object.prototype] itself.  Neither is
    empty, so the member is truthy. *)
Definition member_text (name : jstring) : jstring :=
  if str_eqb name (u "__proto__") then u "[object Object]"
  else (u "function" ++ native name)%list.

Definition inherited : gmap jstring jstring :=
  list_to_map (List.map (fun name => (name, member_text name)) names).

(** [obj[key]] and [key in obj] for every key: the own property, or
    else the inherited one. *)
Definition plain (obj : gmap jstring jstring) : gmap jstring jstring :=
  obj ∪ inherited.

(** The map as [transliterateRoman] reads it.  [Object.keys] and
    [Object.values] of [accents] see own properties only. *)
Definition visible (map : compiled) : compiled :=
  {| consonants := plain (consonants map);
     accents := accents map;
     fromRoman := fromRoman map;
     letters := plain (letters map);
     marks := plain (marks map);
     maxTokenLength := maxTokenLength map;
     toRoman := toRoman map;
     virama := virama map;
     toSchemeA := toSchemeA map;
     fromSchemeA := fromSchemeA map;
     from := from map;
     to := to map |}.

End Read.

End Prototype.

(** ** The registry of schemes *)

Module Registry.

(** The name is a canonical array index: decimal digits without a
    leading zero, below 2^32 - 1. *)
Fixpoint decimal (acc : N) (s : jstring) : option N :=
  match s with
  | [] => Some acc
  | c :: s' =>
      if Regex.digit c then decimal (10 * acc + (c - 48)) s' else None
  end.

Definition array_index (key : jstring) : option N :=
  match key with
  | [] => None
  | c :: rest =>
      if N.eqb c 48 && negb (Nat.eqb (length rest) 0) then None
      else
        match decimal 0 key with
        | Some n => if n <? 4294967295 then Some n else None
        | None => None
        end
  end.

(** [key] is enumerated before [k]: array indices in ascending order
    come first, the other keys follow in the order of their creation. *)
Definition before (key k : jstring) : bool :=
  match array_index key, array_index k with
  | Some n, Some m => n <? m
  | Some _, None => true
  | None, _ => false
  end.

Fixpoint update {V} (key : jstring) (value : V) (obj : list (jstring * V))
  : list (jstring * V) :=
  match obj with
  | [] => []
  | (k, v) :: rest =>
      if str_eqb k key then (k, value) :: rest
      else (k, v) :: update key value rest
  end.

Fixpoint create {V} (key : jstring) (value : V) (obj : list (jstring * V))
  : list (jstring * V) :=
  match obj with
  | [] => [(key, value)]
  | (k, v) :: rest =>
      if before key k then (key, value) :: (k, v) :: rest
      else (k, v) :: create key value rest
  end.

(** [obj[key] = value] on an enumeration-ordered object: an own
    property keeps its place, a new one takes the place of its name. *)
Definition set_prop {V} (key : jstring) (value : V)
    (obj : list (jstring * V)) : list (jstring * V) :=
  match prop key obj with
  | Some _ => update key value obj
  | None => create key value obj
  end.

(** Scheme objects live in a store, so that the caller and the registry
    hold the same object.  [schemes] is [Sanscript.schemes], from the
    name to the object, in enumeration order. *)
Abbreviation loc := nat.

Record store := {
  objects : gmap loc scheme;
  schemes : list (jstring * loc);
  romanSchemes : gset jstring
}.

(** [Sanscript.schemes[name]], read through the store. *)
Definition scheme_of (st : store) (name : jstring) : option scheme :=
  match prop name (schemes st) with
  | Some l => objects st !! l
  | None => None
  end.

(** [Sanscript.addBrahmicScheme(name, scheme)]. *)
Definition addBrahmicScheme (name : jstring) (l : loc) (st : store)
  : store :=
  {| objects := objects st;
     schemes := set_prop name l (schemes st);
     romanSchemes := romanSchemes st |}.

(** The loop of [addRomanScheme] over the entries of [scheme.vowels];
    a vowel that [devanagariVowelToMarks] lacks goes under the key
    [undefined]. *)
Definition add_mark (devanagariVowelToMarks : group) (marks : group)
    (entry : jstring * jstring) : group :=
  let '(key, value) := entry in
  if str_eqb key key_a then marks
  else
    set_prop (default (u "undefined") (prop key devanagariVowelToMarks))
      value marks.

Definition with_groups (s : scheme) (g : list (jstring * group)) : scheme :=
  {| isRomanScheme := isRomanScheme s;
     alternates := alternates s;
     accented_vowel_alternates := accented_vowel_alternates s;
     groups := g |}.

(** [Sanscript.addRomanScheme(name, scheme)]: the store after the call
    and how the call ends.  The empty [vowel_marks] is written before
    [scheme.vowels] is read, so it stays in the object when the read
    raises. *)
Definition addRomanScheme (devanagariVowelToMarks : group)
    (name : jstring) (l : loc) (st : store) : store * result unit :=
  match objects st !! l with
  | None => (st, Throw (TypeError (MissingGroup name (u "vowel_marks"))))
  | Some s =>
      let registered (objs : gmap loc scheme) :=
        ({| objects := objs;
            schemes := set_prop name l (schemes st);
            romanSchemes := {[ name ]} ∪ romanSchemes st |}, Ok tt) in
      match prop (u "vowel_marks") (groups s) with
      | Some _ => registered (objects st)
      | None =>
          let blank := set_prop (u "vowel_marks") [] (groups s) in
          match prop (u "vowels") blank with
          | None =>
              ({| objects := <[l := with_groups s blank]> (objects st);
                  schemes := schemes st;
                  romanSchemes := romanSchemes st |},
               Throw (TypeError (MissingGroup name (u "vowels"))))
          | Some vowels =>
              let marks :=
                fold_left (add_mark devanagariVowelToMarks) vowels [] in
              registered
                (<[l := with_groups s
                          (set_prop (u "vowel_marks") marks blank)]>
                   (objects st))
          end
      end
  end.

(** The loop at the end of the set-up: every scheme of the registry
    whose [isRomanScheme] is true is added again with [addRomanScheme].
    The entries are those the registry has when the loop starts. *)
Definition add_if_roman (devanagariVowelToMarks : group)
    (acc : store * result unit) (entry : jstring * loc)
  : store * result unit :=
  let '(schemeName, l) := entry in
  match acc with
  | (st, Ok _) =>
      match objects st !! l with
      | None =>
          (st, Throw (TypeError (MissingGroup schemeName (u "isRomanScheme"))))
      | Some s =>
          if isRomanScheme s
          then addRomanScheme devanagariVowelToMarks schemeName l st
          else (st, Ok tt)
      end
  | (st, Throw e) => (st, Throw e)
  end.

Definition add_roman_schemes (devanagariVowelToMarks : group) (st : store)
  : store * result unit :=
  fold_left (add_if_roman devanagariVowelToMarks) (schemes st) (st, Ok tt).

Section Capitals.

(** [String.prototype.toUpperCase] on a string of one unit. *)
Variable toUpperCase : N -> jstring.

(** [capitalize(text)]. *)
Definition capitalize (text : jstring) : jstring :=
  match text with
  | [] => []
  | c :: rest => (toUpperCase c ++ rest)%list
  end.

(** One turn of the loop of [addCapitalAlternates(codeList,
    alternatesMap)]; the result is the object after the call. *)
Definition add_capitals (alternatesMap : list (jstring * list jstring))
    (v : jstring) : list (jstring * list jstring) :=
  let initAlternatesList := default [] (prop v alternatesMap) in
  let alternatesList := (initAlternatesList ++ [capitalize v])%list in
  let alternatesList :=
    fold_left (fun l alternate => (l ++ [capitalize alternate])%list)
      initAlternatesList alternatesList in
  set_prop v alternatesList alternatesMap.

(** [addCapitalAlternates(codeList, alternatesMap)]: the object after
    the call.  Reading [alternatesMap[v]] raises when the object is
    undefined. *)
Definition addCapitalAlternates (codeList : list jstring)
    (alternatesMap : option (list (jstring * list jstring)))
  : result (option (list (jstring * list jstring))) :=
  match codeList, alternatesMap with
  | [], _ => Ok alternatesMap
  | v :: _, None => Throw (TypeError (MissingGroup (u "alternatesMap") v))
  | _ :: _, Some object => Ok (Some (fold_left add_capitals codeList object))
  end.

End Capitals.

End Registry.
(** * Vocabulary of the statements *)

Module DetectSpec.
Import Detect.

(** The test of the detector's outer loop. *)
Definition in_brahmic_range (code : N) : bool :=
  (BRAHMIC_FIRST_CODE_POINT <=? code) && (code <=? BRAHMIC_LAST_CODE_POINT).

(** Descending order of the block starts. *)
Fixpoint descending (blocks : list (jstring * N)) : Prop :=
  match blocks with
  | [] => True
  | b :: rest => (forall b', In b' rest -> snd b' <= snd b) /\ descending rest
  end.

End DetectSpec.

Module MakeMapSpec.
Import MakeMap.
Local Open Scope nat_scope.

(** Every key of [letters] and [marks] has its length recorded, and every
    recorded length is the length of a key. *)
Definition recorded (acc : tables) : Prop :=
  (forall tok,
      is_Some (t_letters acc !! tok) \/ is_Some (t_marks acc !! tok) ->
      In (length tok) (t_tokenLengths acc)) /\
  (forall n, In n (t_tokenLengths acc) ->
      exists tok,
        (is_Some (t_letters acc !! tok) \/ is_Some (t_marks acc !! tok)) /\
        length tok = n).

(** [st'] has the keys of [st] and, besides, only keys among [new]. *)
Definition grows (st st' : gmap jstring jstring * gmap jstring jstring)
    (new : list jstring) : Prop :=
  (forall tok, is_Some (fst st !! tok) -> is_Some (fst st' !! tok)) /\
  (forall tok, is_Some (snd st !! tok) -> is_Some (snd st' !! tok)) /\
  (forall tok,
      is_Some (fst st' !! tok) \/ is_Some (snd st' !! tok) ->
      is_Some (fst st !! tok) \/ is_Some (snd st !! tok) \/ In tok new).

(** All the synonyms of a table. *)
Definition synonyms_of (ava : list (jstring * list jstring)) : list jstring :=
  flat_map snd ava.

(** [tok] is a source token of the compiled map. *)
Definition is_token (m : compiled) (tok : jstring) : Prop :=
  is_Some (letters m !! tok) \/ is_Some (marks m !! tok).

(** [tok] is a synonym listed in the [accented_vowel_alternates] of the
    scheme registered as [name]. *)
Definition is_synonym (schemes : gmap jstring scheme) (name : jstring)
    (tok : jstring) : Prop :=
  exists s ava,
    schemes !! name = Some s /\
    accented_vowel_alternates s = Some ava /\
    In tok (synonyms_of ava).

End MakeMapSpec.

Module RomanSpec.
Import MakeMap Options Roman.
Local Open Scope nat_scope.

(** The toggle [##] pushes nothing and is no token of the text. *)
Definition is_toggle (a : action) : bool :=
  match a with
  | Toggle => true
  | _ => false
  end.




(** The token was found in [letters]. *)
Definition matched (a : action) : bool :=
  match a with
  | Match _ _ => true
  | _ => false
  end.









(** The buffer never fills up to [maxTokenLength] at the head of the
    outer loop. *)
Definition buffer_ok (map : compiled) (st : state) : Prop :=
  tokenBuffer st = [] \/
  exists m, maxTokenLength map = Some m /\ length (tokenBuffer st) < m.

(** The number of candidate lengths the inner loop goes through. *)
Fixpoint candidates_tried (map : compiled) (options : gmap string jsval)
    (n : nat) (st : state) : nat :=
  match n with
  | O => O
  | S n' =>
      let token := substr0 n (tokenBuffer st) in
      match sgml_step options st token with
      | None => 1
      | Some sgml =>
          match letters map !! token, truthy_val sgml || toggledTrans st with
          | Some _, false => 1
          | _, _ =>
              S (candidates_tried map options n'
                   {| tokenBuffer := tokenBuffer st;
                      hadConsonant := hadConsonant st;
                      skippingSGML := sgml;
                      toggledTrans := toggledTrans st |})
          end
      end
  end.

(** The candidate an action consumed. *)
Definition action_token (a : action) : jstring :=
  match a with
  | Toggle => u "##"
  | Match tok _ => tok
  | Raw tok _ => tok
  end.

End RomanSpec.

Module DispatcherSpec.
Import MakeMap Options Dispatcher.

(** The options object after the loop over [defaults]: each default key
    holds the value the object had for it, or else the default. *)
Definition merge_defaults (o : gmap string jsval) : gmap string jsval :=
  fold_left
    (fun o d =>
       <[fst d := match o !! fst d with Some v => v | None => snd d end]> o)
    defaults o.

(** The world with the cache emptied. *)
Definition clear_cache (w : world) : world :=
  {| heap := heap w; cache := None |}.

(** The worlds a program reaches, the registry being fixed: it starts
    with an empty cache, calls [t], and may change the option objects it
    owns between the calls. *)
Inductive reachable (schemes : gmap jstring scheme) : world -> Prop :=
  | reach_start h : reachable schemes {| heap := h; cache := None |}
  | reach_call w data from to options :
      reachable schemes w ->
      reachable schemes (fst (t schemes w data from to options))
  | reach_write w h :
      reachable schemes w ->
      reachable schemes {| heap := h; cache := cache w |}.

(** The cached map is the map [makeMap] builds for the cached names. *)
Definition cache_ok (schemes : gmap jstring scheme) (w : world) : Prop :=
  forall c, cache w = Some c ->
            forall o, makeMap schemes (c_from c) (c_to c) o = Ok (c_map c).

End DispatcherSpec.

Module RomanMoreSpec.
Import MakeMap Options Roman RomanSpec.
Local Open Scope nat_scope.


(** The engine without its buffer: every run of the inner loop is on
    the next [maxTokenLength] units of the input, and goes on after the
    token it consumed. *)
Fixpoint window_run (map : compiled) (options : gmap string jsval)
    (fuel : nat) (rest : jstring) (st : state) : list action :=
  match fuel, rest with
  | S fuel', _ :: _ =>
      match
        match_tokens map options (loop_bound map)
          (with_buffer st (firstn (loop_bound map) rest))
      with
      | (Some a, st') =>
          a :: window_run map options fuel'
                 (skipn (length (action_token a)) rest) st'
      | (None, _) => []
      end
  | _, _ => []
  end.

(** The longest prefix of [s], of at most [n] units, that is a key of
    [letters]. *)
Fixpoint longest_key (map : compiled) (n : nat) (s : jstring)
  : option jstring :=
  match n with
  | O => None
  | S n' =>
      if bool_decide (is_Some (letters map !! firstn n s))
      then Some (firstn n s)
      else longest_key map n' s
  end.

(** Tokens by longest match: the longest key, or else one unit. *)
Fixpoint munch (map : compiled) (fuel : nat) (s : jstring)
  : list jstring :=
  match fuel, s with
  | S fuel', c :: s' =>
      match longest_key map (loop_bound map) s with
      | Some tok => tok :: munch map fuel' (skipn (length tok) s)
      | None => [c] :: munch map fuel' s'
      end
  | _, _ => []
  end.

(** The engine is not passing text through: no SGML, no toggled
    region. *)
Definition translating (st : state) : Prop :=
  truthy_val (skippingSGML st) = false /\ toggledTrans st = false.

(** The action is a match exactly when its token is a key of
    [letters], and it is no toggle. *)
Definition by_letters (map : compiled) (a : action) : Prop :=
  is_toggle a = false /\
  matched a = bool_decide (is_Some (letters map !! action_token a)).

End RomanMoreSpec.

Module BrahmicMoreSpec.
Import MakeMap Brahmic.

(** What the loop pushes for a unit other than [#] outside a toggled
    region when no short a is pending: its mark, or its letter, or the
    unit itself. *)
Definition unit_rendering (map : compiled) (L : N) : jstring :=
  match marks map !! [L] with
  | Some temp => temp
  | None =>
      match letters map !! [L] with
      | Some (c :: temp) => c :: temp
      | _ => [L]
      end
  end.

Definition hash : N := 35.

(** The unit is a vowel mark of the source. *)
Definition is_mark (map : compiled) (L : N) : bool :=
  match marks map !! [L] with
  | Some _ => true
  | None => false
  end.

(** The unit is a consonant that a Roman target writes without its
    vowel: it has no mark, a non-empty letter, and is a key of
    [consonants]. *)
Definition bare_consonant (map : compiled) (L : N) : bool :=
  match marks map !! [L] with
  | Some _ => false
  | None =>
      match letters map !! [L] with
      | Some (_ :: _) =>
          toRoman map && bool_decide (is_Some (consonants map !! [L]))
      | _ => false
      end
  end.

(** The short a between a unit and the rest of the input: after a bare
    consonant, unless a vowel mark follows. *)
Definition short_a_before (map : compiled) (pending : bool) (rest : jstring)
  : list jstring :=
  if pending then
    match rest with
    | [] => [schemeA map]
    | L :: _ => if is_mark map L then [] else [schemeA map]
    end
  else [].

(** The reading of an input without [#]. *)
Fixpoint reading (map : compiled) (data : jstring) : list jstring :=
  match data with
  | [] => []
  | L :: rest =>
      (unit_rendering map L
         :: short_a_before map (bare_consonant map L) rest
         ++ reading map rest)%list
  end.

End BrahmicMoreSpec.

Module DispatcherMoreSpec.
Import MakeMap Options Dispatcher DispatcherSpec.

(** The source scheme [t] works with: the one named, or else the one
    detected. *)
Definition source_name (data from : jstring) : jstring :=
  match from with
  | [] => toLowerCase (Detect.detect data)
  | _ :: _ => from
  end.

(** The options [t] works with: the caller's object, or else a new one,
    after the loop over [defaults]. *)
Definition options_read (w : world) (options : option loc)
  : gmap string jsval :=
  merge_defaults
    (default ∅ match options with
               | Some l => heap w !! l
               | None => None
               end).

(** The shortcuts of a registered scheme, none if it has no such group. *)
Definition shortcuts (schemes : gmap jstring scheme) (name : jstring)
  : group :=
  match schemes !! name with
  | Some s => default [] (prop (u "shortcuts") (groups s))
  | None => []
  end.

(** The pairs of schemes for which [t] has nothing to rewrite before
    or after the engine: the source is neither ITRANS nor superscripted
    Tamil, the pair is not IAST to Devanagari, neither scheme has
    shortcuts, and the target is not superscripted Tamil. *)
Definition plain_schemes (schemes : gmap jstring scheme)
    (from to : jstring) : Prop :=
  str_eqb from (u "itrans") = false /\
  str_eqb from tamil_name = false /\
  str_eqb from (u "iast") && str_eqb to (u "devanagari") = false /\
  shortcuts schemes from = [] /\
  shortcuts schemes to = [] /\
  str_eqb to tamil_name = false.



End DispatcherMoreSpec.

Module AudioMoreSpec.
Import Regex Audio.

(** The head of [s] is in the class [p]. *)
Definition starts_with (p : N -> bool) (s : jstring) : bool :=
  match s with
  | c :: _ => p c
  | [] => false
  end.

(** An audio number: digits, then at most one small letter. *)
Definition audio_number (num : jstring) : Prop :=
  exists d ds letter,
    num = (d :: ds ++ letter)%list /\
    digit d = true /\ Forall (fun c => digit c = true) ds /\
    (letter = [] \/ exists c, letter = [c] /\ lower_az c = true).

(** A marker's number and the text up to the next marker: the text has
    no marker, and it does not go on where the number stops. *)
Definition item_ok (it : jstring * jstring) : Prop :=
  ~ In marker (snd it) /\
  ((fst it = [] /\ starts_with digit (snd it) = false) \/
   (audio_number (fst it) /\ starts_with digit_or_az (snd it) = false)).

(** The text with the numbers, and the text without them. *)
Definition with_numbers (head : jstring) (items : list (jstring * jstring))
  : jstring :=
  (head ++ flat_map (fun it => marker :: fst it ++ snd it) items)%list.

Definition without_numbers (head : jstring)
    (items : list (jstring * jstring)) : jstring :=
  (head ++ flat_map (fun it => marker :: snd it) items)%list.

End AudioMoreSpec.

Module RegistrySpec.
Import Registry.

(** The mark of a vowel, as [addRomanScheme] reads it. *)
Definition mark_of (devanagariVowelToMarks : group) (key : jstring)
  : jstring :=
  default (u "undefined") (prop key devanagariVowelToMarks).

(** The marks and renderings of the vowels other than the short a. *)
Definition marks_of_vowels (devanagariVowelToMarks : group) (vowels : group)
  : group :=
  flat_map
    (fun entry =>
       if str_eqb (fst entry) key_a then []
       else [(mark_of devanagariVowelToMarks (fst entry), snd entry)])
    vowels.

(** The capital forms [addCapitalAlternates] adds for a code. *)
Definition capitals (toUpperCase : N -> jstring) (v : jstring)
    (init : list jstring) : list jstring :=
  (capitalize toUpperCase v :: List.map (capitalize toUpperCase) init)%list.

(** The scheme has a [vowel_marks] group. *)
Definition has_marks (s : scheme) : Prop :=
  is_Some (prop (u "vowel_marks") (groups s)).

(** The vowel marks [addRomanScheme] derives for a scheme: under the
    mark of each vowel other than the short a, the rendering of the
    vowel; of two vowels with one mark the later one stays. *)
Definition derived (devanagariVowelToMarks : group) (s : scheme)
    (marks : group) : Prop :=
  exists vowels,
    prop (u "vowels") (groups s) = Some vowels /\
    forall mark,
      prop mark marks
      = prop mark (rev (marks_of_vowels devanagariVowelToMarks vowels)).

(** What a scheme object keeps of an earlier state: its flag, its
    alternates and every group other than [vowel_marks]; the object is
    as it was when it had [vowel_marks] or is not Roman, and the
    [vowel_marks] it has got since are the derived ones. *)
Definition keeps (devanagariVowelToMarks : group) (st st' : store) : Prop :=
  forall l s,
    objects st !! l = Some s ->
    exists s',
      objects st' !! l = Some s' /\
      isRomanScheme s' = isRomanScheme s /\
      alternates s' = alternates s /\
      accented_vowel_alternates s' = accented_vowel_alternates s /\
      (forall g, g <> u "vowel_marks" ->
                 prop g (groups s') = prop g (groups s)) /\
      (has_marks s \/ isRomanScheme s = false -> s' = s) /\
      (prop (u "vowel_marks") (groups s) = None ->
       forall marks,
         prop (u "vowel_marks") (groups s') = Some marks ->
         derived devanagariVowelToMarks s marks).

(** The fragment of Harvard-Kyoto as its author writes it, without
    [vowel_marks], in a store that holds nothing else; and the marks of
    the Devanagari vowels. *)
Definition hk_written : scheme :=
  with_groups Demo.hk (firstn 4 (groups Demo.hk)).

Definition store_of (s : scheme) : store :=
  {| objects := {[ 1%nat := s ]}; schemes := []; romanSchemes := ∅ |}.

Definition vowel_to_marks : group :=
  [([0x906], [0x93e]); ([0x907], [0x93f])].

End RegistrySpec.

Module AksaraSpec.
Import Regex Aksara AudioMoreSpec.

(** The units at which [RE_AKSARA_PUNC_NUM] can match: the marker, the
    punctuation, the bar and the digits. *)
Definition punc_start (c : N) : bool :=
  one_of (marker :: u ",?!:") c || N.eqb c bar || digit c.

(** The texts [RE_AKSARA_PUNC_NUM] takes whole: one mark, bars, bars and
    a number, or a number. *)
Inductive punc_ok : jstring -> Prop :=
  | punc_mark c :
      one_of (marker :: u ",?!:") c = true -> punc_ok [c]
  | punc_bars n : punc_ok (repeat bar (S n))
  | punc_bars_num n d tail :
      digit d = true ->
      Forall (fun c => punc_class bar c = true) tail ->
      punc_ok (repeat bar (S n) ++ d :: tail)
  | punc_num d tail :
      digit d = true ->
      Forall (fun c => punc_class d c = true) tail ->
      punc_ok (d :: tail).

(** The text after a run of bars or a number does not go on in the
    class the loop of [splitAksara] extends it with. *)
Definition stops_before (punc : jstring) (text : jstring) : Prop :=
  match punc with
  | c :: _ =>
      if N.eqb c bar || digit c
      then starts_with (punc_class c) text = false
      else True
  | [] => True
  end.

(** The text of a list of items, each a punctuation or number and the
    sentence after it. *)
Definition text_of (items : list (jstring * jstring)) : jstring :=
  flat_map (fun it => fst it ++ snd it)%list items.

(** The items are what the expression and the loop both see. *)
Fixpoint aligned (items : list (jstring * jstring)) : Prop :=
  match items with
  | [] => True
  | (punc, sentence) :: rest =>
      punc_ok punc /\
      Forall (fun c => punc_start c = false) sentence /\
      stops_before punc (sentence ++ text_of rest) /\
      aligned rest
  end.

(** The syllables of a sentence, as the inner function pushes them. *)
Definition syllables (sentence : jstring) : list jstring :=
  default [] (split_syllables (length sentence) sentence).

(** What [splitAksara] returns on the text of a head and items. *)
Definition items_of (head : jstring) (items : list (jstring * jstring))
  : list jstring :=
  (syllables head
   ++ flat_map (fun it => fst it :: syllables (snd it)) items)%list.

(** The item is a number or begins with punctuation. *)
Definition ends_word (item : jstring) : bool :=
  test RE_AKSARA_TYPE_NUM item || test RE_AKSARA_TYPE_PUNC item.

(** The characters [getAksaraType] returns. *)
Definition type_char (c : N) : bool := one_of (u " unp012456") c.

End AksaraSpec.

Module MakeMapMoreSpec.
Import MakeMap.

(** In the tables of the loop, the keys of [consonants] and of
    [accents] are keys of [letters]. *)
Definition within_letters (acc : tables) : Prop :=
  (forall tok, is_Some (t_consonants acc !! tok) ->
               is_Some (t_letters acc !! tok)) /\
  (forall tok, is_Some (t_accents acc !! tok) ->
               is_Some (t_letters acc !! tok)).

(** The tokens are keys of [consonants]. *)
Definition holds (tokens : list jstring) (acc : tables) : Prop :=
  forall tok, In tok tokens -> is_Some (t_consonants acc !! tok).

(** The tokens are keys of [marks]. *)
Definition marked (tokens : list jstring) (acc : tables) : Prop :=
  forall tok, In tok tokens -> is_Some (t_marks acc !! tok).

End MakeMapMoreSpec.

Module RomanReadingSpec.
Import MakeMap.

(** The map with room for tokens of seven units, as a scheme with a
    key of that length gives it. *)
Definition long_tokens (map : compiled) : compiled :=
  {| consonants := consonants map;
     accents := accents map;
     fromRoman := fromRoman map;
     letters := letters map;
     marks := marks map;
     maxTokenLength := Some 7%nat;
     toRoman := toRoman map;
     virama := virama map;
     toSchemeA := toSchemeA map;
     fromSchemeA := fromSchemeA map;
     from := from map;
     to := to map |}.

End RomanReadingSpec.
(** * Proofs *)

(** ** Strings *)

Module JSFacts.

Lemma str_eqb_spec a b : str_eqb a b = true <-> a = b.
Proof.
  revert b; induction a as [|x a IH]; intros [|y b]; simpl; try easy.
  rewrite andb_true_iff, N.eqb_eq, IH. split.
  - intros [-> ->]; reflexivity.
  - intros [= -> ->]; auto.
Qed.

End JSFacts.

(** ** Facts about the detector *)

Module DetectFacts.
Import Regex Detect DetectSpec.


Lemma find_block_first code blocks name :
  descending blocks ->
  find_block code blocks = Some name ->
  exists start, In (name, start) blocks /\ start <= code /\
    forall b', In b' blocks -> snd b' <= code -> snd b' <= start.
Proof.
  induction blocks as [|[n s] rest IH]; simpl; [discriminate|].
  intros [Hhd Hdesc]. destruct (N.leb_spec s code) as [Hle|Hgt].
  - intros [= <-]. exists s. split; [now left|]. split; [exact Hle|].
    intros b' [<-|Hin] _; simpl; [lia|]. apply (Hhd b' Hin).
  - intros Hfind. destruct (IH Hdesc Hfind) as (start & Hin & Hle & Hmax).
    exists start. split; [now right|]. split; [exact Hle|].
    intros b' [<-|Hin'] Hb'; simpl in *; [lia|]. now apply Hmax.
Qed.

Lemma find_block_none code blocks :
  find_block code blocks = None -> forall b, In b blocks -> code < snd b.
Proof.
  induction blocks as [|[n s] rest IH]; simpl; [tauto|].
  destruct (N.leb_spec s code); [discriminate|].
  intros Hnone b [<-|Hin]; simpl; [lia|]. now apply IH.
Qed.

Lemma BLOCKS_descending : descending BLOCKS.
Proof.
  vm_compute. repeat split; intros b' Hin;
    repeat (destruct Hin as [<-|Hin]; [vm_compute; discriminate|]);
    destruct Hin.
Qed.

Lemma BLOCKS_of_SCHEMES name start :
  In (name, start) BLOCKS <-> In (name, Some start) SCHEMES.
Proof.
  split.
  - intros Hin. vm_compute in Hin.
    repeat (destruct Hin as [[= <- <-]|Hin]; [vm_compute; tauto|]).
    destruct Hin.
  - intros Hin. vm_compute in Hin.
    repeat (destruct Hin as [Heq|Hin];
            [first [discriminate Heq | injection Heq as <- <-; vm_compute; tauto]|]).
    destruct Hin.
Qed.

Lemma find_block_in_range code :
  in_brahmic_range code = true -> exists name, find_block code BLOCKS = Some name.
Proof.
  unfold in_brahmic_range. intros [Hlo _]%andb_true_iff.
  destruct (find_block code BLOCKS) as [name|] eqn:Hfind; [eauto|].
  pose proof (find_block_none _ _ Hfind (u "Devanagari", 0x900)) as Hlt.
  assert (Hin : In (u "Devanagari", 0x900) BLOCKS) by (vm_compute; tauto).
  specialize (Hlt Hin). simpl in Hlt.
  apply N.leb_le in Hlo. unfold BRAHMIC_FIRST_CODE_POINT in Hlo. lia.
Qed.

Lemma scan_brahmic_first pre code post :
  Forall (fun c => in_brahmic_range c = false) pre ->
  in_brahmic_range code = true ->
  scan_brahmic (pre ++ code :: post) = find_block code BLOCKS.
Proof.
  intros Hpre Hcode. induction Hpre as [|c pre Hc _ IH]; cbn [scan_brahmic app].
  - unfold in_brahmic_range in Hcode. rewrite Hcode.
    destruct (find_block_in_range code Hcode) as [name ->]. reflexivity.
  - unfold in_brahmic_range in Hc. rewrite Hc. exact IH.
Qed.

Lemma scan_brahmic_none text :
  Forall (fun c => in_brahmic_range c = false) text -> scan_brahmic text = None.
Proof.
  induction 1 as [|c text Hc _ IH]; cbn [scan_brahmic]; [reflexivity|].
  unfold in_brahmic_range in Hc. now rewrite Hc.
Qed.

Lemma scan_brahmic_name text name :
  scan_brahmic text = Some name -> In name (map fst SCHEMES).
Proof.
  induction text as [|c text IH]; cbn [scan_brahmic]; [discriminate|].
  destruct (_ && _); [|exact IH].
  destruct (find_block c BLOCKS) as [n|] eqn:Hfind; [|exact IH].
  intros [= <-].
  destruct (find_block_first _ _ _ BLOCKS_descending Hfind) as (start & Hin & _).
  exact (in_map fst _ _ (proj1 (BLOCKS_of_SCHEMES n start) Hin)).
Qed.

Lemma detect_roman_name text : In (detect_roman text) (map fst SCHEMES).
Proof.
  unfold detect_roman.
  repeat match goal with |- context [if ?b then _ else _] => destruct b end;
    vm_compute; tauto.
Qed.

(** C5.  [detect] returns, at the first code unit in 0x0900..0x0D7F, the
    name of the enumerated block with the greatest start at or below that
    unit; without such a unit it is the cascade over the romanizations
    in the order of the source, whose last case is HK; the result is
    always one of the enumerated names; and the four documented examples
    evaluate as stated. *)
Theorem detect_spec :
  (forall pre code post,
      Forall (fun c => in_brahmic_range c = false) pre ->
      in_brahmic_range code = true ->
      exists name start,
        In (name, Some start) SCHEMES /\ start <= code /\
        (forall name' start',
            In (name', Some start') SCHEMES -> start' <= code ->
            start' <= start) /\
        detect (pre ++ code :: post) = name) /\
  (forall text,
      Forall (fun c => in_brahmic_range c = false) text ->
      detect text =
        if test RE_IAST_OR_KOLKATA_ONLY text then
          if test RE_KOLKATA_ONLY text then u "Kolkata" else u "IAST"
        else if test RE_ITRANS_ONLY text then u "ITRANS"
        else if test RE_SLP1_ONLY text then u "SLP1"
        else if test RE_VELTHUIS_ONLY text then u "Velthuis"
        else if test RE_ITRANS_OR_VELTHUIS_ONLY text then u "ITRANS"
        else u "HK") /\
  (forall text, In (detect text) (map fst SCHEMES)) /\
  detect [0x927; 0x930; 0x94D; 0x92E] = u "Devanagari" /\
  detect (u "dharma") = u "HK" /\
  detect (u "dharma" ++ [0x1e25]) = u "IAST" /\
  detect (u ".a") = u "ITRANS".
Proof.
  split; [|split; [|split]].
  - intros pre code post Hpre Hcode.
    destruct (find_block_in_range code Hcode) as [name Hfind].
    destruct (find_block_first _ _ _ BLOCKS_descending Hfind)
      as (start & Hin & Hle & Hmax).
    exists name, start.
    split; [exact (proj1 (BLOCKS_of_SCHEMES name start) Hin)|].
    split; [exact Hle|]. split.
    + intros name' start' Hin' Hle'.
      exact (Hmax _ (proj2 (BLOCKS_of_SCHEMES name' start') Hin') Hle').
    + unfold detect. now rewrite scan_brahmic_first, Hfind.
  - intros text Hout. unfold detect. rewrite (scan_brahmic_none _ Hout).
    reflexivity.
  - intros text. unfold detect.
    destruct (scan_brahmic text) as [name|] eqn:Hscan.
    + exact (scan_brahmic_name _ _ Hscan).
    + apply detect_roman_name.
  - repeat split; vm_compute; reflexivity.
Qed.

End DetectFacts.

(** ** Facts about the map compiler *)

Module MakeMapFacts.
Import MakeMap MakeMapSpec.
Local Open Scope nat_scope.

(** *** The maximum of the recorded lengths *)

Lemma fold_max_ge l x : x ≤ fold_left Nat.max l x.
Proof.
  revert x; induction l as [|y l IH]; intros x; simpl; [lia|].
  specialize (IH (Nat.max x y)). lia.
Qed.

Lemma fold_max_upper l x y : In y l -> y ≤ fold_left Nat.max l x.
Proof.
  revert x; induction l as [|z l IH]; intros x; simpl; [tauto|].
  intros [->|Hin].
  - pose proof (fold_max_ge l (Nat.max x y)). lia.
  - now apply IH.
Qed.

Lemma fold_max_in l x : fold_left Nat.max l x = x \/ In (fold_left Nat.max l x) l.
Proof.
  revert x; induction l as [|z l IH]; intros x; simpl; [now left|].
  destruct (IH (Nat.max x z)) as [Heq|Hin]; [|now right; right].
  rewrite Heq. destruct (Nat.max_spec x z) as [[_ ->]|[_ ->]]; auto.
Qed.

Lemma math_max_Some l n :
  math_max l = Some n -> In n l /\ forall x, In x l -> x ≤ n.
Proof.
  destruct l as [|x l]; simpl; [discriminate|]. intros [= <-]. split.
  - destruct (fold_max_in l x) as [->|Hin]; auto.
  - intros y [<-|Hin]; [apply fold_max_ge | now apply fold_max_upper].
Qed.

Lemma math_max_None l : math_max l = None -> l = [].
Proof. destruct l; [reflexivity | discriminate]. Qed.

(** *** Keys of the tables after the loop over the groups *)

Lemma set_all_lookup (tokens : list jstring) (T : jstring)
    (m : gmap jstring jstring) (tok : jstring) :
  is_Some (set_all tokens T m !! tok) <-> In tok tokens \/ is_Some (m !! tok).
Proof.
  unfold set_all. revert m; induction tokens as [|x tokens IH]; intros m; simpl.
  - tauto.
  - rewrite IH, lookup_insert_is_Some. split.
    + intros [?|[->|[_ ?]]]; auto.
    + intros [[->|?]|?]; auto.
      destruct (decide (x = tok)) as [->|Hne]; auto.
Qed.

Lemma recorded_empty : recorded empty_tables.
Proof.
  split; simpl.
  - intros tok [[x Hx]|[x Hx]]; rewrite lookup_empty in Hx; discriminate.
  - tauto.
Qed.

Lemma add_entry_recorded alternates group toGroup acc entry :
  recorded acc -> recorded (add_entry alternates group toGroup acc entry).
Proof.
  intros [Hkeys Hlens]. destruct entry as [key F]. unfold add_entry.
  destruct (prop key toGroup) as [T0|]; [|now split].
  set (T := if _ && _ then F else T0).
  set (tokens := F :: default [] (prop F alternates)).
  destruct (str_eqb group (u "vowel_marks") || str_eqb group (u "virama"));
    split; cbn [t_letters t_marks t_tokenLengths].
  - intros tok Htok. rewrite in_app_iff, in_map_iff.
    rewrite set_all_lookup in Htok.
    destruct Htok as [Hl|[Hin|Hm]]; eauto.
  - intros n. rewrite in_app_iff, in_map_iff.
    intros [Hn|(tok & <- & Hin)].
    + destruct (Hlens n Hn) as (tok & Htok & Hlen). exists tok.
      split; [|exact Hlen]. rewrite set_all_lookup. tauto.
    + exists tok. split; [|reflexivity]. rewrite set_all_lookup. tauto.
  - intros tok Htok. rewrite in_app_iff, in_map_iff.
    rewrite set_all_lookup in Htok.
    destruct Htok as [[Hin|Hl]|Hm]; eauto.
  - intros n. rewrite in_app_iff, in_map_iff.
    intros [Hn|(tok & <- & Hin)].
    + destruct (Hlens n Hn) as (tok & Htok & Hlen). exists tok.
      split; [|exact Hlen]. rewrite set_all_lookup. tauto.
    + exists tok. split; [|reflexivity]. rewrite set_all_lookup. tauto.
Qed.

Lemma fold_entries_recorded alternates group toGroup entries acc :
  recorded acc ->
  recorded (fold_left (add_entry alternates group toGroup) entries acc).
Proof.
  revert acc; induction entries as [|e entries IH]; intros acc Hacc; simpl;
    [exact Hacc|].
  apply IH, add_entry_recorded, Hacc.
Qed.

Lemma add_group_recorded alternates toScheme acc g :
  recorded acc -> recorded (add_group alternates toScheme acc g).
Proof.
  intros Hacc. destruct g as [group fromGroup]. unfold add_group.
  destruct (includes_str _ group); [exact Hacc|].
  destruct (prop group (groups toScheme)); [|exact Hacc].
  now apply fold_entries_recorded.
Qed.

Lemma group_tables_recorded fromScheme toScheme :
  recorded (group_tables fromScheme toScheme).
Proof.
  unfold group_tables.
  generalize (groups fromScheme), recorded_empty.
  generalize empty_tables.
  intros acc gs; revert acc; induction gs as [|g gs IH]; intros acc Hacc;
    simpl; [exact Hacc|].
  apply IH, add_group_recorded, Hacc.
Qed.

(** *** The loop over the accented vowels *)

Lemma grows_refl st : grows st st [].
Proof. repeat split; auto. tauto. Qed.

Lemma grows_trans st1 st2 st3 new1 new2 :
  grows st1 st2 new1 -> grows st2 st3 new2 -> grows st1 st3 (new1 ++ new2).
Proof.
  intros (Ha1 & Hb1 & Hc1) (Ha2 & Hb2 & Hc2). repeat split; auto.
  intros tok Htok. rewrite in_app_iff.
  destruct (Hc2 tok Htok) as [H|[H|H]]; auto;
    (destruct (Hc1 tok) as [H'|[H'|H']]; auto).
Qed.

Lemma add_synonym_Ok accents base st syn st' :
  add_synonym accents base st syn = Ok st' -> grows st st' [syn].
Proof.
  destruct st as [marks letters]. unfold add_synonym.
  destruct (letters !! removelast base) as [l|]; [|discriminate].
  intros [= <-]. repeat split; cbn [fst snd].
  - intros tok H. rewrite lookup_insert_is_Some.
    destruct (decide (syn = tok)); auto.
  - intros tok H. rewrite lookup_insert_is_Some.
    destruct (decide (syn = tok)); auto.
  - intros tok. rewrite !lookup_insert_is_Some. simpl.
    intros [[->|[_ H]]|[->|[_ H]]]; auto.
Qed.

Lemma add_synonym_Throw accents base st syn e :
  add_synonym accents base st syn = Throw e ->
  snd st !! removelast base = None /\
  e = TypeError (MissingBaseVowel (removelast base)).
Proof.
  destruct st as [marks letters]. unfold add_synonym. cbn [snd].
  destruct (letters !! removelast base); [discriminate|].
  now intros [= <-].
Qed.

Lemma add_synonyms_Ok accents base syns st st' :
  add_synonyms accents base syns st = Ok st' -> grows st st' syns.
Proof.
  revert st; induction syns as [|syn syns IH]; intros st; simpl.
  - intros [= <-]. apply grows_refl.
  - destruct (add_synonym accents base st syn) as [st1|e] eqn:H1;
      [|discriminate]. simpl. intros H2.
    apply (grows_trans _ _ _ [syn] syns (add_synonym_Ok _ _ _ _ _ H1)).
    now apply IH.
Qed.

Lemma add_synonyms_Throw accents base syns st e :
  add_synonyms accents base syns st = Throw e ->
  syns <> [] /\ snd st !! removelast base = None /\
  e = TypeError (MissingBaseVowel (removelast base)).
Proof.
  revert st; induction syns as [|syn syns IH]; intros st; simpl;
    [discriminate|].
  destruct (add_synonym accents base st syn) as [st1|e1] eqn:H1; simpl.
  - intros H2. destruct (IH _ H2) as (_ & Hnone & ->).
    split; [discriminate|]. split; [|reflexivity].
    destruct (add_synonym_Ok _ _ _ _ _ H1) as (_ & Hb & _).
    destruct (snd st !! removelast base) eqn:Hst; [|reflexivity].
    destruct (Hb (removelast base)) as [x Hx]; [eauto|]. congruence.
  - intros [= <-]. split; [discriminate|]. eapply add_synonym_Throw, H1.
Qed.

Lemma add_synonyms_present accents base syns st :
  is_Some (snd st !! removelast base) ->
  exists st', add_synonyms accents base syns st = Ok st'.
Proof.
  intros Hbase.
  destruct (add_synonyms accents base syns st) as [st'|e] eqn:H; [eauto|].
  destruct (add_synonyms_Throw _ _ _ _ _ H) as (_ & Hnone & _).
  rewrite Hnone in Hbase. now destruct Hbase.
Qed.

Lemma add_accented_Ok accents ava st st' :
  add_accented accents ava st = Ok st' -> grows st st' (synonyms_of ava).
Proof.
  revert st; induction ava as [|[base syns] ava IH]; intros st; simpl.
  - intros [= <-]. apply grows_refl.
  - destruct (add_synonyms accents base syns st) as [st1|e] eqn:H1;
      [|discriminate]. simpl. intros H2.
    apply (grows_trans _ _ _ syns _ (add_synonyms_Ok _ _ _ _ _ H1)).
    now apply IH.
Qed.




(** *** Errors of [makeMap] *)






End MakeMapFacts.

(** ** Facts about the Roman engine *)

Module RomanFacts.
Import MakeMap MakeMapSpec MakeMapFacts Options Roman RomanSpec.
Local Open Scope nat_scope.

Section Engine.
Variable map : compiled.
Variable options : gmap string jsval.

Lemma sgml_step_None st token :
  sgml_step options st token = None -> token = u "##".
Proof.
  unfold sgml_step.
  destruct (strict_eqb _ _); [discriminate|].
  destruct (str_eqb token (u "<")); [discriminate|].
  destruct (str_eqb token (u "##")) eqn:H; [|discriminate].
  intros _. revert H. apply JSFacts.str_eqb_spec.
Qed.

(** What one run of the inner loop can do. *)
Lemma match_tokens_cases n st a st' :
  match_tokens map options n st = (a, st') ->
  (n = 0 /\ a = None /\ st' = st) \/
  exists k tok,
    1 ≤ k ≤ n /\ tok = firstn k (tokenBuffer st) /\
    ((a = Some Toggle /\ tok = u "##" /\
      tokenBuffer st' = skipn 2 (tokenBuffer st) /\
      hadConsonant st' = hadConsonant st) \/
     (exists tempLetter,
         a = Some (Match tok (emit_match map (hadConsonant st) tok tempLetter)) /\
         letters map !! tok = Some tempLetter /\
         tokenBuffer st' = skipn k (tokenBuffer st) /\
         hadConsonant st' =
           (if toRoman map then hadConsonant st
            else bool_decide (is_Some (consonants map !! tok)))) \/
     (k = 1 /\
      a = Some (Raw tok (emit_raw options (hadConsonant st) tok)) /\
      tokenBuffer st' = skipn 1 (tokenBuffer st) /\
      hadConsonant st' = false)).
Proof.
  revert st; induction n as [|n IH]; intros st; cbn [match_tokens].
  - intros [= <- <-]. now left.
  - intros H. right. unfold substr0, substr_from in H.
    destruct (sgml_step options st (firstn (S n) (tokenBuffer st)))
      as [sgml|] eqn:Hsgml.
    + destruct (letters map !! firstn (S n) (tokenBuffer st))
        as [tempLetter|] eqn:Hlet.
      * destruct (truthy_val sgml || toggledTrans st) eqn:Hskip.
        -- destruct n as [|n'].
           ++ injection H as <- <-. exists 1, (firstn 1 (tokenBuffer st)).
              split; [lia|]. split; [reflexivity|]. right; right. auto.
           ++ destruct (IH _ H) as [(Hn & _)|(k & tok & Hk & Htok & Hcase)];
                [discriminate|].
              cbn [tokenBuffer hadConsonant] in Htok, Hcase.
              exists k, tok. split; [lia|]. split; [exact Htok|exact Hcase].
        -- injection H as <- <-.
           exists (S n), (firstn (S n) (tokenBuffer st)).
           split; [lia|]. split; [reflexivity|]. right; left.
           exists tempLetter. auto.
      * destruct n as [|n'].
        -- assert (H' : (Some (Raw (firstn 1 (tokenBuffer st))
                             (emit_raw options (hadConsonant st)
                                (firstn 1 (tokenBuffer st)))),
                         {| tokenBuffer := skipn 1 (tokenBuffer st);
                            hadConsonant := false;
                            skippingSGML := sgml;
                            toggledTrans := toggledTrans st |}) = (a, st'))
             by (destruct (truthy_val sgml || toggledTrans st); exact H).
           injection H' as <- <-. exists 1, (firstn 1 (tokenBuffer st)).
           split; [lia|]. split; [reflexivity|]. right; right. auto.
        -- assert (H' : match_tokens map options (S n')
                          {| tokenBuffer := tokenBuffer st;
                             hadConsonant := hadConsonant st;
                             skippingSGML := sgml;
                             toggledTrans := toggledTrans st |} = (a, st'))
             by (destruct (truthy_val sgml || toggledTrans st); exact H).
           destruct (IH _ H') as [(Hn & _)|(k & tok & Hk & Htok & Hcase)];
             [discriminate|].
           cbn [tokenBuffer hadConsonant] in Htok, Hcase.
           exists k, tok. split; [lia|]. split; [exact Htok|exact Hcase].
    + injection H as <- <-.
      exists (S n), (firstn (S n) (tokenBuffer st)).
      split; [lia|]. split; [reflexivity|]. left.
      split; [reflexivity|]. split; [|auto].
      eapply sgml_step_None, Hsgml.
Qed.

(** A run of the inner loop on a non-empty buffer consumes from it. *)
Lemma match_tokens_consumes n st a st' :
  match_tokens map options n st = (a, st') ->
  1 ≤ n -> tokenBuffer st <> [] ->
  a <> None /\ length (tokenBuffer st') < length (tokenBuffer st).
Proof.
  intros H Hn Hbuf.
  destruct (match_tokens_cases _ _ _ _ H)
    as [(-> & _)|(k & tok & Hk & Htok & Hcase)]; [lia|].
  assert (Hlen : 0 < length (tokenBuffer st))
    by (destruct (tokenBuffer st); [congruence | simpl; lia]).
  destruct Hcase as [(-> & Heq & -> & _)|[(tl & -> & _ & -> & _)|(_ & -> & -> & _)]];
    (split; [discriminate|]); rewrite length_skipn; lia.
Qed.


(** *** Termination of the outer loop *)

Lemma outer_loop_terminates fuel rest st :
  buffer_ok map st ->
  2 * length rest + length (tokenBuffer st) < fuel ->
  exists run, outer_loop map options fuel rest st = Some run.
Proof.
  revert rest st; induction fuel as [|fuel IH]; intros rest st Hok Hfuel;
    [lia|].
  cbn [outer_loop].
  destruct rest as [|L rest].
  - destruct (tokenBuffer st) as [|c b] eqn:Hbuf; [eauto|].
    destruct Hok as [Hnil|(m & Hmax & Hlt)]; [congruence|].
    unfold loop_bound. rewrite Hmax. cbn [tail].
    destruct (match_tokens map options m st) as [a st2] eqn:Hmt.
    destruct (match_tokens_consumes _ _ _ _ Hmt) as [_ Hshort];
      [rewrite Hbuf in Hlt; simpl in Hlt; lia | congruence |].
    destruct (IH [] st2) as [[l st3] ->]; [| |eauto].
    + right. exists m. split; [exact Hmax|]. rewrite Hbuf in *. lia.
    + rewrite Hbuf in *. simpl in *. lia.
  - assert (Hgo : exists run,
               match
                 (if room map (tokenBuffer st)
                  then Some (with_buffer st (tokenBuffer st ++ [L]))
                  else None)
               with
               | Some st1 =>
                   if room_after_fill map (tokenBuffer st)
                   then outer_loop map options fuel (tail (L :: rest)) st1
                   else
                     let '(a, st2) :=
                       match_tokens map options (loop_bound map) st1 in
                     match outer_loop map options fuel (tail (L :: rest)) st2 with
                     | Some (l, st3) => Some (cons_action a l, st3)
                     | None => None
                     end
               | None =>
                   let '(a, st2) :=
                     match_tokens map options (loop_bound map) st in
                   match outer_loop map options fuel (tail (L :: rest)) st2 with
                   | Some (l, st3) => Some (cons_action a l, st3)
                   | None => None
                   end
               end = Some run).
    { cbn [tail]. simpl in Hfuel. unfold room, room_after_fill, loop_bound.
      destruct (maxTokenLength map) as [m|] eqn:Hmax.
      - destruct (Nat.ltb_spec (length (tokenBuffer st)) m) as [Hlt|Hge].
        + destruct (Nat.ltb_spec (S (length (tokenBuffer st))) m) as [Hlt2|Hge2].
          * apply IH.
            -- right. exists m. split; [exact Hmax|].
               cbn [with_buffer tokenBuffer]. rewrite length_app. simpl. lia.
            -- cbn [with_buffer tokenBuffer]. rewrite length_app. simpl. lia.
          * destruct (match_tokens map options m
                        (with_buffer st (tokenBuffer st ++ [L])))
              as [a st2] eqn:Hmt.
            destruct (match_tokens_consumes _ _ _ _ Hmt) as [_ Hshort];
              [lia | cbn [with_buffer tokenBuffer];
                     now destruct (tokenBuffer st) |].
            cbn [with_buffer tokenBuffer] in Hshort.
            rewrite length_app in Hshort. simpl in Hshort.
            destruct (IH rest st2) as [[l st3] ->]; [| |eauto].
            -- right. exists m. split; [exact Hmax|]. lia.
            -- lia.
        + destruct Hok as [Hnil|(m' & Hm' & Hlt')];
            [|rewrite Hmax in Hm'; injection Hm' as <-; lia].
          rewrite Hnil in Hge. simpl in Hge. assert (m = 0) as -> by lia.
          cbn [match_tokens].
          destruct (IH rest st) as [[l st3] ->]; [now left | lia | eauto].
      - destruct Hok as [Hnil|(m' & Hm' & _)]; [|congruence].
        cbn [match_tokens].
        destruct (IH rest st) as [[l st3] ->]; [now left | lia | eauto]. }
    destruct (tokenBuffer st); exact Hgo.
Qed.

Lemma outer_loop_more_fuel fuel rest st run :
  outer_loop map options fuel rest st = Some run ->
  outer_loop map options (S fuel) rest st = Some run.
Proof.
  revert rest st run; induction fuel as [|fuel IH]; intros rest st run;
    [discriminate|].
  intros H. cbn [outer_loop] in H.
  remember (S fuel) as fuel1 eqn:Hfuel1. cbn [outer_loop]. subst fuel1.
  assert (Hstep : forall a r s,
             match outer_loop map options fuel r s with
             | Some (l, st3) => Some (cons_action a l, st3)
             | None => None
             end = Some run ->
             match outer_loop map options (S fuel) r s with
             | Some (l, st3) => Some (cons_action a l, st3)
             | None => None
             end = Some run).
  { intros a r s Hrs.
    destruct (outer_loop map options fuel r s) as [[l st3]|] eqn:E;
      [|discriminate].
    now rewrite (IH _ _ _ E). }
  destruct rest as [|L rest], (tokenBuffer st) as [|c b]; try exact H;
    cbn [tail] in *;
    repeat match type of H with
      | context [if ?b then _ else _] => destruct b
      | context [let '(_, _) := ?x in _] => destruct x as [a st2]
      end;
    first [apply Hstep; exact H | apply IH; exact H].
Qed.

Lemma outer_loop_fuel_stable fuel fuel' rest st run :
  outer_loop map options fuel rest st = Some run ->
  fuel ≤ fuel' ->
  outer_loop map options fuel' rest st = Some run.
Proof.
  intros H Hle. induction Hle as [|fuel' _ IH]; [exact H|].
  now apply outer_loop_more_fuel.
Qed.


(** *** One turn of the outer loop *)

(** A turn that returns ends the loop, or only fills the buffer, or runs
    the inner loop on a buffer that is not empty (unless the inner loop
    has no turn at all). *)
Lemma outer_loop_turn fuel rest st run :
  outer_loop map options (S fuel) rest st = Some run ->
  (rest = [] /\ tokenBuffer st = [] /\ run = ([], st)) \/
  (exists st1,
      hadConsonant st1 = hadConsonant st /\
      outer_loop map options fuel (tail rest) st1 = Some run) \/
  (exists st1 a st2 l st3,
      hadConsonant st1 = hadConsonant st /\
      (tokenBuffer st1 <> [] \/ loop_bound map = 0) /\
      match_tokens map options (loop_bound map) st1 = (a, st2) /\
      outer_loop map options fuel (tail rest) st2 = Some (l, st3) /\
      run = (cons_action a l, st3)).
Proof.
  cbn [outer_loop].
  assert (Hstep : forall st1,
             hadConsonant st1 = hadConsonant st ->
             tokenBuffer st1 <> [] \/ loop_bound map = 0 ->
             (let '(a, st2) := match_tokens map options (loop_bound map) st1 in
              match outer_loop map options fuel (tail rest) st2 with
              | Some (l, st3) => Some (cons_action a l, st3)
              | None => None
              end) = Some run ->
             exists st1 a st2 l st3,
               hadConsonant st1 = hadConsonant st /\
               (tokenBuffer st1 <> [] \/ loop_bound map = 0) /\
               match_tokens map options (loop_bound map) st1 = (a, st2) /\
               outer_loop map options fuel (tail rest) st2 = Some (l, st3) /\
               run = (cons_action a l, st3)).
  { intros st1 Hhad Hne.
    destruct (match_tokens map options (loop_bound map) st1) as [a st2] eqn:Hmt.
    destruct (outer_loop map options fuel (tail rest) st2) as [[l st3]|] eqn:Hrec;
      [|discriminate].
    intros [= <-]. exists st1, a, st2, l, st3. auto. }
  assert (Hgo :
      match
        match rest with
        | L :: _ =>
            if room map (tokenBuffer st)
            then Some (with_buffer st (tokenBuffer st ++ [L]))
            else None
        | [] => None
        end
      with
      | Some st1 =>
          if room_after_fill map (tokenBuffer st)
          then outer_loop map options fuel (tail rest) st1
          else
            let '(a, st2) := match_tokens map options (loop_bound map) st1 in
            match outer_loop map options fuel (tail rest) st2 with
            | Some (l, st3) => Some (cons_action a l, st3)
            | None => None
            end
      | None =>
          let '(a, st2) := match_tokens map options (loop_bound map) st in
          match outer_loop map options fuel (tail rest) st2 with
          | Some (l, st3) => Some (cons_action a l, st3)
          | None => None
          end
      end = Some run ->
      (rest <> [] \/ tokenBuffer st <> []) ->
      (exists st1,
          hadConsonant st1 = hadConsonant st /\
          outer_loop map options fuel (tail rest) st1 = Some run) \/
      (exists st1 a st2 l st3,
          hadConsonant st1 = hadConsonant st /\
          (tokenBuffer st1 <> [] \/ loop_bound map = 0) /\
          match_tokens map options (loop_bound map) st1 = (a, st2) /\
          outer_loop map options fuel (tail rest) st2 = Some (l, st3) /\
          run = (cons_action a l, st3))).
  { destruct rest as [|L rest'].
    - intros H [Hne|Hne]; [congruence|]. right.
      apply (Hstep st); [reflexivity|now left|exact H].
    - destruct (room map (tokenBuffer st)) eqn:Hroom.
      + destruct (room_after_fill map (tokenBuffer st)).
        * intros H _. left. eexists. split; [|exact H]. reflexivity.
        * intros H _. right.
          apply (Hstep (with_buffer st (tokenBuffer st ++ [L])));
            [reflexivity| |exact H].
          left. cbn [with_buffer tokenBuffer]. now destruct (tokenBuffer st).
      + intros H _. right. apply (Hstep st); [reflexivity| |exact H].
        unfold room, loop_bound in *.
        destruct (maxTokenLength map) as [m|]; [|now right].
        apply Nat.ltb_ge in Hroom.
        destruct (tokenBuffer st); [right; simpl in Hroom; lia|now left]. }
  destruct rest as [|L rest'], (tokenBuffer st) as [|c b] eqn:Hbuf.
  - intros [= <-]. now left.
  - intros H. right. apply Hgo; [exact H|]. right. discriminate.
  - intros H. right. apply Hgo; [exact H|]. left. discriminate.
  - intros H. right. apply Hgo; [exact H|]. left. discriminate.
Qed.

(** *** The virama rule *)






(** *** Tokens and candidates *)

Lemma candidates_tried_spec n st a st' :
  match_tokens map options n st = (Some a, st') ->
  1 ≤ candidates_tried map options n st ≤ n /\
  action_token a
  = substr0 (S n - candidates_tried map options n st) (tokenBuffer st).
Proof.
  revert st; induction n as [|n IH]; intros st; cbn [match_tokens];
    [discriminate|].
  cbn [candidates_tried]. unfold substr0, substr_from.
  destruct (sgml_step options st (firstn (S n) (tokenBuffer st)))
    as [sgml|] eqn:Hsgml.
  - destruct (letters map !! firstn (S n) (tokenBuffer st)) as [tl|],
      (truthy_val sgml || toggledTrans st);
      try (intros [= <- _]; split; [lia|];
           replace (S (S n) - 1) with (S n) by lia; reflexivity);
      (destruct n as [|n'];
       [ intros [= <- _]; cbn [candidates_tried]; split; [lia|];
         reflexivity
       | intros H; destruct (IH _ H) as [Hle Htok];
         cbn [tokenBuffer] in Htok; split; [lia|];
         rewrite Htok; f_equal; lia ]).
  - intros [= <- _]. split; [lia|].
    replace (S (S n) - 1) with (S n) by lia.
    symmetry. eapply sgml_step_None, Hsgml.
Qed.

Lemma candidates_tried_le n st : candidates_tried map options n st ≤ n.
Proof.
  revert st; induction n as [|n IH]; intros st; cbn [candidates_tried];
    [lia|].
  destruct (sgml_step options st _) as [sgml|]; [|lia].
  destruct (letters map !! _) as [tl|], (truthy_val sgml || toggledTrans st);
    try lia;
    match goal with |- S (candidates_tried _ _ _ ?s) ≤ _ =>
      specialize (IH s); lia end.
Qed.

(** Every token found in [letters] has between one and [maxTokenLength]
    units. *)
Lemma outer_loop_token_length fuel rest st tr st' tok out :
  outer_loop map options fuel rest st = Some (tr, st') ->
  In (Match tok out) tr ->
  1 ≤ length tok ≤ loop_bound map.
Proof.
  revert rest st tr st'.
  induction fuel as [|fuel IH]; intros rest st tr st' Hrun; [discriminate|].
  destruct (outer_loop_turn _ _ _ _ Hrun)
    as [(_ & _ & Heq)|[(st1 & _ & Hrec)|
                       (st1 & a & st2 & l & st3 & _ & Hne & Hmt & Hrec & Heq)]].
  - injection Heq as -> ->. intros [].
  - apply (IH _ _ _ _ Hrec).
  - injection Heq as -> ->. intros Hin.
    assert (Hl : In (Match tok out) l -> 1 ≤ length tok ≤ loop_bound map)
      by apply (IH _ _ _ _ Hrec).
    destruct a as [a|]; [|now apply Hl].
    destruct Hin as [->|Hin]; [|now apply Hl].
    destruct (match_tokens_cases _ _ _ _ Hmt)
      as [(_ & Hnone & _)|(k & tok' & Hk & Htok & Hcase)]; [discriminate|].
    destruct Hcase as [(Ha & _)|[(tl & Ha & _)|(_ & Ha & _)]];
      try discriminate.
    injection Ha as -> _. subst tok'. rewrite length_firstn.
    destruct Hne as [Hne|Hz]; [|lia].
    destruct (tokenBuffer st1); [congruence|]. simpl. lia.
Qed.

End Engine.

(** *** From the rule along a run to positions *)





(** *** The bound on the tokens *)

(** C4, the claim as stated does not hold: [letters] has a key of three
    units, the synonym of an accented vowel, and [maxTokenLength] is 1;
    and for a scheme with empty groups [maxTokenLength] is [-Infinity]. *)
Lemma maxTokenLength_misses_synonym :
  (exists m,
      makeMap Demo.schemes (u "long_synonym") (u "devanagari") ∅ = Ok m /\
      is_Some (letters m !! u "a''") /\
      length (u "a''") = 3 /\
      maxTokenLength m = Some 1) /\
  (exists m,
      makeMap Demo.schemes (u "bare") (u "devanagari") ∅ = Ok m /\
      maxTokenLength m = None).
Proof.
  split.
  - eexists. split; [vm_compute; reflexivity|]. vm_compute. eauto.
  - eexists. split; [vm_compute; reflexivity|]. reflexivity.
Qed.

(** C4, amended.  Every key of [letters] or [marks] other than a synonym
    of an accented vowel is at most [maxTokenLength] long, and
    [maxTokenLength] is the length of one of the keys; hence it is at
    least 1 as soon as a key other than a synonym is not empty.  The
    Roman engine finds in [letters] only tokens of one to [maxTokenLength]
    units. *)
Theorem maxTokenLength_spec (schemes : gmap jstring scheme)
    (from to : jstring) (options : gmap string jsval) (m : compiled) :
  makeMap schemes from to options = Ok m ->
  (forall tok,
      is_token m tok ->
      (exists n, maxTokenLength m = Some n /\ length tok ≤ n) \/
      is_synonym schemes from tok) /\
  (forall n,
      maxTokenLength m = Some n ->
      exists tok, is_token m tok /\ length tok = n) /\
  (forall tok,
      is_token m tok -> ~ is_synonym schemes from tok -> tok <> [] ->
      exists n, maxTokenLength m = Some n /\ 1 ≤ n) /\
  (forall roptions fuel data tr st tok out,
      outer_loop m roptions fuel data initial = Some (tr, st) ->
      In (Match tok out) tr ->
      exists n, maxTokenLength m = Some n /\ 1 ≤ length tok ≤ n).
Proof.
  intros Hm.
  assert (Hkeys : forall tok,
             is_token m tok ->
             (exists n, maxTokenLength m = Some n /\ length tok ≤ n) \/
             is_synonym schemes from tok).
  { unfold makeMap in Hm.
    destruct (schemes !! from) as [fromScheme|] eqn:Hfrom; [|discriminate].
    destruct (schemes !! to) as [toScheme|]; [|discriminate].
    pose proof (group_tables_recorded fromScheme toScheme) as [Hrec _].
    destruct (match accented_vowel_alternates fromScheme with
              | Some ava => _ | None => _ end) as [ml|e] eqn:Hacc;
      [|discriminate].
    cbn [bind] in Hm.
    destruct (group_prop to toScheme _ _); [|discriminate].
    destruct (group_prop to toScheme _ _); [|discriminate].
    destruct (group_prop from fromScheme _ _); [|discriminate].
    injection Hm as <-. unfold is_token. cbn [letters marks maxTokenLength].
    intros tok Htok.
    assert (Hmain : is_Some (t_letters (group_tables fromScheme toScheme) !! tok)
                    \/ is_Some (t_marks (group_tables fromScheme toScheme) !! tok)
                    \/ is_synonym schemes from tok).
    { destruct (accented_vowel_alternates fromScheme) as [ava|] eqn:Hava.
      - destruct (add_accented_Ok _ _ _ _ Hacc) as (_ & _ & Hnew).
        cbn [fst snd] in Hnew.
        destruct (Hnew tok) as [H|[H|H]]; [tauto|auto|auto|].
        right; right. exists fromScheme, ava. auto.
      - injection Hacc as <-. cbn [fst snd] in Htok. tauto. }
    destruct Hmain as [H|[H|H]]; [| |now right]; left.
    + assert (Hin := Hrec tok (or_introl H)).
      destruct (math_max _) as [n|] eqn:Hmax.
      * exists n. split; [reflexivity|].
        now apply (proj2 (math_max_Some _ _ Hmax)).
      * apply math_max_None in Hmax. rewrite Hmax in Hin. destruct Hin.
    + assert (Hin := Hrec tok (or_intror H)).
      destruct (math_max _) as [n|] eqn:Hmax.
      * exists n. split; [reflexivity|].
        now apply (proj2 (math_max_Some _ _ Hmax)).
      * apply math_max_None in Hmax. rewrite Hmax in Hin. destruct Hin. }
  split; [exact Hkeys|]. split; [|split].
  - unfold makeMap in Hm.
    destruct (schemes !! from) as [fromScheme|] eqn:Hfrom; [|discriminate].
    destruct (schemes !! to) as [toScheme|]; [|discriminate].
    pose proof (group_tables_recorded fromScheme toScheme) as [_ Hrec].
    destruct (match accented_vowel_alternates fromScheme with
              | Some ava => _ | None => _ end) as [ml|e] eqn:Hacc;
      [|discriminate].
    cbn [bind] in Hm.
    destruct (group_prop to toScheme _ _); [|discriminate].
    destruct (group_prop to toScheme _ _); [|discriminate].
    destruct (group_prop from fromScheme _ _); [|discriminate].
    injection Hm as <-. unfold is_token. cbn [letters marks maxTokenLength].
    intros n Hmax. apply math_max_Some in Hmax as [Hin _].
    destruct (Hrec n Hin) as (tok & Htok & Hlen). exists tok.
    split; [|exact Hlen].
    destruct (accented_vowel_alternates fromScheme) as [ava|].
    + destruct (add_accented_Ok _ _ _ _ Hacc) as (Hmarks & Hletters & _).
      cbn [fst snd] in Hmarks, Hletters. destruct Htok; auto.
    + injection Hacc as <-. exact Htok.
  - intros tok Htok Hns Hne.
    destruct (Hkeys tok Htok) as [(n & Hn & Hle)|Hs]; [|contradiction].
    exists n. split; [exact Hn|].
    destruct tok; [congruence|]. simpl in Hle. lia.
  - intros roptions fuel data tr st tok out Hrun Hin.
    pose proof (outer_loop_token_length _ _ _ _ _ _ _ _ _ Hrun Hin) as Hlen.
    unfold loop_bound in Hlen.
    destruct (maxTokenLength m) as [n|]; [eauto|lia].
Qed.

(** The amended statement applies to the fragment of Harvard-Kyoto. *)
Lemma maxTokenLength_spec_witness :
  exists m,
    makeMap Demo.schemes (u "hk") (u "devanagari") ∅ = Ok m /\
    (forall n,
        maxTokenLength m = Some n ->
        exists tok, is_token m tok /\ length tok = n).
Proof.
  assert (H : exists m, makeMap Demo.schemes (u "hk") (u "devanagari") ∅ = Ok m)
    by (vm_compute; eauto).
  destruct H as [m Hm]. exists m. split; [exact Hm|].
  exact (proj1 (proj2 (maxTokenLength_spec _ _ _ _ _ Hm))).
Defined.

(** *** The engine returns *)

Lemma transliterateRoman_returns schemes data map options :
  exists r,
    transliterateRoman schemes (enough_fuel data) data map options = Some r.
Proof.
  unfold transliterateRoman.
  destruct (outer_loop_terminates map options (enough_fuel data) data initial)
    as [run ->]; [now left | unfold enough_fuel; simpl; lia | eauto].
Qed.

Lemma transliterateRoman_fuel schemes fuel data map options :
  enough_fuel data ≤ fuel ->
  transliterateRoman schemes fuel data map options
  = transliterateRoman schemes (enough_fuel data) data map options.
Proof.
  intros Hle. unfold transliterateRoman.
  destruct (outer_loop_terminates map options (enough_fuel data) data initial)
    as [run Hrun]; [now left | unfold enough_fuel; simpl; lia |].
  now rewrite Hrun, (outer_loop_fuel_stable _ _ _ _ _ _ _ Hrun Hle).
Qed.

End RomanFacts.

(** ** Facts about the Brahmic engine *)

Module BrahmicFacts.
Import MakeMap Dispatcher Brahmic.

(** The pending [#] is pushed only by the branch for a unit outside
    [marks]. *)
Lemma loop_lone_hash map : join (loop map (u "#") initial) = [].
Proof. reflexivity. Qed.

(** C3 on the code: a lone [#] is not always in the output.  For every
    map the input [#] gives the empty string; on the fragment of
    Devanagari, a [#] at the end of the input or before a vowel mark at
    the end is dropped, and a [#] before a vowel mark comes out after
    the mark, whereas a [#] before a letter is pushed as it is. *)
Theorem lone_hash_dropped :
  (forall schemes map options,
      toRoman map && negb (bool_decide (accents map = ∅)) = false ->
      transliterateBrahmic schemes (u "#") map options = Ok []) /\
  snd (t Demo.schemes Demo.world0 [0x915; 35] (u "devanagari") (u "hk") None)
  = Some (Ok (u "ka")) /\
  snd (t Demo.schemes Demo.world0 [35; 0x93e] (u "devanagari") (u "hk") None)
  = Some (Ok (u "A")) /\
  snd (t Demo.schemes Demo.world0 [35; 0x93e; 0x915] (u "devanagari")
         (u "hk") None)
  = Some (Ok (u "A#ka")) /\
  snd (t Demo.schemes Demo.world0 [35; 0x915] (u "devanagari") (u "hk") None)
  = Some (Ok (u "#ka")).
Proof.
  split.
  - intros schemes map options Hpre. unfold transliterateBrahmic.
    rewrite Hpre. reflexivity.
  - repeat split; vm_compute; reflexivity.
Qed.

End BrahmicFacts.

(** ** Facts about the audio numbers *)

Module AudioFacts.
Import Audio.

(** C7 on the code: the loop of [pickAudioNumbers] takes a digit and then
    every digit or small letter, the expression that strips the number
    takes digits and at most one letter.  On the marker followed by
    [1ab] the number [1ab] is picked, only [1a] is stripped, and the
    refill is not the text. *)
Theorem pick_refill_mismatch :
  pickAudioNumbers [] (marker :: u "1ab") = ([u "1ab"], marker :: u "b") /\
  refillAudioNumbers (fst (pickAudioNumbers [] (marker :: u "1ab"))) 0
    (snd (pickAudioNumbers [] (marker :: u "1ab")))
  = marker :: u "1abb" /\
  marker :: u "1abb" <> marker :: u "1ab".
Proof. repeat split; try (vm_compute; reflexivity). discriminate. Qed.

End AudioFacts.

(** ** Facts about the dispatcher *)

Module DispatcherFacts.
Import MakeMap Options Dispatcher DispatcherSpec RomanFacts.
Local Open Scope nat_scope.

(** *** The loop over the defaults *)

Lemma merge_fold l cached ds (h : gmap loc (gmap string jsval)) p o :
  h !! l = Some o ->
  fst (fold_left (merge_key l cached) ds (h, p))
  = <[l := fold_left
             (fun o d =>
                <[fst d := match o !! fst d with
                           | Some v => v
                           | None => snd d
                           end]> o) ds o]> h.
Proof.
  revert h p o; induction ds as [|[key dflt] ds IH]; intros h p o Hl.
  - simpl. symmetry. now apply insert_id.
  - cbn [fold_left merge_key]. rewrite Hl. cbn [default fst snd].
    erewrite IH by apply lookup_insert_eq.
    now rewrite insert_insert_eq.
Qed.

Lemma merge_prior l cached ds (h : gmap loc (gmap string jsval)) p :
  snd (fold_left (merge_key l cached) ds (h, p)) = true -> p = true.
Proof.
  revert h p; induction ds as [|[key dflt] ds IH]; intros h p; [auto|].
  cbn [fold_left merge_key]. intros H. apply IH in H.
  now destruct (strict_eqb _ _).
Qed.

Lemma merge_fold_cons l cached d ds (h : gmap loc (gmap string jsval)) p :
  fst (fold_left (merge_key l cached) (d :: ds) (h, p))
  = <[l := fold_left
             (fun o d =>
                <[fst d := match o !! fst d with
                           | Some v => v
                           | None => snd d
                           end]> o) (d :: ds) (default ∅ (h !! l))]> h.
Proof.
  destruct d as [key dflt]. cbn [fold_left merge_key].
  erewrite merge_fold by apply lookup_insert_eq.
  now rewrite insert_insert_eq.
Qed.

Lemma merge_fold_defaults l cached (h : gmap loc (gmap string jsval)) p :
  fst (fold_left (merge_key l cached) defaults (h, p))
  = <[l := merge_defaults (default ∅ (h !! l))]> h.
Proof. apply merge_fold_cons. Qed.

(** *** The cache *)

Lemma makeMap_ignores_options schemes from to (o1 o2 : gmap string jsval) :
  makeMap schemes from to o1 = makeMap schemes from to o2.
Proof. reflexivity. Qed.

(** What [t] computes, with the loop over the defaults named. *)
Lemma t_unfold schemes w data from to options h hasPriorState :
  let from' :=
    match from with
    | [] => toLowerCase (Detect.detect data)
    | _ :: _ => from
    end in
  let l :=
    match options with
    | Some l => l
    | None => fresh (dom (heap w))
    end in
  let h0 :=
    match options with
    | Some _ => heap w
    | None => <[l := ∅]> (heap w)
    end in
  fold_left (merge_key l (c_options <$> cache w)) defaults
    (h0,
     match cache w with
     | Some c => str_eqb (c_from c) from' && str_eqb (c_to c) to
     | None => false
     end) = (h, hasPriorState) ->
  t schemes w data from to options
  = match
      match hasPriorState, cache w with
      | true, Some c => Ok (c_map c, cache w)
      | _, _ =>
          let? map := makeMap schemes from' to (default ∅ (h !! l)) in
          Ok (map, Some {| c_from := from'; c_map := map;
                           c_options := l; c_to := to |})
      end
    with
    | Throw e => ({| heap := h; cache := cache w |}, Some (Throw e))
    | Ok (map, cache') =>
        ({| heap := h; cache := cache' |},
         with_map schemes data from' to (default ∅ (h !! l)) map)
    end.
Proof. intros from' l h0 Hfold. unfold t. fold from' l h0. now rewrite Hfold. Qed.

Lemma t_cache_ok schemes w data from to options :
  cache_ok schemes w ->
  cache_ok schemes (fst (t schemes w data from to options)).
Proof.
  intros Hok.
  destruct (fold_left
              (merge_key
                 match options with
                 | Some l => l
                 | None => fresh (dom (heap w))
                 end (c_options <$> cache w)) defaults
              (match options with
               | Some _ => heap w
               | None =>
                   <[match options with
                     | Some l => l
                     | None => fresh (dom (heap w))
                     end := ∅]> (heap w)
               end,
               match cache w with
               | Some c =>
                   str_eqb (c_from c)
                     match from with
                     | [] => toLowerCase (Detect.detect data)
                     | _ :: _ => from
                     end && str_eqb (c_to c) to
               | None => false
               end)) as [h p] eqn:Hfold.
  rewrite (t_unfold _ _ _ _ _ _ _ _ Hfold).
  assert (Hbuild : forall from' l,
             cache_ok schemes
               (fst
                  match
                    (let? map := makeMap schemes from' to (default ∅ (h !! l)) in
                     Ok (map, Some {| c_from := from'; c_map := map;
                                      c_options := l; c_to := to |}))
                  with
                  | Throw e => ({| heap := h; cache := cache w |}, Some (Throw e))
                  | Ok (map, cache') =>
                      ({| heap := h; cache := cache' |},
                       with_map schemes data from' to (default ∅ (h !! l)) map)
                  end)).
  { intros from' l.
    destruct (makeMap schemes from' to (default ∅ (h !! l))) as [m|e] eqn:Hm;
      cbn [bind fst].
    - intros c [= <-] o. cbn [c_from c_to c_map]. exact Hm.
    - exact Hok. }
  destruct p; [|apply Hbuild].
  destruct (cache w) as [c|] eqn:Hc; [|apply Hbuild].
  cbn [fst]. intros c' Hc'. cbn [cache] in Hc'. apply Hok.
  now rewrite Hc.
Qed.

Lemma reachable_cache_ok schemes w : reachable schemes w -> cache_ok schemes w.
Proof.
  induction 1 as [h|w data from to options _ IH|w h _ IH].
  - intros c Hc. discriminate Hc.
  - now apply t_cache_ok.
  - exact IH.
Qed.

Lemma t_clear_cache schemes w data from to options :
  cache_ok schemes w ->
  snd (t schemes w data from to options)
  = snd (t schemes (clear_cache w) data from to options) /\
  heap (fst (t schemes w data from to options))
  = heap (fst (t schemes (clear_cache w) data from to options)).
Proof.
  intros Hok.
  set (from' := match from with
                | [] => toLowerCase (Detect.detect data)
                | _ :: _ => from
                end).
  set (l := match options with
            | Some l => l
            | None => fresh (dom (heap w))
            end).
  set (h0 := match options with
             | Some _ => heap w
             | None => <[l := ∅]> (heap w)
             end).
  destruct (fold_left (merge_key l (c_options <$> cache w)) defaults
              (h0, match cache w with
                   | Some c => str_eqb (c_from c) from' && str_eqb (c_to c) to
                   | None => false
                   end)) as [h1 p1] eqn:H1.
  destruct (fold_left (merge_key l None) defaults (h0, false))
    as [h2 p2] eqn:H2.
  rewrite (t_unfold schemes w data from to options h1 p1 H1).
  rewrite (t_unfold schemes (clear_cache w) data from to options h2 p2 H2).
  assert (Hh : h1 = h2).
  { apply (f_equal fst) in H1, H2. rewrite merge_fold_defaults in H1, H2.
    cbn [fst] in H1, H2. congruence. }
  subst h2. cbn [clear_cache cache].
  assert (Hp2 : p2 = false).
  { destruct p2; [|reflexivity].
    apply (f_equal snd) in H2. cbn [snd] in H2.
    now apply merge_prior in H2. }
  subst p2. fold from' l.
  destruct p1.
  - apply (f_equal snd) in H1. cbn [snd] in H1. apply merge_prior in H1.
    destruct (cache w) as [c|] eqn:Hc; [|discriminate].
    apply andb_true_iff in H1 as [Hf Ht].
    apply JSFacts.str_eqb_spec in Hf, Ht.
    pose proof (Hok c Hc) as Hmap.
    rewrite Hf, Ht in Hmap. cbv beta iota.
    change (heap (clear_cache w)) with (heap w). fold l.
    rewrite Hmap. cbn [bind fst snd heap]. split; reflexivity.
  - cbv beta iota. change (heap (clear_cache w)) with (heap w). fold l.
    destruct (makeMap schemes from' to (default ∅ (h1 !! l))) as [m|e];
      cbn [bind fst snd heap]; split; reflexivity.
Qed.

(** C8.  Along every sequence of calls of [t] on a fixed registry, a call
    returns what it returns with the cache emptied just before it, and
    writes the same option objects. *)
Theorem cache_transparent (schemes : gmap jstring scheme) (w : world)
    (data from to : jstring) (options : option loc) :
  reachable schemes w ->
  snd (t schemes w data from to options)
  = snd (t schemes (clear_cache w) data from to options) /\
  heap (fst (t schemes w data from to options))
  = heap (fst (t schemes (clear_cache w) data from to options)).
Proof. intros Hw. apply t_clear_cache, reachable_cache_ok, Hw. Qed.


(** The second call of a program hits the cache; emptying the cache
    before it changes nothing. *)
Lemma cache_transparent_witness :
  snd (t Demo.schemes
         (fst (t Demo.schemes Demo.world0 (u "ka") (u "hk") (u "devanagari")
                 None))
         (u "ki") (u "hk") (u "devanagari") None)
  = snd (t Demo.schemes
           (clear_cache
              (fst (t Demo.schemes Demo.world0 (u "ka") (u "hk")
                      (u "devanagari") None)))
           (u "ki") (u "hk") (u "devanagari") None).
Proof.
  apply (cache_transparent Demo.schemes
           (fst (t Demo.schemes Demo.world0 (u "ka") (u "hk")
                   (u "devanagari") None))
           (u "ki") (u "hk") (u "devanagari") None).
  apply reach_call. apply (reach_start Demo.schemes ∅).
Defined.

(** *** The options object after a call *)

Lemma t_heap schemes w data from to options :
  heap (fst (t schemes w data from to options))
  = let l :=
      match options with
      | Some l => l
      | None => fresh (dom (heap w))
      end in
    let h0 :=
      match options with
      | Some _ => heap w
      | None => <[l := ∅]> (heap w)
      end in
    <[l := merge_defaults (default ∅ (h0 !! l))]> h0.
Proof.
  cbv zeta. rewrite <- (merge_fold_defaults _ (c_options <$> cache w) _
    (match cache w with
     | Some c =>
         str_eqb (c_from c)
           match from with
           | [] => toLowerCase (Detect.detect data)
           | _ :: _ => from
           end && str_eqb (c_to c) to
     | None => false
     end)).
  destruct (fold_left _ defaults _) as [h p] eqn:Hfold.
  rewrite (t_unfold _ _ _ _ _ _ _ _ Hfold). cbn [fst].
  destruct p, (cache w);
    try (destruct (makeMap _ _ _ _)); reflexivity.
Qed.

Lemma merge_defaults_default (o : gmap string jsval) key dflt :
  In (key, dflt) defaults ->
  merge_defaults o !! key
  = Some (match o !! key with Some v => v | None => dflt end).
Proof.
  unfold merge_defaults, defaults. cbn [fold_left fst snd In].
  intros [H|[H|[H|[H|[H|[]]]]]]; injection H as <- <-;
    repeat (rewrite lookup_insert_eq
            || rewrite lookup_insert_ne by discriminate);
    reflexivity.
Qed.

Lemma merge_defaults_other (o : gmap string jsval) key :
  ~ In key (List.map fst defaults) ->
  merge_defaults o !! key = o !! key.
Proof.
  unfold merge_defaults, defaults. cbn [fold_left fst snd In List.map].
  intros Hkey.
  rewrite !lookup_insert_ne by (intros <-; apply Hkey; tauto).
  reflexivity.
Qed.

(** C10.  A call of [t] with an options object writes into that very
    object: afterwards it holds every default key, with the value it had
    for the key or else the default, its other keys are as before, and no
    other object has changed. *)
Theorem t_fills_options (schemes : gmap jstring scheme) (w : world)
    (data from to : jstring) (l : loc) (o : gmap string jsval) :
  heap w !! l = Some o ->
  (exists o',
      heap (fst (t schemes w data from to (Some l))) !! l = Some o' /\
      (forall key dflt,
          In (key, dflt) defaults ->
          o' !! key = Some (match o !! key with Some v => v | None => dflt end)) /\
      (forall key,
          ~ In key (List.map fst defaults) -> o' !! key = o !! key)) /\
  (forall l',
      l' <> l ->
      heap (fst (t schemes w data from to (Some l))) !! l' = heap w !! l').
Proof.
  intros Hl. rewrite t_heap. cbv zeta. rewrite Hl. cbn [default]. split.
  - exists (merge_defaults o). split; [apply lookup_insert_eq|].
    split; [apply merge_defaults_default | apply merge_defaults_other].
  - intros l' Hne. now apply lookup_insert_ne.
Qed.

(** The caller passes an object that only sets [syncope]. *)
Lemma t_fills_options_witness :
  exists o',
    heap (fst (t Demo.schemes
                 {| heap := {[ 7 := {[ "syncope"%string := VBool true ]} ]};
                    cache := None |}
                 (u "k") (u "hk") (u "devanagari") (Some 7))) !! 7
    = Some o' /\
    o' !! "syncope"%string = Some (VBool true) /\
    o' !! "skip_sgml"%string = Some (VBool false).
Proof.
  destruct (t_fills_options Demo.schemes
              {| heap := {[ 7 := {[ "syncope"%string := VBool true ]} ]};
                 cache := None |}
              (u "k") (u "hk") (u "devanagari") 7
              {[ "syncope"%string := VBool true ]})
    as [(o' & Ho' & Hdef & _) _].
  - reflexivity.
  - exists o'. split; [exact Ho'|]. split.
    + apply (Hdef "syncope"%string (VBool false)). simpl. tauto.
    + apply (Hdef "skip_sgml"%string (VBool false)). simpl. tauto.
Defined.

(** *** Termination *)

Lemma with_map_returns schemes data from to options map :
  exists r, with_map schemes data from to options map = Some r.
Proof.
  unfold with_map.
  destruct (let? data0 := _ in _) as [d|e]; [|eauto].
  destruct (fromRoman map); [|eauto].
  destruct (transliterateRoman_returns schemes d map options) as [r ->].
  eauto.
Qed.

Lemma t_returns schemes w data from to options :
  exists r, snd (t schemes w data from to options) = Some r.
Proof.
  destruct (fold_left
              (merge_key
                 match options with
                 | Some l => l
                 | None => fresh (dom (heap w))
                 end (c_options <$> cache w)) defaults
              (match options with
               | Some _ => heap w
               | None =>
                   <[match options with
                     | Some l => l
                     | None => fresh (dom (heap w))
                     end := ∅]> (heap w)
               end,
               match cache w with
               | Some c =>
                   str_eqb (c_from c)
                     match from with
                     | [] => toLowerCase (Detect.detect data)
                     | _ :: _ => from
                     end && str_eqb (c_to c) to
               | None => false
               end)) as [h p] eqn:Hfold.
  rewrite (t_unfold _ _ _ _ _ _ _ _ Hfold).
  destruct (match p, cache w with
            | true, Some c => _
            | _, _ => _
            end) as [[m c']|e]; cbn [snd]; [|eauto].
  apply with_map_returns.
Qed.

(** C9.  The Roman engine returns on every input and every compiled map:
    [enough_fuel data] turns of the outer loop reach its end, and more
    turns change nothing; the inner loop goes through at most
    [maxTokenLength] candidates, the one it stops at being the token of
    the action; and [t], which runs one of the two engines (the Brahmic
    one is a recursion over the units of its input), returns on every
    call. *)
Theorem transliteration_terminates :
  (forall schemes data map options,
      exists r,
        Roman.transliterateRoman schemes (Roman.enough_fuel data) data map
          options = Some r) /\
  (forall schemes fuel data map options,
      Roman.enough_fuel data ≤ fuel ->
      Roman.transliterateRoman schemes fuel data map options
      = Roman.transliterateRoman schemes (Roman.enough_fuel data) data map
          options) /\
  (forall map options st,
      RomanSpec.candidates_tried map options (Roman.loop_bound map) st
      ≤ Roman.loop_bound map /\
      Roman.loop_bound map = default 0 (maxTokenLength map)) /\
  (forall map options n st a st',
      Roman.match_tokens map options n st = (Some a, st') ->
      1 ≤ RomanSpec.candidates_tried map options n st ≤ n /\
      RomanSpec.action_token a
      = substr0 (S n - RomanSpec.candidates_tried map options n st)
          (Roman.tokenBuffer st)) /\
  (forall schemes w data from to options,
      exists r, snd (t schemes w data from to options) = Some r).
Proof.
  split; [exact transliterateRoman_returns|].
  split; [exact transliterateRoman_fuel|].
  split.
  { intros map options st. split; [apply candidates_tried_le|].
    unfold Roman.loop_bound. now destruct (maxTokenLength map). }
  split; [exact candidates_tried_spec|].
  exact t_returns.
Qed.

(** *** Shortcuts *)

(** C6 on the code: with the shortcut [x] for [kS], only the first [x] of
    the input is rewritten; the second reaches the engine as it is and
    is passed through, whereas the input with both written out becomes
    two conjuncts. *)
Theorem shortcut_first_occurrence_only :
  from_shortcut (u "xax") (u "kS", u "x") = u "kSax" /\
  snd (t Demo.schemes Demo.world0 (u "xax") (u "shortcut") (u "devanagari")
         None)
  = Some (Ok (Demo.ksha ++ u "x")%list) /\
  snd (t Demo.schemes Demo.world0 (u "kSakS") (u "shortcut")
         (u "devanagari") None)
  = Some (Ok (Demo.ksha ++ Demo.ksha ++ key_virama)%list).
Proof. repeat split; vm_compute; reflexivity. Qed.

End DispatcherFacts.

(** ** The model on small inputs *)

Module Examples.
Import MakeMap Dispatcher Audio.

(** Roman to Brahmic: vowel marks after consonants, the short a
    absorbed, a virama before the blank and at the end. *)
Example roman_to_brahmic :
  snd (t Demo.schemes Demo.world0 (u "kAmar k") (u "hk") (u "devanagari") None)
  = Some (Ok [0x915; 0x93e; 0x92e; 0x930; 0x94d; 32; 0x915; 0x94d]).
Proof. vm_compute. reflexivity. Qed.

(** With [syncope] neither virama is pushed. *)
Example roman_to_brahmic_syncope :
  snd (t Demo.schemes (Demo.with_options {[ "syncope"%string := VBool true ]})
         (u "kAmar k") (u "hk") (u "devanagari") (Some 1%nat))
  = Some (Ok [0x915; 0x93e; 0x92e; 0x930; 32; 0x915]).
Proof. vm_compute. reflexivity. Qed.

(** Brahmic to Roman, the source detected: the short a is supplied. *)
Example brahmic_to_roman :
  snd (t Demo.schemes Demo.world0 [0x915; 0x93e; 0x92e] [] (u "hk") None)
  = Some (Ok (u "kAma")).
Proof. vm_compute. reflexivity. Qed.

(** A toggled region is passed through; the consonant before it gets
    its virama when the first unit of the region is pushed. *)
Example toggled_region :
  snd (t Demo.schemes Demo.world0 (u "k##a##ka") (u "shortcut")
         (u "devanagari") None)
  = Some (Ok [0x915; 0x94d; 97; 0x915]).
Proof. vm_compute. reflexivity. Qed.

(** With [skip_sgml] the span between the angle brackets is passed
    through. *)
Example sgml_span :
  snd (t Demo.schemes (Demo.with_options {[ "skip_sgml"%string := VBool true ]})
         (u "k<ka>k") (u "hk") (u "devanagari") (Some 1%nat))
  = Some (Ok ([0x915; 0x94d] ++ u "<ka>" ++ [0x915; 0x94d])%list).
Proof. vm_compute. reflexivity. Qed.

(** [preferred_alternates] rewrites every occurrence in the result. *)
Example preferred_alternates :
  snd (t Demo.schemes
         (Demo.with_options
            {[ "preferred_alternates"%string
               := VObject 5 [(u "hk", [(u "A", u "aa")])] ]})
         [0x915; 0x93e; 0x92e; 0x93e] (u "devanagari") (u "hk") (Some 1%nat))
  = Some (Ok (u "kaamaa")).
Proof. vm_compute. reflexivity. Qed.

(** The rewrites for an ITRANS source. *)
Example itrans_escapes :
  prepare_itrans (u "a{\m+}b.hc\d\") = u "a.Nbc##d######".
Proof. vm_compute. reflexivity. Qed.

(** The rewrites for IAST to Devanagari. *)
Example iast_punctuation :
  prepare_iast_devanagari (u "a,b 1.2-3 #:x") = u "a|b 1##.##23 #:x".
Proof. vm_compute. reflexivity. Qed.

(** Audio numbers of digits and at most one letter come back. *)
Example audio_round_trip :
  refillAudioNumbers
    (fst (pickAudioNumbers []
            (u "x" ++ marker :: u "12a y" ++ marker :: u " z" ++ [marker])))
    0
    (snd (pickAudioNumbers []
            (u "x" ++ marker :: u "12a y" ++ marker :: u " z" ++ [marker])))
  = (u "x" ++ marker :: u "12a y" ++ marker :: u " z" ++ [marker])%list.
Proof. vm_compute. reflexivity. Qed.

End Examples.
(** ** More on the Roman engine *)

Module RomanMore.
Import MakeMap Options Roman RomanSpec RomanMoreSpec RomanFacts.
Local Open Scope nat_scope.

Section Engine.
Variable map : compiled.
Variable options : gmap string jsval.

(** One turn of the outer loop, with the buffer it runs on. *)
Lemma outer_loop_turn_buffer fuel rest st run :
  outer_loop map options (S fuel) rest st = Some run ->
  (rest = [] /\ tokenBuffer st = [] /\ run = ([], st)) \/
  (exists L rest',
      rest = L :: rest' /\ room map (tokenBuffer st) = true /\
      room_after_fill map (tokenBuffer st) = true /\
      outer_loop map options fuel rest'
        (with_buffer st (tokenBuffer st ++ [L])) = Some run) \/
  (exists st1 a st2 l st3,
      ((exists L rest',
           rest = L :: rest' /\ room map (tokenBuffer st) = true /\
           room_after_fill map (tokenBuffer st) = false /\
           st1 = with_buffer st (tokenBuffer st ++ [L])) \/
       (st1 = st /\ tokenBuffer st <> [] /\ rest = []) \/
       (st1 = st /\ room map (tokenBuffer st) = false /\ rest <> [])) /\
      match_tokens map options (loop_bound map) st1 = (a, st2) /\
      outer_loop map options fuel (tail rest) st2 = Some (l, st3) /\
      run = (cons_action a l, st3)).
Proof.
  cbn [outer_loop].
  assert (Hstep : forall st1,
             (let '(a, st2) := match_tokens map options (loop_bound map) st1 in
              match outer_loop map options fuel (tail rest) st2 with
              | Some (l, st3) => Some (cons_action a l, st3)
              | None => None
              end) = Some run ->
             exists a st2 l st3,
               match_tokens map options (loop_bound map) st1 = (a, st2) /\
               outer_loop map options fuel (tail rest) st2 = Some (l, st3) /\
               run = (cons_action a l, st3)).
  { intros st1.
    destruct (match_tokens map options (loop_bound map) st1) as [a st2] eqn:Hmt.
    destruct (outer_loop map options fuel (tail rest) st2) as [[l st3]|] eqn:Hrec;
      [|discriminate].
    intros [= <-]. exists a, st2, l, st3. auto. }
  destruct rest as [|L rest'].
  - destruct (tokenBuffer st) as [|c b] eqn:Hbuf.
    + intros [= <-]. now left.
    + intros H. right; right.
      destruct (Hstep st H) as (a & st2 & l & st3 & Hmt & Hrec & ->).
      exists st, a, st2, l, st3. split; [|repeat split; assumption].
      right; left. split; [reflexivity|split; [discriminate|reflexivity]].
  - assert (Hgo :
        match
          (if room map (tokenBuffer st)
           then Some (with_buffer st (tokenBuffer st ++ [L]))
           else None)
        with
        | Some st1 =>
            if room_after_fill map (tokenBuffer st)
            then outer_loop map options fuel (tail (L :: rest')) st1
            else
              let '(a, st2) := match_tokens map options (loop_bound map) st1 in
              match outer_loop map options fuel (tail (L :: rest')) st2 with
              | Some (l, st3) => Some (cons_action a l, st3)
              | None => None
              end
        | None =>
            let '(a, st2) := match_tokens map options (loop_bound map) st in
            match outer_loop map options fuel (tail (L :: rest')) st2 with
            | Some (l, st3) => Some (cons_action a l, st3)
            | None => None
            end
        end = Some run ->
        (exists L0 rest0,
            L :: rest' = L0 :: rest0 /\ room map (tokenBuffer st) = true /\
            room_after_fill map (tokenBuffer st) = true /\
            outer_loop map options fuel rest0
              (with_buffer st (tokenBuffer st ++ [L0])) = Some run) \/
        (exists st1 a st2 l st3,
            ((exists L0 rest0,
                 L :: rest' = L0 :: rest0 /\ room map (tokenBuffer st) = true /\
                 room_after_fill map (tokenBuffer st) = false /\
                 st1 = with_buffer st (tokenBuffer st ++ [L0])) \/
             (st1 = st /\ tokenBuffer st <> [] /\ L :: rest' = []) \/
             (st1 = st /\ room map (tokenBuffer st) = false /\
              L :: rest' <> [])) /\
            match_tokens map options (loop_bound map) st1 = (a, st2) /\
            outer_loop map options fuel (tail (L :: rest')) st2 = Some (l, st3) /\
            run = (cons_action a l, st3))).
    { destruct (room map (tokenBuffer st)) eqn:Hroom.
      - destruct (room_after_fill map (tokenBuffer st)) eqn:Hfill.
        + intros H. left. exists L, rest'. repeat split; exact H.
        + intros H. right.
          destruct (Hstep _ H) as (a & st2 & l & st3 & Hmt & Hrec & ->).
          exists (with_buffer st (tokenBuffer st ++ [L])), a, st2, l, st3.
          split; [|repeat split; assumption].
          left. exists L, rest'. repeat split.
      - intros H. right.
        destruct (Hstep _ H) as (a & st2 & l & st3 & Hmt & Hrec & ->).
        exists st, a, st2, l, st3. split; [|repeat split; assumption].
        right; right. split; [reflexivity|]. split; [reflexivity|discriminate]. }
    intros H. right. destruct (tokenBuffer st); exact (Hgo H).
Qed.

(** What the inner loop consumes is the token of its action. *)
Lemma match_tokens_splits n st a st' :
  match_tokens map options n st = (Some a, st') ->
  tokenBuffer st = (action_token a ++ tokenBuffer st')%list.
Proof.
  intros H.
  destruct (match_tokens_cases _ _ _ _ _ _ H)
    as [(_ & Hnone & _)|(k & tok & Hk & Htok & Hcase)]; [discriminate|].
  destruct Hcase as [(Ha & Heq & -> & _)|[(tl & Ha & _ & -> & _)|(-> & Ha & -> & _)]];
    injection Ha as ->; cbn [action_token].
  - rewrite <- Heq, Htok.
    assert (Hlen : length (firstn k (tokenBuffer st)) = 2)
      by (rewrite <- Htok, Heq; reflexivity).
    rewrite length_firstn in Hlen.
    assert (Hk2 : firstn k (tokenBuffer st) = firstn 2 (tokenBuffer st)).
    { destruct (Nat.le_gt_cases k (length (tokenBuffer st))).
      - replace k with 2 by lia. reflexivity.
      - rewrite !firstn_all2 by lia. reflexivity. }
    rewrite Hk2. symmetry. apply firstn_skipn.
  - subst tok. symmetry. apply firstn_skipn.
  - subst tok. symmetry. apply firstn_skipn.
Qed.

(** The tokens of a run, the toggles included, are the input: no unit
    is lost and none is read twice. *)
Lemma outer_loop_consumes fuel rest st tr st' :
  1 ≤ loop_bound map ->
  buffer_ok map st ->
  outer_loop map options fuel rest st = Some (tr, st') ->
  concat (List.map action_token tr) = (tokenBuffer st ++ rest)%list.
Proof.
  intros Hm. revert rest st tr st'.
  induction fuel as [|fuel IH]; intros rest st tr st' Hok Hrun; [discriminate|].
  assert (Hroom : forall s, buffer_ok map s -> room map (tokenBuffer s) = true).
  { intros s [Hnil|(m & Hmax & Hlt)]; unfold room, loop_bound in *.
    - rewrite Hnil. destruct (maxTokenLength map); [|lia].
      apply Nat.ltb_lt. simpl. lia.
    - rewrite Hmax. now apply Nat.ltb_lt. }
  assert (Hafter : forall s1 a s2,
             match_tokens map options (loop_bound map) s1 = (a, s2) ->
             tokenBuffer s1 <> [] ->
             length (tokenBuffer s1) ≤ loop_bound map ->
             buffer_ok map s2 /\
             exists x, a = Some x /\
               tokenBuffer s1 = (action_token x ++ tokenBuffer s2)%list).
  { intros s1 a s2 Hmt Hne Hlen.
    destruct (match_tokens_consumes _ _ _ _ _ _ Hmt Hm Hne) as [Ha Hshort].
    destruct a as [x|]; [|congruence]. split.
    - right. unfold loop_bound in *.
      destruct (maxTokenLength map) as [m|]; [|lia]. exists m. split; [auto|lia].
    - exists x. split; [reflexivity|]. eapply match_tokens_splits, Hmt. }
  destruct (outer_loop_turn_buffer _ _ _ _ Hrun)
    as [(Hr & Hb & Heq)|[(L & rest' & -> & _ & Hfill & Hrec)|
        (st1 & a & st2 & l & st3 & Hcase & Hmt & Hrec & Heq)]].
  - injection Heq as -> _. rewrite Hr, Hb. reflexivity.
  - assert (Hok1 : buffer_ok map (with_buffer st (tokenBuffer st ++ [L]))).
    { right. unfold room_after_fill in Hfill.
      destruct (maxTokenLength map) as [m|]; [|discriminate].
      exists m. split; [reflexivity|]. apply Nat.ltb_lt in Hfill.
      cbn [with_buffer tokenBuffer]. rewrite length_app. simpl. lia. }
    rewrite (IH _ _ _ _ Hok1 Hrec). cbn [with_buffer tokenBuffer].
    now rewrite <- app_assoc.
  - injection Heq as -> ->.
    destruct Hcase as [(L & rest' & -> & Hr & Hfill & ->)|
                       [(-> & Hne & ->)|(-> & Hr & _)]].
    + destruct (Hafter _ _ _ Hmt) as [Hok2 (x & -> & Hsplit)].
      * cbn [with_buffer tokenBuffer]. now destruct (tokenBuffer st).
      * cbn [with_buffer tokenBuffer]. rewrite length_app. simpl.
        unfold room, loop_bound in *.
        destruct (maxTokenLength map) as [m|]; [|discriminate].
        apply Nat.ltb_lt in Hr. lia.
      * cbn [cons_action List.map concat tail].
        rewrite (IH _ _ _ _ Hok2 Hrec).
        cbn [with_buffer tokenBuffer] in Hsplit.
        rewrite app_assoc, <- Hsplit, <- app_assoc. reflexivity.
    + destruct (Hafter _ _ _ Hmt Hne) as [Hok2 (x & -> & Hsplit)].
      * destruct Hok as [Hnil|(m & Hmax & Hlt)]; [congruence|].
        unfold loop_bound. rewrite Hmax. lia.
      * cbn [cons_action List.map concat tail].
        rewrite (IH _ _ _ _ Hok2 Hrec), app_assoc, <- Hsplit. reflexivity.
    + rewrite (Hroom _ Hok) in Hr. discriminate.
Qed.

(** Without a positive [maxTokenLength] the loop reads its input away. *)
Lemma outer_loop_no_tokens fuel rest st tr st' :
  loop_bound map = 0 ->
  tokenBuffer st = [] ->
  outer_loop map options fuel rest st = Some (tr, st') ->
  tr = [] /\ st' = st.
Proof.
  intros Hm. revert rest st tr st'.
  induction fuel as [|fuel IH]; intros rest st tr st' Hbuf Hrun; [discriminate|].
  assert (Hnoroom : room map (tokenBuffer st) = false).
  { unfold room, loop_bound in *. destruct (maxTokenLength map); [|reflexivity].
    subst. reflexivity. }
  destruct (outer_loop_turn_buffer _ _ _ _ Hrun)
    as [(_ & _ & Heq)|[(L & rest' & _ & Hr & _)|
        (st1 & a & st2 & l & st3 & Hcase & Hmt & Hrec & Heq)]].
  - injection Heq as -> ->. auto.
  - congruence.
  - injection Heq as -> ->. rewrite Hm in Hmt. cbn [match_tokens] in Hmt.
    injection Hmt as <- <-.
    destruct Hcase as [(L & rest' & _ & Hr & _)|[(-> & _)|(-> & _)]];
      [congruence| |]; exact (IH _ _ _ _ Hbuf Hrec).
Qed.



(** *** The window of the inner loop *)

Lemma with_buffer_same st : with_buffer st (tokenBuffer st) = st.
Proof. now destruct st. Qed.

Lemma window_run_with_buffer fuel rest st b :
  window_run map options fuel rest (with_buffer st b)
  = window_run map options fuel rest st.
Proof. destruct fuel, rest; reflexivity. Qed.

Lemma window_run_step fuel rest st a st' :
  rest <> [] ->
  match_tokens map options (loop_bound map)
    (with_buffer st (firstn (loop_bound map) rest)) = (Some a, st') ->
  window_run map options (S fuel) rest st
  = a :: window_run map options fuel (skipn (length (action_token a)) rest)
           st'.
Proof.
  intros Hne Hmt. destruct rest as [|c rest]; [congruence|].
  cbn [window_run]. now rewrite Hmt.
Qed.

(** Whenever the inner loop runs, the buffer holds the next
    [maxTokenLength] units of the input that is left. *)
Lemma outer_loop_window fuel rest st tr st' f :
  1 ≤ loop_bound map ->
  buffer_ok map st ->
  outer_loop map options fuel rest st = Some (tr, st') ->
  length (tokenBuffer st ++ rest) ≤ f ->
  tr = window_run map options f (tokenBuffer st ++ rest) st.
Proof.
  intros Hm. revert rest st tr st' f.
  induction fuel as [|fuel IH]; intros rest st tr st' f Hok Hrun Hf;
    [discriminate|].
  assert (Hroom : forall s, buffer_ok map s -> room map (tokenBuffer s) = true).
  { intros s [Hnil|(m & Hmax & Hlt)]; unfold room, loop_bound in *.
    - rewrite Hnil. destruct (maxTokenLength map); [|lia].
      apply Nat.ltb_lt. simpl. lia.
    - rewrite Hmax. now apply Nat.ltb_lt. }
  assert (Hafter : forall s1 a s2,
             match_tokens map options (loop_bound map) s1 = (a, s2) ->
             tokenBuffer s1 <> [] ->
             length (tokenBuffer s1) ≤ loop_bound map ->
             buffer_ok map s2 /\
             exists x, a = Some x /\
               tokenBuffer s1 = (action_token x ++ tokenBuffer s2)%list /\
               1 ≤ length (action_token x)).
  { intros s1 a s2 Hmt Hne Hlen.
    destruct (match_tokens_consumes _ _ _ _ _ _ Hmt Hm Hne) as [Ha Hshort].
    destruct a as [x|]; [|congruence]. split.
    - right. unfold loop_bound in *.
      destruct (maxTokenLength map) as [m|]; [|lia]. exists m. split; [auto|lia].
    - exists x. split; [reflexivity|].
      pose proof (match_tokens_splits _ _ _ _ Hmt) as Hsplit.
      split; [exact Hsplit|].
      apply (f_equal (@length N)) in Hsplit. rewrite length_app in Hsplit. lia. }
  destruct (outer_loop_turn_buffer _ _ _ _ Hrun)
    as [(Hr & Hb & Heq)|[(L & rest' & -> & _ & Hfill & Hrec)|
        (st1 & a & st2 & l & st3 & Hcase & Hmt & Hrec & Heq)]].
  - injection Heq as -> _. rewrite Hr, Hb. now destruct f.
  - assert (Hok1 : buffer_ok map (with_buffer st (tokenBuffer st ++ [L]))).
    { right. unfold room_after_fill in Hfill.
      destruct (maxTokenLength map) as [m|]; [|discriminate].
      exists m. split; [reflexivity|]. apply Nat.ltb_lt in Hfill.
      cbn [with_buffer tokenBuffer]. rewrite length_app. simpl. lia. }
    rewrite (IH _ _ _ _ f Hok1 Hrec);
      cbn [with_buffer tokenBuffer]; rewrite <- app_assoc;
      [apply window_run_with_buffer|exact Hf].
  - injection Heq as -> ->.
    destruct Hcase as [(L & rest' & -> & Hr & Hfill & ->)|
                       [(-> & Hne & ->)|(-> & Hr & _)]].
    + assert (Hlen : length (tokenBuffer st ++ [L]) = loop_bound map).
      { rewrite length_app. simpl. unfold room, room_after_fill, loop_bound in *.
        destruct (maxTokenLength map) as [m|]; [|discriminate].
        apply Nat.ltb_lt in Hr. apply Nat.ltb_ge in Hfill. lia. }
      destruct (Hafter _ _ _ Hmt) as [Hok2 (x & -> & Hsplit & Hx)].
      * cbn [with_buffer tokenBuffer]. now destruct (tokenBuffer st).
      * cbn [with_buffer tokenBuffer]. lia.
      * cbn [with_buffer tokenBuffer] in Hsplit. cbn [cons_action].
        cbn [tail] in Hrec.
        assert (Hrest : (tokenBuffer st ++ L :: rest')%list
                        = ((tokenBuffer st ++ [L]) ++ rest')%list)
          by now rewrite <- app_assoc.
        assert (Hwin : firstn (loop_bound map) (tokenBuffer st ++ L :: rest')
                       = (tokenBuffer st ++ [L])%list).
        { rewrite Hrest, <- Hlen. apply take_app_length. }
        destruct f as [|f]; [rewrite length_app in Hf; simpl in Hf; lia|].
        rewrite (window_run_step f _ st x st2).
        -- f_equal.
           assert (Hskip : skipn (length (action_token x))
                             (tokenBuffer st ++ L :: rest')
                           = (tokenBuffer st2 ++ rest')%list).
           { rewrite Hrest, Hsplit, <- app_assoc. apply drop_app_length. }
           rewrite Hskip. apply (IH _ _ _ _ f Hok2 Hrec).
           rewrite Hrest, Hsplit, <- app_assoc, length_app in Hf. lia.
        -- now destruct (tokenBuffer st).
        -- now rewrite Hwin.
    + assert (Hlen : length (tokenBuffer st) ≤ loop_bound map).
      { destruct Hok as [Hnil|(m & Hmax & Hlt)]; [congruence|].
        unfold loop_bound. rewrite Hmax. lia. }
      destruct (Hafter _ _ _ Hmt Hne Hlen) as [Hok2 (x & -> & Hsplit & Hx)].
      cbn [cons_action]. cbn [tail] in Hrec. rewrite !app_nil_r in *.
      destruct f as [|f];
        [destruct (tokenBuffer st); [congruence|simpl in Hf; lia]|].
      rewrite (window_run_step f _ st x st2).
      * f_equal.
        assert (Hskip : skipn (length (action_token x)) (tokenBuffer st)
                        = tokenBuffer st2)
          by (rewrite Hsplit; apply drop_app_length).
        rewrite Hskip.
        rewrite (IH _ _ _ _ f Hok2 Hrec); [now rewrite app_nil_r|].
        rewrite app_nil_r. rewrite Hsplit, length_app in Hf. lia.
      * exact Hne.
      * rewrite firstn_all2 by exact Hlen. now rewrite with_buffer_same.
    + rewrite (Hroom _ Hok) in Hr. discriminate.
Qed.

(** *** Longest match *)

Lemma In_firstn {A} (n : nat) (x : A) (l : list A) :
  In x (firstn n l) -> In x l.
Proof.
  intros H. rewrite <- (firstn_skipn n l). apply in_or_app. now left.
Qed.

Lemma In_skipn {A} (n : nat) (x : A) (l : list A) :
  In x (skipn n l) -> In x l.
Proof.
  intros H. rewrite <- (firstn_skipn n l). apply in_or_app. now right.
Qed.

Lemma not_true_of_falsy v :
  truthy_val v = false -> strict_eqb v (VBool true) = false.
Proof. destruct v as [|[]|]; simpl; congruence. Qed.

Lemma longest_key_window n m s :
  n ≤ m -> longest_key map n (firstn m s) = longest_key map n s.
Proof.
  induction n as [|n IH]; intros Hn; [reflexivity|].
  cbn [longest_key]. rewrite take_take, Nat.min_l by lia.
  rewrite IH by lia. reflexivity.
Qed.

(** The inner loop outside SGML and toggled regions, on a buffer
    without [#], with [skip_sgml] off. *)
Lemma match_tokens_longest n st a st' :
  truthy_val (optSkipSGML options) = false ->
  translating st ->
  ~ In 35%N (tokenBuffer st) ->
  match_tokens map options n st = (Some a, st') ->
  translating st' /\ by_letters map a /\
  action_token a
  = match longest_key map n (tokenBuffer st) with
    | Some tok => tok
    | None => firstn 1 (tokenBuffer st)
    end.
Proof.
  intros Hopt. revert st.
  induction n as [|n IH]; intros st [Hsgml Htog] Hno Hmt; [discriminate|].
  cbn [match_tokens longest_key] in *. unfold substr0, substr_from in Hmt.
  set (token := firstn (S n) (tokenBuffer st)) in *.
  assert (Htoggle : str_eqb token (u "##") = false).
  { destruct (str_eqb token (u "##")) eqn:E; [|reflexivity].
    apply JSFacts.str_eqb_spec in E. destruct Hno.
    apply (In_firstn (S n)). fold token. rewrite E. now left. }
  assert (Hstep : exists sgml,
             sgml_step options st token = Some sgml /\
             truthy_val sgml = false).
  { unfold sgml_step. rewrite (not_true_of_falsy _ Hsgml), Htoggle.
    destruct (str_eqb token (u "<")); eauto. }
  destruct Hstep as (sgml & Hstep & Hfalsy). rewrite Hstep, Hfalsy, Htog in Hmt.
  cbn [orb] in Hmt.
  assert (Hyes : forall x : jstring,
             bool_decide (is_Some (Some x)) = true)
    by (intros x; apply bool_decide_true; eexists; reflexivity).
  assert (Hnot : bool_decide (is_Some (@None jstring)) = false)
    by (apply bool_decide_false; intros [x Hx]; discriminate Hx).
  destruct (letters map !! token) as [tempLetter|] eqn:Hlet.
  - injection Hmt as <- <-. rewrite Hyes.
    split; [now split|]. split; [|reflexivity].
    split; [reflexivity|]. cbn [matched action_token]. rewrite Hlet.
    now rewrite Hyes.
  - rewrite Hnot.
    destruct n as [|n'].
    + injection Hmt as <- <-. split; [now split|]. split; [|reflexivity].
      split; [reflexivity|]. cbn [matched action_token]. fold token.
      rewrite Hlet. now rewrite Hnot.
    + refine (IH _ _ _ Hmt); [split; [exact Hfalsy|reflexivity]|exact Hno].
Qed.

Lemma window_run_munch f rest st :
  1 ≤ loop_bound map ->
  truthy_val (optSkipSGML options) = false ->
  translating st ->
  ~ In 35%N rest ->
  List.map action_token (window_run map options f rest st)
  = munch map f rest /\
  Forall (by_letters map) (window_run map options f rest st).
Proof.
  intros Hm Hopt. revert rest st.
  induction f as [|f IH]; intros rest st Hst Hno; [now split|].
  destruct rest as [|c rest]; [now split|].
  cbn [window_run munch].
  set (W := firstn (loop_bound map) (c :: rest)).
  assert (HW : W <> [] /\ firstn 1 W = [c] /\ ~ In 35%N W).
  { unfold W. destruct (loop_bound map) as [|m]; [lia|]. cbn [firstn].
    split; [discriminate|]. split; [reflexivity|].
    intros Hin. apply Hno. now apply (In_firstn (S m)). }
  destruct HW as (HWne & HW1 & HWno).
  destruct (match_tokens map options (loop_bound map) (with_buffer st W))
    as [a st'] eqn:Hmt.
  destruct (match_tokens_consumes _ _ _ _ _ _ Hmt Hm HWne) as [Ha _].
  destruct a as [a|]; [|congruence].
  destruct (match_tokens_longest _ (with_buffer st W) _ _ Hopt Hst HWno Hmt)
    as (Hst' & Hby & Htok).
  cbn [with_buffer tokenBuffer] in Htok. unfold W in Htok at 1.
  rewrite longest_key_window in Htok by lia. rewrite HW1 in Htok.
  assert (Hno' : ~ In 35%N (skipn (length (action_token a)) (c :: rest))).
  { intros Hin. apply Hno. now apply (In_skipn (length (action_token a))). }
  destruct (IH _ _ Hst' Hno') as [IHtok IHby].
  split; [|constructor; assumption].
  cbn [List.map]. rewrite IHtok, Htok.
  destruct (longest_key map (loop_bound map) (c :: rest)); reflexivity.
Qed.

(** *** Tokens of one unit *)

Lemma outer_loop_no_toggle fuel rest st tr st' :
  loop_bound map ≤ 1 ->
  outer_loop map options fuel rest st = Some (tr, st') ->
  Forall (fun a => is_toggle a = false) tr.
Proof.
  intros Hm. revert rest st tr st'.
  induction fuel as [|fuel IH]; intros rest st tr st' Hrun; [discriminate|].
  destruct (outer_loop_turn_buffer _ _ _ _ Hrun)
    as [(_ & _ & Heq)|[(L & rest' & _ & _ & _ & Hrec)|
        (st1 & a & st2 & l & st3 & _ & Hmt & Hrec & Heq)]].
  - injection Heq as -> _. constructor.
  - apply (IH _ _ _ _ Hrec).
  - injection Heq as -> _. specialize (IH _ _ _ _ Hrec).
    destruct (match_tokens_cases _ _ _ _ _ _ Hmt)
      as [(_ & -> & _)|(k & tok & Hk & Htok & Hcase)]; [exact IH|].
    destruct Hcase as [(_ & Heq & _)|[(tl & -> & _)|(_ & -> & _)]].
    + apply (f_equal (@length N)) in Heq. rewrite Htok, length_firstn in Heq.
      simpl in Heq. lia.
    + now constructor.
    + now constructor.
Qed.

(** *** Toggled regions *)

Lemma window_run_fuel f1 f2 rest st :
  length rest ≤ f1 -> length rest ≤ f2 ->
  window_run map options f1 rest st = window_run map options f2 rest st.
Proof.
  revert f2 rest st. induction f1 as [|f1 IH]; intros f2 rest st H1 H2.
  - destruct rest; [|simpl in H1; lia]. now destruct f2.
  - destruct rest as [|c rest]; [now destruct f2|].
    destruct f2 as [|f2]; [simpl in H2; lia|].
    cbn [window_run].
    destruct (match_tokens map options (loop_bound map)
                (with_buffer st (firstn (loop_bound map) (c :: rest))))
      as [[a|] st'] eqn:Hmt; [|reflexivity].
    f_equal.
    assert (Ha : 1 ≤ length (action_token a)).
    { pose proof (match_tokens_splits _ _ _ _ Hmt) as Hsplit.
      destruct (loop_bound map) as [|m] eqn:Hm; [discriminate Hmt|].
      destruct (match_tokens_consumes _ _ _ _ _ _ Hmt) as [_ Hshort];
        [lia|cbn [with_buffer tokenBuffer firstn]; discriminate|].
      apply (f_equal (@length N)) in Hsplit. rewrite length_app in Hsplit.
      lia. }
    apply IH; rewrite length_skipn; simpl in H1, H2 |- *; lia.
Qed.

(** The candidates at a [##] outside SGML: the toggle, unless a key of
    [letters] that begins with [#] is found first. *)
Lemma match_tokens_at_toggle n st tl :
  2 ≤ n ->
  tokenBuffer st = (35 :: 35 :: tl)%N ->
  strict_eqb (skippingSGML st) (VBool true) = false ->
  toggledTrans st = true \/ (forall tok, letters map !! (35%N :: tok) = None) ->
  match_tokens map options n st
  = (Some Toggle,
     {| tokenBuffer := tl; hadConsonant := hadConsonant st;
        skippingSGML := skippingSGML st;
        toggledTrans := negb (toggledTrans st) |}).
Proof.
  revert st. induction n as [|n IH]; intros st Hn Hbuf Hsgml Hkeys; [lia|].
  cbn [match_tokens]. unfold substr0, substr_from, sgml_step.
  rewrite Hsgml, Hbuf.
  destruct n as [|n]; [lia|]. cbn [firstn].
  change (str_eqb (35 :: 35 :: firstn n tl)%N (u "<")) with false.
  cbv iota.
  destruct (str_eqb (35 :: 35 :: firstn n tl)%N (u "##")) eqn:Htok;
    [reflexivity|].
  assert (Hn2 : 2 ≤ S n).
  { destruct n as [|n]; [|lia]. cbn [firstn] in Htok. discriminate Htok. }
  assert (Hgo : match_tokens map options (S n)
                  {| tokenBuffer := (35 :: 35 :: tl)%N;
                     hadConsonant := hadConsonant st;
                     skippingSGML := skippingSGML st;
                     toggledTrans := toggledTrans st |}
                = (Some Toggle,
                   {| tokenBuffer := tl; hadConsonant := hadConsonant st;
                      skippingSGML := skippingSGML st;
                      toggledTrans := negb (toggledTrans st) |}))
    by (apply (IH {| tokenBuffer := (35 :: 35 :: tl)%N;
                     hadConsonant := hadConsonant st;
                     skippingSGML := skippingSGML st;
                     toggledTrans := toggledTrans st |} Hn2 eq_refl Hsgml
                  Hkeys)).
  destruct Hkeys as [Htog|Hkeys].
  - rewrite Htog in Hgo |- *. rewrite orb_true_r.
    destruct (letters map !! (35 :: 35 :: firstn n tl)%N); exact Hgo.
  - rewrite Hkeys. exact Hgo.
Qed.

(** The candidates at a unit of a toggled region. *)
Lemma match_tokens_in_region n st c tl :
  1 ≤ n ->
  tokenBuffer st = c :: tl ->
  c <> 35%N -> c <> 60%N ->
  strict_eqb (skippingSGML st) (VBool true) = false ->
  toggledTrans st = true ->
  match_tokens map options n st
  = (Some (Raw [c] (emit_raw options (hadConsonant st) [c])),
     {| tokenBuffer := tl; hadConsonant := false;
        skippingSGML := skippingSGML st; toggledTrans := true |}).
Proof.
  revert st. induction n as [|n IH]; intros st Hn Hbuf H35 H60 Hsgml Htog;
    [lia|].
  cbn [match_tokens]. unfold substr0, substr_from, sgml_step.
  rewrite Hsgml, Hbuf. cbn [firstn].
  assert (Hlt : str_eqb (c :: firstn n tl) (u "<") = false).
  { change (u "<") with [60%N]. cbn [str_eqb].
    destruct (N.eqb_spec c 60) as [->|_]; [now destruct H60|reflexivity]. }
  assert (Hhash : str_eqb (c :: firstn n tl) (u "##") = false).
  { change (u "##") with [35%N; 35%N]. cbn [str_eqb].
    destruct (N.eqb_spec c 35) as [->|_]; [now destruct H35|reflexivity]. }
  rewrite Hlt, Hhash, Htog, orb_true_r.
  assert (Hskip : forall (x : option jstring) A (b : A),
             match x with
             | Some _ => b
             | None => b
             end = b) by (intros [y|]; reflexivity).
  rewrite Hskip.
  destruct n as [|n].
  - cbn [firstn skipn]. reflexivity.
  - apply (IH {| tokenBuffer := c :: tl; hadConsonant := hadConsonant st;
                 skippingSGML := skippingSGML st; toggledTrans := true |}
              ltac:(lia) eq_refl H35 H60 Hsgml eq_refl).
Qed.

Lemma window_run_region f body rest sgml b :
  1 ≤ loop_bound map ->
  ~ In 35%N body -> ~ In 60%N body ->
  strict_eqb sgml (VBool true) = false ->
  length (body ++ rest) ≤ f ->
  window_run map options f (body ++ rest)
    {| tokenBuffer := b; hadConsonant := false; skippingSGML := sgml;
       toggledTrans := true |}
  = (List.map (fun c => Raw [c] [PToken [c]]) body
     ++ window_run map options f rest
          {| tokenBuffer := []; hadConsonant := false; skippingSGML := sgml;
             toggledTrans := true |})%list.
Proof.
  intros Hm. revert f b.
  induction body as [|c body IH]; intros f b H35 H60 Hsgml Hf.
  - apply (window_run_with_buffer f rest
             {| tokenBuffer := []; hadConsonant := false;
                skippingSGML := sgml; toggledTrans := true |} b).
  - destruct f as [|f]; [simpl in Hf; lia|].
    cbn [app List.map].
    assert (Hwin : exists tl,
               firstn (loop_bound map) (c :: body ++ rest) = c :: tl).
    { destruct (loop_bound map); [lia|]. cbn [firstn]. eauto. }
    destruct Hwin as (tl & Hwin).
    assert (Hc35 : c <> 35%N) by (intros ->; apply H35; now left).
    assert (Hc60 : c <> 60%N) by (intros ->; apply H60; now left).
    pose proof (match_tokens_in_region (loop_bound map)
                  (with_buffer
                     {| tokenBuffer := b; hadConsonant := false;
                        skippingSGML := sgml; toggledTrans := true |}
                     (firstn (loop_bound map) (c :: body ++ rest)))
                  c tl Hm Hwin Hc35 Hc60 Hsgml eq_refl) as Hmt.
    cbn [with_buffer hadConsonant skippingSGML toggledTrans] in Hmt.
    rewrite (window_run_step f (c :: body ++ rest) _ _ _ ltac:(discriminate)
               Hmt).
    cbn [action_token length skipn]. unfold emit_raw. cbn [andb app].
    f_equal.
    rewrite IH;
      [|intros Hin; apply H35; now right|intros Hin; apply H60; now right
       |exact Hsgml|simpl in Hf; lia].
    f_equal. apply window_run_fuel; simpl in Hf; rewrite length_app in Hf; lia.
Qed.

(** *** SGML *)

Lemma skip_first {A} (x : option jstring) (b : A) :
  match x with
  | Some _ => b
  | None => b
  end = b.
Proof. now destruct x. Qed.

(** The candidates at a unit inside SGML other than [>]. *)
Lemma match_tokens_in_sgml n st c tl :
  1 ≤ n ->
  tokenBuffer st = c :: tl ->
  c <> 62%N ->
  skippingSGML st = VBool true ->
  match_tokens map options n st
  = (Some (Raw [c] (emit_raw options (hadConsonant st) [c])),
     {| tokenBuffer := tl; hadConsonant := false;
        skippingSGML := VBool true; toggledTrans := toggledTrans st |}).
Proof.
  revert st. induction n as [|n IH]; intros st Hn Hbuf H62 Hsgml; [lia|].
  cbn [match_tokens]. unfold substr0, substr_from, sgml_step.
  rewrite Hsgml, Hbuf. cbn [firstn strict_eqb Bool.eqb].
  assert (Hgt : str_eqb (c :: firstn n tl) (u ">") = false).
  { change (u ">") with [62%N]. cbn [str_eqb].
    destruct (N.eqb_spec c 62) as [->|_]; [now destruct H62|reflexivity]. }
  rewrite Hgt. cbn [negb truthy_val orb]. rewrite skip_first.
  destruct n as [|n].
  - reflexivity.
  - apply (IH {| tokenBuffer := c :: tl; hadConsonant := hadConsonant st;
                 skippingSGML := VBool true;
                 toggledTrans := toggledTrans st |}
              ltac:(lia) eq_refl H62 eq_refl).
Qed.

(** The candidates at a [<] outside SGML, with [skip_sgml] on. *)
Lemma match_tokens_open_tag n st tl :
  1 ≤ n ->
  tokenBuffer st = (60 :: tl)%N ->
  strict_eqb (skippingSGML st) (VBool true) = false ->
  optSkipSGML options = VBool true ->
  (forall tok, letters map !! (60%N :: tok) = None) ->
  match_tokens map options n st
  = (Some (Raw [60%N] (emit_raw options (hadConsonant st) [60%N])),
     {| tokenBuffer := tl; hadConsonant := false;
        skippingSGML := VBool true; toggledTrans := toggledTrans st |}).
Proof.
  revert st. induction n as [|n IH]; intros st Hn Hbuf Hsgml Hopt Hkeys; [lia|].
  cbn [match_tokens]. unfold substr0, substr_from, sgml_step.
  rewrite Hsgml, Hbuf, Hopt. cbn [firstn].
  destruct (str_eqb (60 :: firstn n tl)%N (u "<")) eqn:Hlt.
  - cbn [truthy_val orb]. rewrite skip_first.
    destruct n as [|n]; [reflexivity|].
    apply (match_tokens_in_sgml (S n)
             {| tokenBuffer := (60 :: tl)%N; hadConsonant := hadConsonant st;
                skippingSGML := VBool true;
                toggledTrans := toggledTrans st |} 60%N tl
             ltac:(lia) eq_refl ltac:(discriminate) eq_refl).
  - change (str_eqb (60 :: firstn n tl)%N (u "##")) with false. cbv iota.
    rewrite Hkeys.
    destruct n as [|n]; [discriminate Hlt|].
    apply (IH {| tokenBuffer := (60 :: tl)%N; hadConsonant := hadConsonant st;
                 skippingSGML := skippingSGML st;
                 toggledTrans := toggledTrans st |}
              ltac:(lia) eq_refl Hsgml Hopt Hkeys).
Qed.

(** The candidates at a buffer of one unit that is no key. *)
Lemma match_tokens_last_unit n st c :
  1 ≤ n ->
  tokenBuffer st = [c] ->
  c <> 60%N ->
  strict_eqb (skippingSGML st) (VBool true) = false ->
  letters map !! [c] = None ->
  match_tokens map options n st
  = (Some (Raw [c] (emit_raw options (hadConsonant st) [c])),
     {| tokenBuffer := []; hadConsonant := false;
        skippingSGML := skippingSGML st; toggledTrans := toggledTrans st |}).
Proof.
  revert st. induction n as [|n IH]; intros st Hn Hbuf H60 Hsgml Hkey; [lia|].
  cbn [match_tokens]. unfold substr0, substr_from, sgml_step.
  rewrite Hsgml, Hbuf.
  assert (Htok : firstn (S n) [c] = [c]) by (cbn [firstn]; now destruct n).
  rewrite Htok.
  assert (Hlt : str_eqb [c] (u "<") = false).
  { change (u "<") with [60%N]. cbn [str_eqb].
    destruct (N.eqb_spec c 60) as [->|_]; [now destruct H60|reflexivity]. }
  rewrite Hlt. change (str_eqb [c] (u "##")) with (N.eqb c 35 && false).
  rewrite andb_false_r, Hkey.
  destruct n as [|n]; [reflexivity|].
  apply (IH {| tokenBuffer := [c]; hadConsonant := hadConsonant st;
               skippingSGML := skippingSGML st;
               toggledTrans := toggledTrans st |}
            ltac:(lia) eq_refl H60 Hsgml Hkey).
Qed.

(** The candidates at the [>] that ends SGML. *)
Lemma match_tokens_close_tag n st tl :
  1 ≤ n ->
  tokenBuffer st = (62 :: tl)%N ->
  skippingSGML st = VBool true ->
  toggledTrans st = false ->
  letters map !! [62%N] = None ->
  match_tokens map options n st
  = (Some (Raw [62%N] (emit_raw options (hadConsonant st) [62%N])),
     {| tokenBuffer := tl; hadConsonant := false;
        skippingSGML := VBool false; toggledTrans := false |}).
Proof.
  revert st. induction n as [|n IH]; intros st Hn Hbuf Hsgml Htog Hkey; [lia|].
  cbn [match_tokens]. unfold substr0, substr_from, sgml_step.
  rewrite Hsgml, Hbuf, Htog. cbn [firstn strict_eqb Bool.eqb].
  destruct (str_eqb (62 :: firstn n tl)%N (u ">")) eqn:Hgt.
  - apply JSFacts.str_eqb_spec in Hgt. change (u ">") with [62%N] in Hgt.
    injection Hgt as Hgt. rewrite Hgt.
    cbn [negb truthy_val orb]. rewrite Hkey.
    destruct n as [|n]; [reflexivity|].
    assert (Htl : tl = []) by (destruct tl; [reflexivity|discriminate Hgt]).
    subst tl.
    apply (match_tokens_last_unit (S n)
             {| tokenBuffer := [62%N]; hadConsonant := hadConsonant st;
                skippingSGML := VBool false; toggledTrans := false |} 62%N
             ltac:(lia) eq_refl ltac:(discriminate) eq_refl Hkey).
  - cbn [negb truthy_val orb]. rewrite skip_first.
    destruct n as [|n]; [discriminate Hgt|].
    apply (IH {| tokenBuffer := (62 :: tl)%N; hadConsonant := hadConsonant st;
                 skippingSGML := VBool true; toggledTrans := false |}
              ltac:(lia) eq_refl eq_refl eq_refl Hkey).
Qed.

Lemma window_run_sgml f body rest tog b :
  1 ≤ loop_bound map ->
  ~ In 62%N body ->
  length (body ++ rest) ≤ f ->
  window_run map options f (body ++ rest)
    {| tokenBuffer := b; hadConsonant := false; skippingSGML := VBool true;
       toggledTrans := tog |}
  = (List.map (fun c => Raw [c] [PToken [c]]) body
     ++ window_run map options f rest
          {| tokenBuffer := []; hadConsonant := false;
             skippingSGML := VBool true; toggledTrans := tog |})%list.
Proof.
  intros Hm. revert f b.
  induction body as [|c body IH]; intros f b H62 Hf.
  - apply (window_run_with_buffer f rest
             {| tokenBuffer := []; hadConsonant := false;
                skippingSGML := VBool true; toggledTrans := tog |} b).
  - destruct f as [|f]; [simpl in Hf; lia|].
    cbn [app List.map].
    assert (Hwin : exists tl,
               firstn (loop_bound map) (c :: body ++ rest) = c :: tl).
    { destruct (loop_bound map); [lia|]. cbn [firstn]. eauto. }
    destruct Hwin as (tl & Hwin).
    assert (Hc62 : c <> 62%N) by (intros ->; apply H62; now left).
    pose proof (match_tokens_in_sgml (loop_bound map)
                  (with_buffer
                     {| tokenBuffer := b; hadConsonant := false;
                        skippingSGML := VBool true; toggledTrans := tog |}
                     (firstn (loop_bound map) (c :: body ++ rest)))
                  c tl Hm Hwin Hc62 eq_refl) as Hmt.
    cbn [with_buffer hadConsonant skippingSGML toggledTrans] in Hmt.
    rewrite (window_run_step f (c :: body ++ rest) _ _ _ ltac:(discriminate)
               Hmt).
    cbn [action_token length skipn]. unfold emit_raw. cbn [andb app].
    f_equal.
    rewrite IH; [|intros Hin; apply H62; now right|simpl in Hf; lia].
    f_equal. apply window_run_fuel; simpl in Hf; rewrite length_app in Hf; lia.
Qed.

End Engine.

(** X1.  The Roman engine reads every unit of its input exactly once:
    when [maxTokenLength] is at least 1, the tokens of a run in order, the
    toggles [##] included, concatenate to the input.  When
    [maxTokenLength] is 0 or [-Infinity] the loop reads the input away:
    there is no action and nothing is pushed. *)
Theorem roman_tokens_cover_input (map : compiled)
    (options : gmap string jsval) (fuel : nat) (data : jstring)
    (tr : list action) (st : state) :
  outer_loop map options fuel data initial = Some (tr, st) ->
  (1 ≤ loop_bound map -> concat (List.map action_token tr) = data) /\
  (loop_bound map = 0 -> tr = [] /\ buf_of options (tr, st) = []).
Proof.
  intros Hrun. split.
  - intros Hm.
    apply (outer_loop_consumes map options fuel data initial tr st Hm); auto.
    now left.
  - intros Hm.
    destruct (outer_loop_no_tokens map options fuel data initial tr st Hm
                eq_refl Hrun) as [-> ->].
    split; reflexivity.
Qed.

(** The tokens of a run on the fragment of Harvard-Kyoto. *)
Lemma roman_tokens_cover_input_witness :
  exists m tr st,
    makeMap Demo.schemes (u "hk") (u "devanagari") ∅ = Ok m /\
    outer_loop m ∅ (enough_fuel (u "kAmar k")) (u "kAmar k") initial
    = Some (tr, st) /\
    loop_bound m = 1 /\
    concat (List.map action_token tr) = u "kAmar k".
Proof.
  assert (H : exists m tr st,
             makeMap Demo.schemes (u "hk") (u "devanagari") ∅ = Ok m /\
             outer_loop m ∅ (enough_fuel (u "kAmar k")) (u "kAmar k") initial
             = Some (tr, st) /\
             loop_bound m = 1).
  { eexists _, _, _. split; [vm_compute; reflexivity|].
    split; vm_compute; reflexivity. }
  destruct H as (m & tr & st & Hm & Hrun & Hb).
  exists m, tr, st. split; [exact Hm|]. split; [exact Hrun|].
  split; [exact Hb|].
  apply (proj1 (roman_tokens_cover_input m ∅ _ _ tr st Hrun)).
  rewrite Hb. lia.
Defined.

(** X14.  The token buffer of the Roman engine is a window on the
    input: whenever the inner loop runs, the buffer holds the next
    [maxTokenLength] units of the input that is left (all of it near the
    end), and the loop goes on right after the token it consumed.  So a
    run is the run of the inner loop on the successive windows. *)
Theorem roman_buffer_is_window (map : compiled)
    (options : gmap string jsval) (fuel : nat) (data : jstring)
    (tr : list action) (st : state) :
  1 ≤ loop_bound map ->
  outer_loop map options fuel data initial = Some (tr, st) ->
  tr = window_run map options (length data) data initial.
Proof.
  intros Hm Hrun.
  apply (outer_loop_window map options fuel data initial tr st (length data)
           Hm (or_introl eq_refl) Hrun).
  reflexivity.
Qed.

(** A run on the fragment of Harvard-Kyoto. *)
Lemma roman_buffer_is_window_witness :
  exists m tr st,
    makeMap Demo.schemes (u "hk") (u "devanagari") ∅ = Ok m /\
    outer_loop m ∅ (enough_fuel (u "kAma")) (u "kAma") initial
    = Some (tr, st) /\
    tr = window_run m ∅ 4 (u "kAma") initial.
Proof.
  assert (H : exists m tr st,
             makeMap Demo.schemes (u "hk") (u "devanagari") ∅ = Ok m /\
             outer_loop m ∅ (enough_fuel (u "kAma")) (u "kAma") initial
             = Some (tr, st) /\
             loop_bound m = 1).
  { eexists _, _, _. split; [vm_compute; reflexivity|].
    split; vm_compute; reflexivity. }
  destruct H as (m & tr & st & Hm & Hrun & Hb).
  exists m, tr, st. split; [exact Hm|]. split; [exact Hrun|].
  refine (roman_buffer_is_window m ∅ _ (u "kAma") tr st _ Hrun).
  rewrite Hb. lia.
Defined.

(** X16.  When no token of the source is longer than one unit
    ([maxTokenLength] at most 1), the Roman engine never takes [##] for
    the toggle: no action of a run is a toggle, and every [#] is read
    as a unit like any other. *)
Theorem roman_short_tokens_never_toggle (map : compiled)
    (options : gmap string jsval) (fuel : nat) (data : jstring)
    (tr : list action) (st : state) :
  loop_bound map ≤ 1 ->
  outer_loop map options fuel data initial = Some (tr, st) ->
  Forall (fun a => is_toggle a = false) tr /\
  (loop_bound map = 1 ->
   Forall (fun a => length (action_token a) = 1) tr /\
   List.map action_token tr = List.map (fun c => [c]) data).
Proof.
  intros Hm Hrun.
  pose proof (outer_loop_no_toggle map options fuel data initial tr st Hm Hrun)
    as Hno.
  split; [exact Hno|]. intros H1.
  assert (Hone : Forall (fun a => length (action_token a) = 1) tr).
  { assert (Hwin : tr = window_run map options (length data) data initial).
    { apply (outer_loop_window map options fuel data initial tr st
               (length data)); [lia|now left|exact Hrun|reflexivity]. }
    rewrite Hwin. clear Hwin Hno Hrun.
    generalize (length data) as f. generalize initial as s. revert data.
    intros data s f. revert data s.
    induction f as [|f IH]; intros data s; [constructor|].
    destruct data as [|c data]; [constructor|].
    cbn [window_run]. rewrite H1. change (firstn 1 (c :: data)) with [c].
    destruct (match_tokens map options 1 (with_buffer s [c])) as [[a|] s']
      eqn:Hmt; [|constructor].
    constructor; [|apply IH].
    pose proof (match_tokens_splits _ _ _ _ _ _ Hmt) as Hsplit.
    cbn [with_buffer tokenBuffer] in Hsplit.
    destruct (match_tokens_consumes _ _ _ _ _ _ Hmt (Nat.le_refl 1))
      as [_ Hshort]; [discriminate|].
    cbn [with_buffer tokenBuffer length] in Hshort.
    apply (f_equal (@length N)) in Hsplit. rewrite length_app in Hsplit.
    cbn [length] in Hsplit. destruct (action_token a); simpl in *; lia. }
  split; [exact Hone|].
  pose proof (outer_loop_consumes map options fuel data initial tr st) as Hcat.
  specialize (Hcat ltac:(lia) (or_introl eq_refl) Hrun).
  cbn [initial tokenBuffer app] in Hcat. rewrite <- Hcat.
  clear Hcat Hrun Hno. induction Hone as [|a tr Ha _ IH]; [reflexivity|].
  cbn [List.map concat]. rewrite List.map_app, <- IH. f_equal.
  destruct (action_token a) as [|c [|d l]]; simpl in Ha; try lia.
  reflexivity.
Qed.

(** The fragment of Harvard-Kyoto has tokens of one unit only. *)
Lemma roman_short_tokens_never_toggle_witness :
  exists m tr st,
    makeMap Demo.schemes (u "hk") (u "devanagari") ∅ = Ok m /\
    outer_loop m ∅ (enough_fuel (u "k##a##")) (u "k##a##") initial
    = Some (tr, st) /\
    Forall (fun a => is_toggle a = false) tr.
Proof.
  assert (H : exists m tr st,
             makeMap Demo.schemes (u "hk") (u "devanagari") ∅ = Ok m /\
             outer_loop m ∅ (enough_fuel (u "k##a##")) (u "k##a##") initial
             = Some (tr, st) /\
             loop_bound m = 1).
  { eexists _, _, _. split; [vm_compute; reflexivity|].
    split; vm_compute; reflexivity. }
  destruct H as (m & tr & st & Hm & Hrun & Hb).
  exists m, tr, st. split; [exact Hm|]. split; [exact Hrun|].
  refine (proj1 (roman_short_tokens_never_toggle m ∅ _ (u "k##a##") tr st _
                   Hrun)).
  rewrite Hb. lia.
Defined.

(** X19.  The toggle of the Roman engine: when [maxTokenLength] is at
    least 2 and no key of [letters] begins with [#], an input that
    begins with [##], a body without [#] and [<], and [##] is read as
    the toggle, the units of the body one by one, each pushed as it is,
    and the toggle; after it the run goes on as a run from the start on
    the rest of the input. *)
Theorem roman_toggled_region (map : compiled) (options : gmap string jsval)
    (fuel : nat) (body post : jstring) (tr : list action) (st : state) :
  2 ≤ loop_bound map ->
  (forall tok, letters map !! (35%N :: tok) = None) ->
  ~ In 35%N body -> ~ In 60%N body ->
  outer_loop map options fuel
    (35 :: 35 :: body ++ 35 :: 35 :: post)%N initial = Some (tr, st) ->
  exists tr' st',
    outer_loop map options (enough_fuel post) post initial = Some (tr', st') /\
    tr = (Toggle :: List.map (fun c => Raw [c] [PToken [c]]) body
            ++ Toggle :: tr')%list.
Proof.
  intros Hm Hkeys H35 H60 Hrun.
  assert (Hm1 : 1 ≤ loop_bound map) by lia.
  destruct (outer_loop_terminates map options (enough_fuel post) post initial)
    as [[tr' st'] Hpost]; [now left|unfold enough_fuel; simpl; lia|].
  exists tr', st'. split; [exact Hpost|].
  pose proof (outer_loop_window map options _ post initial tr' st'
                (length post) Hm1 (or_introl eq_refl) Hpost (Nat.le_refl _))
    as Htr'.
  cbn [initial tokenBuffer app] in Htr'.
  rewrite (outer_loop_window map options fuel _ initial tr st _ Hm1
             (or_introl eq_refl) Hrun (Nat.le_refl _)).
  cbn [initial tokenBuffer app]. fold initial.
  set (data := (35 :: 35 :: body ++ 35 :: 35 :: post)%N).
  assert (Hwin : forall rest,
             exists tl, firstn (loop_bound map) (35 :: 35 :: rest)%N
                        = (35 :: 35 :: tl)%N).
  { intros rest. destruct (loop_bound map) as [|[|m]]; try lia.
    cbn [firstn]. eauto. }
  destruct (Hwin (body ++ 35 :: 35 :: post)%N) as (tl0 & Hw0).
  destruct (Hwin post) as (tl1 & Hw1).
  pose proof (match_tokens_at_toggle map options (loop_bound map)
                (with_buffer initial (firstn (loop_bound map) data)) tl0 Hm
                Hw0 eq_refl (or_intror Hkeys)) as Hmt0.
  cbn [with_buffer initial hadConsonant skippingSGML toggledTrans negb]
    in Hmt0.
  change (length data) with (S (S (length (body ++ 35 :: 35 :: post)%N))).
  rewrite (window_run_step map options _ data initial _ _
             ltac:(discriminate) Hmt0).
  cbn [action_token length]. change (skipn 2 data)
    with (body ++ 35 :: 35 :: post)%N%list.
  f_equal.
  rewrite (window_run_region map options _ body (35 :: 35 :: post)%N
             (VBool false) tl0 Hm1 H35 H60 eq_refl) by lia.
  f_equal.
  pose proof (match_tokens_at_toggle map options (loop_bound map)
                (with_buffer
                   {| tokenBuffer := []; hadConsonant := false;
                      skippingSGML := VBool false; toggledTrans := true |}
                   (firstn (loop_bound map) (35 :: 35 :: post)%N)) tl1 Hm
                Hw1 eq_refl (or_intror Hkeys)) as Hmt1.
  cbn [with_buffer hadConsonant skippingSGML toggledTrans negb] in Hmt1.
  rewrite (window_run_step map options _ (35 :: 35 :: post)%N _ _ _
             ltac:(discriminate) Hmt1).
  f_equal. cbn [action_token length skipn].
  rewrite Htr'.
  rewrite (window_run_with_buffer map options _ post initial tl1).
  apply window_run_fuel; rewrite ?length_app; simpl; lia.
Qed.

(** The scheme with the consonant [kS]: a region in front of [ka]. *)
Lemma roman_toggled_region_witness :
  exists m tr st tr' st',
    makeMap Demo.schemes (u "shortcut") (u "devanagari") ∅ = Ok m /\
    outer_loop m ∅ (enough_fuel (u "##ka##ka")) (u "##ka##ka") initial
    = Some (tr, st) /\
    outer_loop m ∅ (enough_fuel (u "ka")) (u "ka") initial = Some (tr', st') /\
    tr = (Toggle :: List.map (fun c => Raw [c] [PToken [c]]) (u "ka")
            ++ Toggle :: tr')%list.
Proof.
  assert (H : exists m tr st,
             makeMap Demo.schemes (u "shortcut") (u "devanagari") ∅ = Ok m /\
             outer_loop m ∅ (enough_fuel (u "##ka##ka")) (u "##ka##ka") initial
             = Some (tr, st) /\
             loop_bound m = 2 /\
             letters m
             = list_to_map [(u "a", [0x905%N]); (u "k", [0x915%N]);
                            (u "kS", Demo.ksha)]).
  { eexists _, _, _. split; [vm_compute; reflexivity|].
    split; [vm_compute; reflexivity|]. split; vm_compute; reflexivity. }
  destruct H as (m & tr & st & Hm & Hrun & Hb & Hletters).
  assert (Hkeys : forall tok, letters m !! (35%N :: tok) = None).
  { intros tok. rewrite Hletters. cbn [list_to_map foldr uncurry].
    rewrite !lookup_insert_ne by discriminate. apply lookup_empty. }
  destruct (roman_toggled_region m ∅ (enough_fuel (u "##ka##ka")) (u "ka")
              (u "ka") tr st)
    as (tr' & st' & Hpost & Htr);
    [rewrite Hb; lia|exact Hkeys
    |simpl; intros [H|[H|[]]]; discriminate H
    |simpl; intros [H|[H|[]]]; discriminate H
    |exact Hrun|].
  exists m, tr, st, tr', st'. auto.
Defined.

(** X21.  SGML with [skip_sgml] on: when no key of [letters] begins
    with [<] and [>] is no key, an input that begins with [<], a body
    without [>], and [>] is pushed unit by unit as it is -- the [#] and
    [<] of the body included -- and after the [>] the run goes on as a
    run from the start on the rest of the input. *)
Theorem roman_sgml_region (map : compiled) (options : gmap string jsval)
    (fuel : nat) (body post : jstring) (tr : list action) (st : state) :
  1 ≤ loop_bound map ->
  get options "skip_sgml" = VBool true ->
  (forall tok, letters map !! (60%N :: tok) = None) ->
  letters map !! [62%N] = None ->
  ~ In 62%N body ->
  outer_loop map options fuel (60 :: body ++ 62 :: post)%N initial
  = Some (tr, st) ->
  exists tr' st',
    outer_loop map options (enough_fuel post) post initial = Some (tr', st') /\
    tr = (List.map (fun c => Raw [c] [PToken [c]]) (60 :: body ++ [62])%N
            ++ tr')%list.
Proof.
  intros Hm Hopt Hkeys Hclose H62 Hrun.
  destruct (outer_loop_terminates map options (enough_fuel post) post initial)
    as [[tr' st'] Hpost]; [now left|unfold enough_fuel; simpl; lia|].
  exists tr', st'. split; [exact Hpost|].
  pose proof (outer_loop_window map options _ post initial tr' st'
                (length post) Hm (or_introl eq_refl) Hpost (Nat.le_refl _))
    as Htr'.
  cbn [initial tokenBuffer app] in Htr'.
  rewrite (outer_loop_window map options fuel _ initial tr st _ Hm
             (or_introl eq_refl) Hrun (Nat.le_refl _)).
  cbn [initial tokenBuffer app]. fold initial.
  set (data := (60 :: body ++ 62 :: post)%N).
  assert (Hwin : forall (c : N) (rest : jstring),
             exists tl, firstn (loop_bound map) (c :: rest) = c :: tl).
  { intros c rest. destruct (loop_bound map) as [|m]; try lia.
    cbn [firstn]. eauto. }
  destruct (Hwin 60%N (body ++ 62 :: post)%N) as (tl0 & Hw0).
  destruct (Hwin 62%N post) as (tl1 & Hw1).
  pose proof (match_tokens_open_tag map options (loop_bound map)
                (with_buffer initial (firstn (loop_bound map) data)) tl0 Hm
                Hw0 eq_refl Hopt Hkeys) as Hmt0.
  cbn [with_buffer initial hadConsonant skippingSGML toggledTrans] in Hmt0.
  change (length data) with (S (length (body ++ 62 :: post)%N)).
  rewrite (window_run_step map options _ data initial _ _
             ltac:(discriminate) Hmt0).
  cbn [action_token length]. change (skipn 1 data)
    with (body ++ 62 :: post)%N%list.
  unfold emit_raw at 1. cbn [andb app List.map]. f_equal.
  rewrite (window_run_sgml map options _ body (62 :: post)%N false tl0 Hm H62)
    by lia.
  rewrite List.map_app, <- app_assoc. f_equal. cbn [List.map app].
  pose proof (match_tokens_close_tag map options (loop_bound map)
                (with_buffer
                   {| tokenBuffer := []; hadConsonant := false;
                      skippingSGML := VBool true; toggledTrans := false |}
                   (firstn (loop_bound map) (62 :: post)%N)) tl1 Hm
                Hw1 eq_refl eq_refl Hclose) as Hmt1.
  cbn [with_buffer hadConsonant skippingSGML toggledTrans] in Hmt1.
  assert (Hlen : exists f, length (body ++ 62 :: post)%N = S f /\
                           length post ≤ f).
  { rewrite length_app. cbn [length]. exists (length body + length post).
    split; lia. }
  destruct Hlen as (f & -> & Hf).
  rewrite (window_run_step map options _ (62 :: post)%N _ _ _
             ltac:(discriminate) Hmt1).
  unfold emit_raw. cbn [andb app]. f_equal. cbn [action_token length skipn].
  rewrite Htr'.
  rewrite (window_run_with_buffer map options _ post initial tl1).
  apply window_run_fuel; lia.
Qed.

(** A tag in front of [ka] on the fragment of Harvard-Kyoto. *)
Lemma roman_sgml_region_witness :
  exists m tr st tr' st',
    makeMap Demo.schemes (u "hk") (u "devanagari") ∅ = Ok m /\
    outer_loop m {[ "skip_sgml"%string := VBool true ]}
      (enough_fuel (u "<ka>ka")) (u "<ka>ka") initial = Some (tr, st) /\
    outer_loop m {[ "skip_sgml"%string := VBool true ]}
      (enough_fuel (u "ka")) (u "ka") initial = Some (tr', st') /\
    tr = (List.map (fun c => Raw [c] [PToken [c]]) (u "<ka>") ++ tr')%list.
Proof.
  assert (H : exists m tr st,
             makeMap Demo.schemes (u "hk") (u "devanagari") ∅ = Ok m /\
             outer_loop m {[ "skip_sgml"%string := VBool true ]}
               (enough_fuel (u "<ka>ka")) (u "<ka>ka") initial
             = Some (tr, st) /\
             loop_bound m = 1 /\
             letters m
             = list_to_map [(u "a", [0x905%N]); (u "A", [0x906%N]);
                            (u "i", [0x907%N]); (u "H", [0x903%N]);
                            (u "k", [0x915%N]); (u "m", [0x92e%N]);
                            (u "r", [0x930%N])]).
  { eexists _, _, _. split; [vm_compute; reflexivity|].
    split; [vm_compute; reflexivity|]. split; vm_compute; reflexivity. }
  destruct H as (m & tr & st & Hm & Hrun & Hb & Hletters).
  assert (Hkeys : forall tok, letters m !! (60%N :: tok) = None).
  { intros tok. rewrite Hletters. cbn [list_to_map foldr uncurry].
    rewrite !lookup_insert_ne by discriminate. apply lookup_empty. }
  assert (Hclose : letters m !! [62%N] = None).
  { rewrite Hletters. cbn [list_to_map foldr uncurry].
    rewrite !lookup_insert_ne by discriminate. apply lookup_empty. }
  destruct (roman_sgml_region m {[ "skip_sgml"%string := VBool true ]}
              (enough_fuel (u "<ka>ka")) (u "ka") (u "ka") tr st)
    as (tr' & st' & Hpost & Htr);
    [rewrite Hb; lia|reflexivity|exact Hkeys|exact Hclose
    |simpl; intros [H|[H|[]]]; discriminate H
    |exact Hrun|].
  exists m, tr, st, tr', st'. auto.
Defined.

End RomanMore.

(** ** More on the Brahmic engine *)

Module BrahmicMore.
Import MakeMap Brahmic BrahmicMoreSpec.

Section Engine.
Variable map : compiled.

(** Without [#] and with a Brahmic target the state never changes. *)
Lemma step_unitwise L :
  toRoman map = false ->
  L <> hash ->
  step map initial L = ([unit_rendering map L], initial).
Proof.
  intros Hto Hne. unfold step, unit_rendering.
  apply N.eqb_neq in Hne. unfold hash in Hne. rewrite Hne, Hto.
  cbn [initial skippingTrans danglingHash hadRomanConsonant].
  destruct (marks map !! [L]) as [temp|]; [reflexivity|].
  destruct (letters map !! [L]) as [[|c temp]|]; reflexivity.
Qed.

Lemma loop_unitwise data :
  toRoman map = false ->
  ~ In hash data ->
  loop map data initial = List.map (unit_rendering map) data.
Proof.
  intros Hto. induction data as [|L data IH]; intros Hno; [reflexivity|].
  cbn [loop List.map]. rewrite step_unitwise; [|exact Hto|].
  - cbn [app]. f_equal. apply IH. intros Hin. apply Hno. now right.
  - intros ->. apply Hno. now left.
Qed.

(** Inside a toggled region every unit other than [#] is pushed as it
    is. *)
Lemma loop_skipping body rest st :
  skippingTrans st = true ->
  danglingHash st = false ->
  hadRomanConsonant st = false ->
  ~ In hash body ->
  loop map (body ++ rest) st
  = (List.map (fun L => [L]) body ++ loop map rest st)%list.
Proof.
  intros Hskip Hd Hh. induction body as [|L body IH]; intros Hno;
    [reflexivity|].
  cbn [app loop List.map]. unfold step.
  assert (Hne : N.eqb L 35 = false).
  { apply N.eqb_neq. intros ->. apply Hno. now left. }
  rewrite Hne, Hskip. cbn [app]. f_equal. apply IH.
  intros Hin. apply Hno. now right.
Qed.

(** Outside a toggled region a unit other than [#] leaves nothing
    dangling and opens no region. *)
Lemma step_outside st L :
  N.eqb L 35 = false ->
  danglingHash st = false ->
  skippingTrans st = false ->
  danglingHash (snd (step map st L)) = false /\
  skippingTrans (snd (step map st L)) = false.
Proof.
  intros Hne Hd Hs. unfold step. rewrite Hne, Hs.
  destruct (marks map !! [L]) as [temp|]; [now split|].
  destruct (letters map !! [L]) as [[|c temp]|]; now split.
Qed.

(** The loop up to the first [#]: the pending short a is pushed at the
    [#] as it is at the end of the input. *)
Lemma loop_before_hash pre tl st :
  danglingHash st = false ->
  skippingTrans st = false ->
  ~ In hash pre ->
  loop map (pre ++ hash :: tl) st
  = (loop map pre st
       ++ loop map tl {| danglingHash := true; hadRomanConsonant := false;
                         skippingTrans := false |})%list.
Proof.
  revert st. induction pre as [|L pre IH]; intros st Hd Hs Hno.
  - cbn [app loop]. unfold step, hash. cbn [N.eqb Pos.eqb].
    rewrite Hd, Hs. reflexivity.
  - assert (Hne : N.eqb L 35 = false).
    { apply N.eqb_neq. intros ->. apply Hno. now left. }
    assert (Hno' : ~ In hash pre) by (intros Hin; apply Hno; now right).
    cbn [app loop].
    destruct (step_outside st L Hne Hd Hs) as [Hd' Hs'].
    destruct (step map st L) as [out st'] eqn:Hstep. cbn [snd] in Hd', Hs'.
    rewrite (IH st' Hd' Hs' Hno'). now rewrite app_assoc.
Qed.

Lemma concat_units (body : jstring) :
  concat (List.map (fun L => [L]) body) = body.
Proof. induction body as [|L body IH]; [reflexivity|]. cbn. now rewrite IH. Qed.

(** A region in an input that is otherwise free of [#] up to it. *)
Lemma loop_region pre body rest :
  ~ In hash pre ->
  ~ In hash body ->
  loop map (pre ++ hash :: hash :: body ++ hash :: hash :: rest) initial
  = (loop map pre initial
       ++ List.map (fun L => [L]) body ++ loop map rest initial)%list.
Proof.
  intros Hpre Hbody.
  rewrite (loop_before_hash pre _ initial eq_refl eq_refl Hpre). f_equal.
  unfold hash in *.
  change (loop map (35 :: body ++ 35 :: 35 :: rest)
            {| danglingHash := true; hadRomanConsonant := false;
               skippingTrans := false |})
    with (loop map (body ++ 35 :: 35 :: rest)
            {| danglingHash := false; hadRomanConsonant := false;
               skippingTrans := true |}).
  rewrite (loop_skipping body (35 :: 35 :: rest)
             {| danglingHash := false; hadRomanConsonant := false;
                skippingTrans := true |} eq_refl eq_refl eq_refl Hbody).
  reflexivity.
Qed.

Lemma loop_reading data st :
  danglingHash st = false ->
  skippingTrans st = false ->
  ~ In hash data ->
  loop map data st
  = (short_a_before map (hadRomanConsonant st) data ++ reading map data)%list.
Proof.
  revert st. induction data as [|L data IH]; intros st Hd Hs Hno.
  - cbn [loop reading short_a_before]. rewrite app_nil_r.
    now destruct (hadRomanConsonant st).
  - assert (Hne : N.eqb L 35 = false).
    { apply N.eqb_neq. intros ->. apply Hno. now left. }
    assert (Hno' : ~ In hash data) by (intros Hin; apply Hno; now right).
    cbn [loop reading]. unfold step. rewrite Hne, Hs, Hd.
    unfold short_a_before at 1, is_mark, unit_rendering, bare_consonant.
    destruct (marks map !! [L]) as [temp|] eqn:Hm.
    + rewrite IH by (try reflexivity; assumption).
      cbn [hadRomanConsonant short_a_before app].
      now destruct (hadRomanConsonant st).
    + destruct (letters map !! [L]) as [[|c temp]|];
        rewrite IH by (try reflexivity; assumption);
        cbn [hadRomanConsonant short_a_before app];
        now destruct (hadRomanConsonant st).
Qed.

End Engine.

(** X3.  Brahmic to Brahmic is unit by unit: on an input without [#]
    the result is the concatenation of the renderings of its units (the
    mark, else the non-empty letter, else the unit itself), so the result
    of a concatenation is the concatenation of the results. *)
Theorem brahmic_to_brahmic_unitwise (schemes : gmap jstring scheme)
    (map : compiled) (options : gmap string jsval) (a b : jstring) :
  toRoman map = false ->
  ~ In hash (a ++ b) ->
  transliterateBrahmic schemes (a ++ b) map options
  = Ok (concat (List.map (unit_rendering map) (a ++ b))) /\
  (forall ra rb,
      transliterateBrahmic schemes a map options = Ok ra ->
      transliterateBrahmic schemes b map options = Ok rb ->
      transliterateBrahmic schemes (a ++ b) map options = Ok (ra ++ rb)%list).
Proof.
  intros Hto Hno.
  assert (Hall : forall d, ~ In hash d ->
            transliterateBrahmic schemes d map options
            = Ok (concat (List.map (unit_rendering map) d))).
  { intros d Hd. unfold transliterateBrahmic. rewrite Hto. cbn [andb bind].
    unfold join. now rewrite loop_unitwise. }
  split; [now apply Hall|].
  intros ra rb Ha Hb.
  rewrite Hall in Ha by (intros Hin; apply Hno, in_or_app; now left).
  rewrite Hall in Hb by (intros Hin; apply Hno, in_or_app; now right).
  injection Ha as <-. injection Hb as <-.
  rewrite (Hall _ Hno), List.map_app, concat_app. reflexivity.
Qed.

(** Devanagari to itself on the fragment. *)
Lemma brahmic_to_brahmic_unitwise_witness :
  exists m,
    makeMap Demo.schemes (u "devanagari") (u "devanagari") ∅ = Ok m /\
    transliterateBrahmic Demo.schemes ([0x915; 0x93e] ++ [0x92e]) m ∅
    = Ok (concat (List.map (unit_rendering m) ([0x915; 0x93e] ++ [0x92e]))).
Proof.
  assert (H : exists m,
             makeMap Demo.schemes (u "devanagari") (u "devanagari") ∅ = Ok m /\
             toRoman m = false).
  { eexists. split; [vm_compute; reflexivity|reflexivity]. }
  destruct H as (m & Hm & Hto). exists m. split; [exact Hm|].
  assert (Hno : ~ In hash ([0x915; 0x93e] ++ [0x92e]))
    by (unfold hash; simpl; intros [H|[H|[H|[]]]]; discriminate H).
  exact (proj1 (brahmic_to_brahmic_unitwise Demo.schemes m ∅
                  [0x915; 0x93e] [0x92e] Hto Hno)).
Defined.

(** X4.  A toggled region in Brahmic input, when the engine does not
    move accents before the loop (the target is no Roman scheme, or the
    map has no accents): for a text [pre] without [#] and a body
    without [#], the result on [pre ## body ## rest] is the result on
    [pre], the body as it is, without the [##] on either side, and the
    result on [rest].  A short a that is pending after [pre] is pushed
    at the opening [#], as it is at the end of [pre] alone. *)
Theorem brahmic_toggled_region (schemes : gmap jstring scheme)
    (map : compiled) (options : gmap string jsval)
    (pre body rest : jstring) :
  toRoman map = false \/ accents map = ∅ ->
  ~ In hash pre ->
  ~ In hash body ->
  exists rp rr,
    transliterateBrahmic schemes pre map options = Ok rp /\
    transliterateBrahmic schemes rest map options = Ok rr /\
    transliterateBrahmic schemes
      (pre ++ hash :: hash :: body ++ hash :: hash :: rest) map options
    = Ok (rp ++ body ++ rr)%list.
Proof.
  intros Hcase Hpre Hbody.
  assert (Hall : forall d,
            transliterateBrahmic schemes d map options
            = Ok (join (loop map d initial))).
  { intros d. unfold transliterateBrahmic.
    destruct Hcase as [Hto|Hacc].
    - now rewrite Hto.
    - rewrite (bool_decide_true (accents map = ∅)) by exact Hacc.
      now rewrite andb_false_r. }
  exists (join (loop map pre initial)), (join (loop map rest initial)).
  split; [apply Hall|]. split; [apply Hall|].
  rewrite Hall, (loop_region map pre body rest Hpre Hbody).
  unfold join. now rewrite !concat_app, concat_units.
Qed.

(** A region between two letters of Devanagari, to Harvard-Kyoto. *)
Lemma brahmic_toggled_region_witness :
  exists m,
    makeMap Demo.schemes (u "devanagari") (u "hk") ∅ = Ok m /\
    transliterateBrahmic Demo.schemes
      ([0x915] ++ hash :: hash :: u "ab" ++ hash :: hash :: [0x92e]) m ∅
    = Ok (u "ka" ++ u "ab" ++ u "ma")%list.
Proof.
  assert (H : exists m,
             makeMap Demo.schemes (u "devanagari") (u "hk") ∅ = Ok m /\
             accents m = ∅ /\
             transliterateBrahmic Demo.schemes [0x915] m ∅ = Ok (u "ka") /\
             transliterateBrahmic Demo.schemes [0x92e] m ∅ = Ok (u "ma")).
  { eexists. split; [vm_compute; reflexivity|].
    split; [vm_compute; reflexivity|]. split; vm_compute; reflexivity. }
  destruct H as (m & Hm & Hacc & Hka & Hma). exists m. split; [exact Hm|].
  assert (Hpre : ~ In hash [0x915])
    by (unfold hash; simpl; intros [H|[]]; discriminate H).
  assert (Hbody : ~ In hash (u "ab"))
    by (unfold hash; simpl; intros [H|[H|[]]]; discriminate H).
  destruct (brahmic_toggled_region Demo.schemes m ∅ [0x915] (u "ab") [0x92e]
              (or_intror Hacc) Hpre Hbody)
    as (rp & rr & Hp & Hr & Hall).
  rewrite Hka in Hp. rewrite Hma in Hr.
  injection Hp as <-. injection Hr as <-. exact Hall.
Defined.

(** X13.  The inherent vowel: on an input without [#], for a map without
    accents, the Brahmic engine writes every unit's rendering and, with a
    Roman target, the short a of the target after every consonant (a
    key of [consonants] with a non-empty letter and no mark) that is
    not followed by a vowel mark -- also after one that ends the
    input. *)
Theorem brahmic_inherent_vowel (schemes : gmap jstring scheme)
    (map : compiled) (options : gmap string jsval) (data : jstring) :
  accents map = ∅ ->
  ~ In hash data ->
  transliterateBrahmic schemes data map options
  = Ok (concat (reading map data)).
Proof.
  intros Hacc Hno. unfold transliterateBrahmic.
  rewrite (bool_decide_true (accents map = ∅)) by exact Hacc.
  rewrite andb_false_r. cbn [bind]. unfold join.
  now rewrite (loop_reading map data initial eq_refl eq_refl Hno).
Qed.

(** Devanagari [ka], [ma] with the mark of [i], [ra] to
    Harvard-Kyoto. *)
Lemma brahmic_inherent_vowel_witness :
  exists m,
    makeMap Demo.schemes (u "devanagari") (u "hk") ∅ = Ok m /\
    transliterateBrahmic Demo.schemes [0x915; 0x92e; 0x93f; 0x930] m ∅
    = Ok (u "kamira").
Proof.
  assert (H : exists m,
             makeMap Demo.schemes (u "devanagari") (u "hk") ∅ = Ok m /\
             accents m = ∅ /\
             concat (reading m [0x915; 0x92e; 0x93f; 0x930]) = u "kamira").
  { eexists. split; [vm_compute; reflexivity|].
    split; vm_compute; reflexivity. }
  destruct H as (m & Hm & Hacc & Hread). exists m. split; [exact Hm|].
  assert (Hno : ~ In hash [0x915; 0x92e; 0x93f; 0x930])
    by (unfold hash; simpl; intros [H|[H|[H|[H|[]]]]]; discriminate H).
  rewrite <- Hread.
  exact (brahmic_inherent_vowel Demo.schemes m ∅ _ Hacc Hno).
Defined.

End BrahmicMore.

(** ** More on the map compiler *)

Module MakeMapMore.
Import MakeMap MakeMapSpec MakeMapMoreSpec MakeMapFacts.
Local Open Scope nat_scope.

(** A fold reaches a property that one of its elements sets and the
    others keep. *)
Lemma fold_left_reaches {A B} (f : A -> B -> A) (P : A -> Prop)
    (l : list B) (x : B) (a : A) :
  In x l ->
  (forall a, P (f a x)) ->
  (forall a y, P a -> P (f a y)) ->
  P (fold_left f l a).
Proof.
  intros Hin Hx Hkeep. revert a.
  induction l as [|y l IH]; intros a; [destruct Hin|].
  destruct Hin as [->|Hin]; simpl.
  - clear IH. generalize (Hx a). generalize (f a x).
    induction l as [|z l IH]; intros b Hb; simpl; auto.
  - now apply IH.
Qed.

Lemma fold_left_keeps {A B} (f : A -> B -> A) (P : A -> Prop)
    (l : list B) (a : A) :
  P a -> (forall a y, P a -> P (f a y)) -> P (fold_left f l a).
Proof.
  intros Ha Hkeep. revert a Ha.
  induction l as [|y l IH]; intros a Ha; simpl; auto.
Qed.

Lemma add_entry_within alternates group toGroup acc entry :
  within_letters acc ->
  within_letters (add_entry alternates group toGroup acc entry).
Proof.
  intros [Hc Ha]. destruct entry as [key F]. unfold add_entry.
  destruct (prop key toGroup) as [T0|]; [|now split].
  destruct (str_eqb group (u "vowel_marks") || str_eqb group (u "virama"));
    [now split|].
  split; cbn [t_consonants t_letters t_accents]; intros tok H;
    apply set_all_lookup.
  - destruct (_ || _); [|auto].
    apply set_all_lookup in H. destruct H; auto.
  - destruct (str_eqb group (u "accents")); [|auto].
    apply set_all_lookup in H. destruct H; auto.
Qed.

Lemma group_tables_within fromScheme toScheme :
  within_letters (group_tables fromScheme toScheme).
Proof.
  unfold group_tables. apply fold_left_keeps.
  - split; intros tok [x Hx]; cbn in Hx; rewrite lookup_empty in Hx;
      discriminate.
  - intros acc [group fromGroup] Hacc. unfold add_group.
    destruct (includes_str _ group); [exact Hacc|].
    destruct (prop group (groups toScheme)); [|exact Hacc].
    apply fold_left_keeps; [exact Hacc|].
    intros a e. apply add_entry_within.
Qed.

Lemma add_entry_holds_keep alternates group toGroup tokens acc entry :
  holds tokens acc ->
  holds tokens (add_entry alternates group toGroup acc entry).
Proof.
  intros H. destruct entry as [key F]. unfold add_entry.
  destruct (prop key toGroup) as [T0|]; [|exact H].
  destruct (str_eqb group (u "vowel_marks") || str_eqb group (u "virama"));
    [exact H|].
  intros tok Hin. cbn [t_consonants].
  destruct (_ || _); [|now apply H].
  apply set_all_lookup. right. now apply H.
Qed.

Lemma add_group_holds_keep alternates toScheme tokens acc g :
  holds tokens acc -> holds tokens (add_group alternates toScheme acc g).
Proof.
  intros H. destruct g as [group fromGroup]. unfold add_group.
  destruct (includes_str _ group); [exact H|].
  destruct (prop group (groups toScheme)); [|exact H].
  apply fold_left_keeps; [exact H|].
  intros a e. apply add_entry_holds_keep.
Qed.

Lemma consonant_group_names group :
  group = u "consonants" \/ group = u "extra_consonants" ->
  includes_str
    [u "alternates"; u "accented_vowel_alternates"; u "isRomanScheme"] group
  = false /\
  str_eqb group (u "vowel_marks") || str_eqb group (u "virama") = false /\
  str_eqb group (u "consonants") || str_eqb group (u "extra_consonants")
  = true.
Proof. intros [->| ->]; repeat split; vm_compute; reflexivity. Qed.

(** X5.  In every compiled map the keys of [consonants] and of
    [accents] are keys of [letters]; and every rendering of the source's
    [consonants] or [extra_consonants] group whose key the target's group
    has, and every alternate of it, is a key of both. *)
Theorem consonants_within_letters (schemes : gmap jstring scheme)
    (from to : jstring) (options : gmap string jsval) (m : compiled) :
  makeMap schemes from to options = Ok m ->
  (forall tok, is_Some (consonants m !! tok) -> is_Some (letters m !! tok)) /\
  (forall tok, is_Some (accents m !! tok) -> is_Some (letters m !! tok)) /\
  (forall fromScheme toScheme group fromGroup toGroup key F tok,
      schemes !! from = Some fromScheme ->
      schemes !! to = Some toScheme ->
      In (group, fromGroup) (groups fromScheme) ->
      group = u "consonants" \/ group = u "extra_consonants" ->
      prop group (groups toScheme) = Some toGroup ->
      In (key, F) fromGroup ->
      is_Some (prop key toGroup) ->
      In tok (F :: default [] (prop F (default [] (alternates fromScheme)))) ->
      is_Some (consonants m !! tok) /\ is_Some (letters m !! tok)).
Proof.
  intros Hm. unfold makeMap in Hm.
  destruct (schemes !! from) as [fromScheme|] eqn:Hfrom; [|discriminate].
  destruct (schemes !! to) as [toScheme|] eqn:Hto; [|discriminate].
  destruct (match accented_vowel_alternates fromScheme with
            | Some ava => _ | None => _ end) as [ml|e] eqn:Hacc;
    [|discriminate].
  cbn [bind] in Hm.
  destruct (group_prop to toScheme _ _); [|discriminate].
  destruct (group_prop to toScheme _ _); [|discriminate].
  destruct (group_prop from fromScheme _ _); [|discriminate].
  injection Hm as <-. cbn [consonants accents letters].
  destruct (group_tables_within fromScheme toScheme) as [Hc Ha].
  assert (Hgrow : forall tok,
             is_Some (t_letters (group_tables fromScheme toScheme) !! tok) ->
             is_Some (snd ml !! tok)).
  { destruct (accented_vowel_alternates fromScheme) as [ava|].
    - destruct (add_accented_Ok _ _ _ _ Hacc) as (_ & Hl & _). exact Hl.
    - injection Hacc as <-. auto. }
  assert (Hcl : forall tok,
             is_Some (t_consonants (group_tables fromScheme toScheme) !! tok) ->
             is_Some (snd ml !! tok)) by auto.
  split; [exact Hcl|]. split; [auto|].
  intros fromScheme' toScheme' group fromGroup toGroup key F tok
    [= <-] [= <-] Hg Hname HtoG Hentry Hkey Htok.
  assert (Hin : is_Some (t_consonants (group_tables fromScheme toScheme) !! tok)).
  { destruct (consonant_group_names group Hname) as (Hskip & Hmark & Hcons).
    unfold group_tables.
    apply (fold_left_reaches _
             (holds (F :: default [] (prop F (default [] (alternates fromScheme)))))
             _ (group, fromGroup)); auto.
    - intros acc. unfold add_group. rewrite Hskip, HtoG.
      apply (fold_left_reaches _ _ _ (key, F)); auto.
      + intros acc'. unfold add_entry. destruct Hkey as [T0 ->].
        rewrite Hmark, Hcons. intros t Ht. cbn [t_consonants].
        apply set_all_lookup. now left.
      + intros acc' e. apply add_entry_holds_keep.
    - intros acc g. apply add_group_holds_keep. }
  split; [exact Hin|auto].
Qed.

(** The consonants of the fragment of Harvard-Kyoto. *)
Lemma consonants_within_letters_witness :
  exists m,
    makeMap Demo.schemes (u "hk") (u "devanagari") ∅ = Ok m /\
    (forall tok, is_Some (consonants m !! tok) -> is_Some (letters m !! tok)).
Proof.
  assert (H : exists m, makeMap Demo.schemes (u "hk") (u "devanagari") ∅ = Ok m)
    by (vm_compute; eauto).
  destruct H as (m & Hm). exists m. split; [exact Hm|].
  exact (proj1 (consonants_within_letters _ _ _ _ _ Hm)).
Defined.

End MakeMapMore.

(** ** More on the dispatcher *)

Module DispatcherMore.
Import MakeMap Options Dispatcher DispatcherSpec DispatcherMoreSpec.
Import DispatcherFacts.
Local Open Scope nat_scope.

(** What a call returns and what it leaves in the cache, the cache
    holding a map that [makeMap] builds. *)
Lemma t_spec schemes w data from to options :
  cache_ok schemes w ->
  snd (t schemes w data from to options)
  = match makeMap schemes (source_name data from) to ∅ with
    | Throw e => Some (Throw e)
    | Ok m =>
        with_map schemes data (source_name data from) to
          (options_read w options) m
    end /\
  (forall e,
      makeMap schemes (source_name data from) to ∅ = Throw e ->
      cache (fst (t schemes w data from to options)) = cache w) /\
  (forall m,
      makeMap schemes (source_name data from) to ∅ = Ok m ->
      exists c,
        cache (fst (t schemes w data from to options)) = Some c /\
        c_from c = source_name data from /\ c_to c = to /\ c_map c = m).
Proof.
  intros Hok.
  set (l := match options with
            | Some l => l
            | None => fresh (dom (heap w))
            end).
  set (h0 := match options with
             | Some _ => heap w
             | None => <[l := ∅]> (heap w)
             end).
  destruct (fold_left (merge_key l (c_options <$> cache w)) defaults
              (h0, match cache w with
                   | Some c =>
                       str_eqb (c_from c) (source_name data from)
                       && str_eqb (c_to c) to
                   | None => false
                   end)) as [h p] eqn:Hfold.
  pose proof (t_unfold schemes w data from to options h p Hfold) as Ht.
  cbv zeta in Ht. fold (source_name data from) in Ht. fold l in Ht.
  rewrite Ht. clear Ht.
  assert (Hh : default ∅ (h !! l) = options_read w options).
  { apply (f_equal fst) in Hfold. rewrite merge_fold_defaults in Hfold.
    cbn [fst] in Hfold. rewrite <- Hfold, lookup_insert_eq. cbn [default].
    unfold options_read, h0, l. destruct options as [l'|]; [reflexivity|].
    now rewrite lookup_insert_eq. }
  rewrite Hh.
  rewrite (makeMap_ignores_options schemes (source_name data from) to
             (options_read w options) ∅).
  assert (Hhit : p = true ->
                 exists c, cache w = Some c /\
                           makeMap schemes (source_name data from) to ∅
                           = Ok (c_map c) /\
                           c_from c = source_name data from /\ c_to c = to).
  { intros ->. apply (f_equal snd) in Hfold. cbn [snd] in Hfold.
    apply merge_prior in Hfold.
    destruct (cache w) as [c|] eqn:Hc; [|discriminate].
    apply andb_true_iff in Hfold as [Hf Hto].
    apply JSFacts.str_eqb_spec in Hf, Hto.
    exists c. split; [reflexivity|]. rewrite <- Hf, <- Hto.
    split; [|split; reflexivity]. apply (Hok c Hc). }
  destruct p.
  - destruct (Hhit eq_refl) as (c & Hc & Hm & Hf & Hto).
    rewrite Hc, Hm. cbn [fst snd cache]. split; [reflexivity|].
    split; [discriminate|].
    intros m [= <-]. exists c. auto.
  - clear Hhit.
    cbv beta iota.
    destruct (makeMap schemes (source_name data from) to ∅) as [m|e];
      cbn [bind fst snd cache].
    + split; [reflexivity|]. split; [discriminate|].
      intros m' [= <-]. eexists. split; [reflexivity|]. auto.
    + split; [reflexivity|]. split; [reflexivity|]. discriminate.
Qed.

(** X6.  Along every sequence of calls, a call for which no map can be
    built raises the error of [makeMap] and leaves the cache as it
    was; so does, in particular, a call that names a scheme the
    registry lacks. *)
Theorem t_raises_without_map (schemes : gmap jstring scheme) (w : world)
    (data from to : jstring) (options : option loc) (e : jserror) :
  reachable schemes w ->
  makeMap schemes (source_name data from) to ∅ = Throw e ->
  snd (t schemes w data from to options) = Some (Throw e) /\
  cache (fst (t schemes w data from to options)) = cache w /\
  (schemes !! source_name data from = None ->
   e = TypeError UnknownFromScheme).
Proof.
  intros Hw He.
  destruct (t_spec schemes w data from to options
              (reachable_cache_ok schemes w Hw)) as (Hr & Hc & _).
  rewrite Hr, He. split; [reflexivity|]. split; [exact (Hc e He)|].
  intros Hnone. unfold makeMap in He. rewrite Hnone in He.
  now injection He as <-.
Qed.

(** After a call from Harvard-Kyoto, a call from a scheme that is not
    registered. *)
Lemma t_raises_without_map_witness :
  snd (t Demo.schemes
         (fst (t Demo.schemes Demo.world0 (u "ka") (u "hk") (u "devanagari")
                 None))
         (u "ka") (u "nowhere") (u "devanagari") None)
  = Some (Throw (TypeError UnknownFromScheme)) /\
  cache (fst (t Demo.schemes
                (fst (t Demo.schemes Demo.world0 (u "ka") (u "hk")
                        (u "devanagari") None))
                (u "ka") (u "nowhere") (u "devanagari") None))
  = cache (fst (t Demo.schemes Demo.world0 (u "ka") (u "hk") (u "devanagari")
                  None)).
Proof.
  assert (Hw : reachable Demo.schemes
                 (fst (t Demo.schemes Demo.world0 (u "ka") (u "hk")
                         (u "devanagari") None)))
    by (apply reach_call, (reach_start Demo.schemes ∅)).
  assert (He : makeMap Demo.schemes
                 (source_name (u "ka") (u "nowhere")) (u "devanagari") ∅
               = Throw (TypeError UnknownFromScheme))
    by (vm_compute; reflexivity).
  destruct (t_raises_without_map Demo.schemes _ (u "ka") (u "nowhere")
              (u "devanagari") None _ Hw He) as (Hr & Hc & _).
  split; [exact Hr|exact Hc].
Defined.

Lemma shortcuts_of_plain schemes name site (s : scheme) :
  schemes !! name = Some s ->
  shortcuts schemes name = [] ->
  exists g, shortcuts_of schemes name site = Ok g /\ default [] g = [].
Proof.
  unfold shortcuts, shortcuts_of. intros -> H. eauto.
Qed.



Lemma with_map_undefined_preferred schemes data from to options map :
  get options "preferred_alternates" = VUndefined ->
  exists e, with_map schemes data from to options map = Some (Throw e).
Proof.
  intros Hpref. unfold with_map.
  destruct (let? data0 := _ in _) as [d|e]; [|eauto].
  assert (Hend : forall r : result jstring,
             exists e,
               (let? result := r in
                let? toShortcuts := shortcuts_of schemes to UnknownToScheme in
                let result :=
                  fold_left to_shortcut (default [] toShortcuts) result in
                let? result :=
                  if str_eqb to tamil_name then
                    let? cls := tamil_class schemes UnknownToScheme in
                    Ok (Regex.replace_all
                          (Regex.Seq (Regex.Cls superscript) (Regex.Plus cls))
                          (fun m => (tail m ++ firstn 1 m)%list) result)
                  else Ok result in
                apply_preferred options to result) = Throw e).
  { intros [result|e]; cbn [bind]; [|eauto].
    destruct (shortcuts_of schemes to UnknownToScheme) as [g|e]; cbn [bind];
      [|eauto].
    assert (Hlast : forall r, exists e,
               apply_preferred options to r = Throw e)
      by (intros r; unfold apply_preferred; rewrite Hpref; eauto).
    destruct (str_eqb to tamil_name); [|apply Hlast].
    destruct (tamil_class schemes UnknownToScheme) as [cls|e]; cbn [bind];
      [apply Hlast|eauto]. }
  destruct (fromRoman map).
  - destruct (RomanFacts.transliterateRoman_returns schemes d map options)
      as [r ->].
    destruct (Hend r) as [e He]. exists e. f_equal. exact He.
  - destruct (Hend (Brahmic.transliterateBrahmic schemes d map options))
      as [e He].
    exists e. f_equal. exact He.
Qed.

(** X23.  Along every sequence of calls, a call whose options object
    holds [preferred_alternates] with the value [undefined] always
    raises: the key is in the object, so the default is not written, and
    reading the target's entry of [undefined] raises.  For a plain pair
    of schemes this is the error of the call whenever the engine
    returns; the engine has run by then. *)
Theorem t_undefined_preferred_alternates (schemes : gmap jstring scheme)
    (w : world) (data from to : jstring) (l : loc)
    (o : gmap string jsval) :
  reachable schemes w ->
  heap w !! l = Some o ->
  o !! "preferred_alternates"%string = Some VUndefined ->
  (exists e, snd (t schemes w data from to (Some l)) = Some (Throw e)) /\
  (forall m result,
      makeMap schemes (source_name data from) to ∅ = Ok m ->
      plain_schemes schemes (source_name data from) to ->
      (if fromRoman m
       then Roman.transliterateRoman schemes (Roman.enough_fuel data) data m
              (options_read w (Some l))
       else Some (Brahmic.transliterateBrahmic schemes data m
                    (options_read w (Some l)))) = Some (Ok result) ->
      snd (t schemes w data from to (Some l))
      = Some (Throw (TypeError BadPreferredAlternates))).
Proof.
  intros Hw Hl Ho.
  destruct (t_spec schemes w data from to (Some l)
              (reachable_cache_ok schemes w Hw)) as (Hr & _).
  assert (Hpref : get (options_read w (Some l)) "preferred_alternates"
                  = VUndefined).
  { unfold get, options_read. rewrite Hl.
    change (default ∅ (Some o)) with o.
    rewrite (merge_defaults_default o "preferred_alternates" (VObject 0 []))
      by (right; right; now left).
    now rewrite Ho. }
  split.
  - rewrite Hr.
    destruct (makeMap schemes (source_name data from) to ∅) as [m|e];
      [|eauto].
    apply with_map_undefined_preferred, Hpref.
  - intros m result Hm (Hitrans & Htamil & Hiast & Hfs & Hts & Htamil')
      Hengine.
    rewrite Hr, Hm.
    assert (Hreg : exists sf st, schemes !! source_name data from = Some sf /\
                                 schemes !! to = Some st).
    { unfold makeMap in Hm.
      destruct (schemes !! source_name data from) as [sf|]; [|discriminate].
      destruct (schemes !! to) as [st|]; [|discriminate]. eauto. }
    destruct Hreg as (sf & st & Hsf & Hst).
    destruct (shortcuts_of_plain schemes _ UnknownFromScheme sf Hsf Hfs)
      as (gf & Hgf & Hgf').
    destruct (shortcuts_of_plain schemes _ UnknownToScheme st Hst Hts)
      as (gt & Hgt & Hgt').
    unfold with_map. rewrite Hitrans, Htamil, Hiast, Htamil', Hgf, Hgt.
    cbn [bind]. rewrite Hgf', Hgt'. cbn [fold_left].
    destruct (fromRoman m); rewrite Hengine || (injection Hengine as ->);
      cbn [bind]; unfold apply_preferred; now rewrite Hpref.
Qed.

(** The caller's object holds nothing but the undefined
    [preferred_alternates]. *)
Lemma t_undefined_preferred_alternates_witness :
  exists e,
    snd (t Demo.schemes
           (Demo.with_options {[ "preferred_alternates"%string := VUndefined ]})
           (u "ka") (u "hk") (u "devanagari") (Some 1))
    = Some (Throw e).
Proof.
  exact (proj1 (t_undefined_preferred_alternates Demo.schemes
                  (Demo.with_options
                     {[ "preferred_alternates"%string := VUndefined ]})
                  (u "ka") (u "hk") (u "devanagari") 1
                  {[ "preferred_alternates"%string := VUndefined ]}
                  (reach_start Demo.schemes _) eq_refl eq_refl)).
Defined.

End DispatcherMore.

(** ** More on the audio numbers *)

Module AudioMore.
Import Regex Audio AudioMoreSpec.
Local Open Scope nat_scope.

(** *** The expression at one position *)

Lemma star_run {A} (p : N -> bool) (ds tl : jstring)
    (k : jstring -> option A) :
  Forall (fun c => p c = true) ds ->
  starts_with p tl = false ->
  (forall s, k s <> None) ->
  star p (ds ++ tl) k = k tl.
Proof.
  intros Hds Htl Hk. induction Hds as [|c ds Hc _ IH]; simpl.
  - destruct tl as [|c tl]; [reflexivity|]. simpl in Htl |- *. now rewrite Htl.
  - rewrite Hc, IH. destruct (k tl) eqn:E; [reflexivity|].
    now destruct (Hk tl).
Qed.

Lemma match_len_bol bol s :
  match_len RE_AUDIO_WITH_NUM bol s = match_len RE_AUDIO_WITH_NUM false s.
Proof. destruct bol; reflexivity. Qed.

Lemma match_len_nil bol : match_len RE_AUDIO_WITH_NUM bol [] = None.
Proof. destruct bol; reflexivity. Qed.

Lemma match_len_plain bol c tl :
  c <> marker -> match_len RE_AUDIO_WITH_NUM bol (c :: tl) = None.
Proof.
  intros Hc. unfold match_len, RE_AUDIO_WITH_NUM. cbn [run].
  destruct (N.eqb_spec c marker) as [->|_]; [now destruct Hc|reflexivity].
Qed.

Lemma lower_not_digit c : lower_az c = true -> digit c = false.
Proof.
  unfold lower_az, digit. intros H. apply andb_true_iff in H as [H _].
  apply N.leb_le in H. apply andb_false_iff. right. apply N.leb_gt. lia.
Qed.

Lemma starts_with_weaken tl :
  starts_with digit_or_az tl = false ->
  starts_with digit tl = false /\ starts_with lower_az tl = false.
Proof.
  destruct tl as [|c tl]; [auto|]. unfold digit_or_az. simpl.
  intros H. now apply orb_false_iff in H.
Qed.

Lemma match_len_number bol num tl :
  (num = [] /\ starts_with digit tl = false) \/
  (audio_number num /\ starts_with digit_or_az tl = false) ->
  match_len RE_AUDIO_WITH_NUM bol (marker :: num ++ tl)
  = Some (S (length num)).
Proof.
  rewrite match_len_bol.
  intros [[-> Htl]|[(d & ds & letter & -> & Hd & Hds & Hletter) Htl]].
  - unfold match_len, RE_AUDIO_WITH_NUM. cbn [run app].
    rewrite N.eqb_refl.
    assert (Hplus : forall A (k : jstring -> option A),
               match tl with
               | x :: s' => if digit x then star digit s' k else None
               | [] => None
               end = None).
    { intros A k. destruct tl as [|c tl']; [reflexivity|].
      simpl in Htl. now rewrite Htl. }
    rewrite Hplus.
    rewrite <- (app_nil_l tl) at 1.
    rewrite star_run; [|constructor|exact Htl|discriminate].
    f_equal. simpl. lia.
  - apply starts_with_weaken in Htl as [Hdig Hlow].
    unfold match_len, RE_AUDIO_WITH_NUM. cbn [run app].
    rewrite N.eqb_refl, Hd. rewrite <- app_assoc.
    assert (Hlen : forall n : nat,
               S (length (ds ++ letter ++ tl)) - n
               = S (length ((ds ++ letter) ++ tl)) - n)
      by (intros n; now rewrite app_assoc).
    destruct Hletter as [->|(c & -> & Hc)].
    + rewrite star_run; [|exact Hds|exact Hdig|].
      * assert (Hopt : match tl with
                       | x :: s' =>
                           if lower_az x
                           then Some (length (marker :: d :: ds ++ [] ++ tl)
                                      - length s')
                           else None
                       | [] => None
                       end = None).
        { destruct tl as [|x tl']; [reflexivity|].
          simpl in Hlow. now rewrite Hlow. }
        cbn [length app] in Hopt |- *. rewrite Hopt.
        f_equal. rewrite app_nil_r. rewrite !length_app. simpl. lia.
      * intros s. destruct s as [|x s']; [discriminate|].
        destruct (lower_az x); discriminate.
    + rewrite star_run; [|exact Hds| |].
      * cbn [app]. rewrite Hc. f_equal. cbn [length].
        rewrite !length_app. simpl. lia.
      * simpl. now apply lower_not_digit.
      * intros s. destruct s as [|x s']; [discriminate|].
        destruct (lower_az x); discriminate.
Qed.


Lemma tail_starts (p : N -> bool) (pl : jstring)
    (items : list (jstring * jstring)) (f : jstring * jstring -> jstring) :
  p marker = false ->
  (forall it, exists tl, f it = marker :: tl) ->
  starts_with p pl = false ->
  starts_with p (pl ++ flat_map f items) = false.
Proof.
  intros Hm Hf Hpl. destruct pl as [|c pl]; [|exact Hpl].
  destruct items as [|it items]; [reflexivity|].
  cbn [app flat_map]. destruct (Hf it) as (tl & ->). exact Hm.
Qed.

Lemma item_tail (f : jstring * jstring -> jstring) it items :
  (forall it, exists tl, f it = marker :: tl) ->
  item_ok it ->
  (fst it = [] /\ starts_with digit (snd it ++ flat_map f items) = false) \/
  (audio_number (fst it) /\
   starts_with digit_or_az (snd it ++ flat_map f items) = false).
Proof.
  intros Hf [_ [[Hn Hs]|[Hn Hs]]]; [left|right]; (split; [exact Hn|]);
    now apply tail_starts.
Qed.

(** *** The pieces between the numbers *)

Lemma split_scan_bol bol skip cur s :
  split_scan RE_AUDIO_WITH_NUM bol skip cur s
  = split_scan RE_AUDIO_WITH_NUM false skip cur s.
Proof.
  destruct skip, s; cbn [split_scan]; try reflexivity;
    now rewrite match_len_bol.
Qed.

Lemma split_scan_plain plain rest cur :
  ~ In marker plain ->
  split_scan RE_AUDIO_WITH_NUM false 0 cur (plain ++ rest)
  = split_scan RE_AUDIO_WITH_NUM false 0 (rev plain ++ cur) rest.
Proof.
  revert cur. induction plain as [|c plain IH]; intros cur Hno;
    [reflexivity|].
  cbn [app split_scan]. rewrite match_len_plain by (intros ->; apply Hno; now left).
  rewrite IH by (intros H; apply Hno; now right).
  cbn [rev]. now rewrite <- app_assoc.
Qed.

Lemma split_scan_skip num tl cur :
  split_scan RE_AUDIO_WITH_NUM false (length num) cur (num ++ tl)
  = split_scan RE_AUDIO_WITH_NUM false 0 cur tl.
Proof.
  induction num as [|c num IH]; [reflexivity|]. cbn [length app split_scan].
  exact IH.
Qed.

Lemma split_scan_items items cur :
  Forall item_ok items ->
  split_scan RE_AUDIO_WITH_NUM false 0 cur
    (flat_map (fun it => marker :: fst it ++ snd it) items)
  = rev cur :: List.map snd items.
Proof.
  intros Hok. revert cur. induction Hok as [|[num pl] items Hit _ IH];
    intros cur; [reflexivity|].
  cbn [flat_map fst snd List.map]. rewrite <- app_comm_cons, <- app_assoc.
  cbn [split_scan].
  rewrite match_len_number
    by (apply (item_tail _ (num, pl) items); [eauto|exact Hit]).
  rewrite split_scan_skip, split_scan_plain by apply Hit.
  rewrite IH, app_nil_r, rev_involutive. reflexivity.
Qed.

Lemma split_with_numbers head items :
  ~ In marker head -> Forall item_ok items ->
  split RE_AUDIO_WITH_NUM (with_numbers head items)
  = head :: List.map snd items.
Proof.
  intros Hhead Hok. unfold split.
  assert (Hscan : split_scan RE_AUDIO_WITH_NUM true 0 []
                    (with_numbers head items)
                  = head :: List.map snd items).
  { rewrite split_scan_bol. unfold with_numbers.
    rewrite split_scan_plain by exact Hhead.
    rewrite split_scan_items by exact Hok.
    now rewrite app_nil_r, rev_involutive. }
  destruct (with_numbers head items) as [|c s] eqn:E; [|exact Hscan].
  rewrite match_len_nil. unfold with_numbers in E.
  apply app_eq_nil in E as [-> E].
  destruct items as [|it items]; [reflexivity|discriminate E].
Qed.

(** *** The text without the numbers *)

Lemma replace_scan_bol f bol skip s :
  replace_scan RE_AUDIO_WITH_NUM f bol skip s
  = replace_scan RE_AUDIO_WITH_NUM f false skip s.
Proof.
  destruct skip, s; cbn [replace_scan]; try reflexivity;
    now rewrite match_len_bol.
Qed.

Lemma replace_scan_plain f plain rest :
  ~ In marker plain ->
  replace_scan RE_AUDIO_WITH_NUM f false 0 (plain ++ rest)
  = (plain ++ replace_scan RE_AUDIO_WITH_NUM f false 0 rest)%list.
Proof.
  induction plain as [|c plain IH]; intros Hno; [reflexivity|].
  cbn [app replace_scan].
  rewrite match_len_plain by (intros ->; apply Hno; now left).
  now rewrite IH by (intros H; apply Hno; now right).
Qed.

Lemma replace_scan_skip f num tl :
  replace_scan RE_AUDIO_WITH_NUM f false (length num) (num ++ tl)
  = replace_scan RE_AUDIO_WITH_NUM f false 0 tl.
Proof.
  induction num as [|c num IH]; [reflexivity|]. cbn [length app replace_scan].
  exact IH.
Qed.

Lemma replace_scan_items items :
  Forall item_ok items ->
  replace_scan RE_AUDIO_WITH_NUM (fun _ => [marker]) false 0
    (flat_map (fun it => marker :: fst it ++ snd it) items)
  = flat_map (fun it => marker :: snd it) items.
Proof.
  induction 1 as [|[num pl] items Hit _ IH]; [reflexivity|].
  cbn [flat_map fst snd]. rewrite <- !app_comm_cons, <- app_assoc.
  cbn [replace_scan].
  rewrite match_len_number
    by (apply (item_tail _ (num, pl) items); [eauto|exact Hit]).
  rewrite replace_scan_skip, replace_scan_plain by apply Hit.
  now rewrite IH.
Qed.

Lemma replace_with_numbers head items :
  ~ In marker head -> Forall item_ok items ->
  replace_all RE_AUDIO_WITH_NUM (fun _ => [marker]) (with_numbers head items)
  = without_numbers head items.
Proof.
  intros Hhead Hok. unfold replace_all, with_numbers, without_numbers.
  rewrite replace_scan_bol, replace_scan_plain by exact Hhead.
  now rewrite replace_scan_items.
Qed.

(** *** The numbers picked *)

Lemma take_while_run (p : N -> bool) (ds tl : jstring) :
  Forall (fun c => p c = true) ds ->
  starts_with p tl = false ->
  take_while p (ds ++ tl) = ds.
Proof.
  intros Hds Htl. induction Hds as [|c ds Hc _ IH]; simpl.
  - destruct tl as [|c tl]; [reflexivity|]. simpl in Htl |- *. now rewrite Htl.
  - now rewrite Hc, IH.
Qed.

Lemma audio_number_units d num :
  audio_number (d :: num) ->
  digit d = true /\ Forall (fun c => digit_or_az c = true) num.
Proof.
  intros (d' & ds & letter & [= -> ->] & Hd & Hds & Hletter).
  split; [exact Hd|]. apply Forall_app. split.
  - eapply Forall_impl; [exact Hds|]. intros c Hc. unfold digit_or_az.
    cbv beta in Hc. now rewrite Hc.
  - destruct Hletter as [->|(c & -> & Hc)]; constructor; [|constructor].
    unfold digit_or_az. rewrite Hc. apply orb_true_r.
Qed.

Lemma pick_segment_end text pre plain audios :
  text = (pre ++ plain)%list ->
  pick_segment text (length pre, audios) plain = (length text, audios).
Proof.
  intros ->. unfold pick_segment. rewrite <- length_app.
  now rewrite (lookup_ge_None_2 (pre ++ plain) (length (pre ++ plain))).
Qed.

Lemma pick_segment_number text pre plain num tl audios :
  text = ((pre ++ plain) ++ marker :: num ++ tl)%list ->
  (num = [] /\ starts_with digit tl = false) \/
  (audio_number num /\ starts_with digit_or_az tl = false) ->
  pick_segment text (length pre, audios) plain
  = (length ((pre ++ plain) ++ marker :: num), (audios ++ [num])%list).
Proof.
  intros Htext Hnum. unfold pick_segment. rewrite <- length_app.
  assert (Hmark : text !! length (pre ++ plain) = Some marker)
    by (rewrite Htext; now apply list_lookup_middle).
  assert (Hnext : text !! S (length (pre ++ plain)) = (num ++ tl) !! 0).
  { rewrite Htext.
    replace ((pre ++ plain) ++ marker :: num ++ tl)%list
      with (((pre ++ plain) ++ [marker]) ++ num ++ tl)%list
      by now rewrite <- app_assoc.
    rewrite lookup_app_r by (rewrite !length_app; simpl; lia).
    f_equal. rewrite !length_app. simpl. lia. }
  rewrite Hmark, Hnext.
  destruct Hnum as [[-> Htl]|[Hnum Htl]].
  - cbn [app]. rewrite !length_app. cbn [length]. rewrite Nat.add_1_r.
    destruct tl as [|c tl']; [reflexivity|].
    simpl in Htl. cbn [lookup list_lookup]. now rewrite Htl.
  - destruct num as [|d num'].
    { destruct Hnum as (? & ? & ? & [=] & _). }
    destruct (audio_number_units d num' Hnum) as [Hd Hunits].
    cbn [app lookup list_lookup]. rewrite Hd.
    assert (Hmore : take_while digit_or_az
                      (skipn (S (S (length (pre ++ plain)))) text)
                    = num').
    { rewrite Htext.
      replace ((pre ++ plain) ++ marker :: (d :: num') ++ tl)%list
        with (((pre ++ plain) ++ [marker; d]) ++ num' ++ tl)%list
        by now rewrite <- app_assoc.
      replace (S (S (length (pre ++ plain))))
        with (length ((pre ++ plain) ++ [marker; d]))
        by (rewrite !length_app; simpl; lia).
      rewrite drop_app_length. now apply take_while_run. }
    rewrite Hmore. f_equal. rewrite !length_app. simpl. lia.
Qed.

Lemma pick_fold text pre plain items audios :
  Forall item_ok items ->
  text = (pre ++ plain
            ++ flat_map (fun it => marker :: fst it ++ snd it) items)%list ->
  snd (fold_left (pick_segment text) (plain :: List.map snd items)
         (length pre, audios))
  = (audios ++ List.map fst items)%list.
Proof.
  intros Hok. revert pre plain audios.
  induction Hok as [|[num pl] items Hit _ IH]; intros pre plain audios Htext.
  - cbn [flat_map List.map fold_left] in *. rewrite app_nil_r in Htext.
    rewrite (pick_segment_end _ _ _ _ Htext). cbn [snd].
    now rewrite app_nil_r.
  - change (fold_left (pick_segment text)
              (plain :: List.map snd ((num, pl) :: items))
              (length pre, audios))
      with (fold_left (pick_segment text) (pl :: List.map snd items)
              (pick_segment text (length pre, audios) plain)).
    assert (Htext' :
              text
              = ((pre ++ plain) ++ marker :: num ++
                 pl ++ flat_map (fun it => marker :: fst it ++ snd it) items)%list).
    { rewrite Htext. cbn [flat_map fst snd].
      now rewrite <- !app_assoc, <- app_comm_cons, <- !app_assoc. }
    rewrite (pick_segment_number text pre plain num _ audios Htext')
      by (apply (item_tail _ (num, pl) items); [eauto|exact Hit]).
    rewrite (IH ((pre ++ plain) ++ marker :: num)%list pl
               (audios ++ [num])%list).
    + cbn [List.map fst]. now rewrite <- app_assoc.
    + rewrite Htext'. now rewrite <- !app_assoc.
Qed.

(** *** The numbers put back *)

Lemma refill_plain audios index plain rest :
  ~ In marker plain ->
  refillAudioNumbers audios index (plain ++ rest)
  = (plain ++ refillAudioNumbers audios index rest)%list.
Proof.
  induction plain as [|c plain IH]; intros Hno; [reflexivity|].
  cbn [app refillAudioNumbers].
  destruct (N.eqb_spec c marker) as [->|_]; [destruct Hno; now left|].
  now rewrite IH by (intros H; apply Hno; now right).
Qed.

Lemma refill_items done items :
  Forall item_ok items ->
  refillAudioNumbers (done ++ List.map fst items) (length done)
    (flat_map (fun it => marker :: snd it) items)
  = flat_map (fun it => marker :: fst it ++ snd it) items.
Proof.
  intros Hok. revert done.
  induction Hok as [|[num pl] items Hit _ IH]; intros done; [reflexivity|].
  cbn [flat_map List.map fst snd]. rewrite <- !app_comm_cons.
  cbn [refillAudioNumbers]. rewrite N.eqb_refl.
  rewrite list_lookup_middle by reflexivity. cbn [default].
  rewrite refill_plain by apply Hit.
  replace (done ++ num :: List.map fst items)%list
    with ((done ++ [num]) ++ List.map fst items)%list
    by now rewrite <- app_assoc.
  replace (S (length done)) with (length (done ++ [num]))
    by (rewrite length_app; simpl; lia).
  rewrite IH. now rewrite <- app_assoc.
Qed.

(** X8.  A text in which every marker is followed by nothing, or by
    digits and at most one small letter, and the text does not go on
    with a digit, resp. a digit or a small letter: [pickAudioNumbers]
    appends the numbers to the array, in the order of the markers, and
    returns the text without them; [refillAudioNumbers] from the index
    of the first of them gives the text back. *)
Theorem pick_refill_round_trip (audios : list jstring) (head : jstring)
    (items : list (jstring * jstring)) :
  ~ In marker head ->
  Forall item_ok items ->
  pickAudioNumbers audios (with_numbers head items)
  = ((audios ++ List.map fst items)%list, without_numbers head items) /\
  refillAudioNumbers (fst (pickAudioNumbers audios (with_numbers head items)))
    (length audios)
    (snd (pickAudioNumbers audios (with_numbers head items)))
  = with_numbers head items.
Proof.
  intros Hhead Hok.
  assert (Hpick : pickAudioNumbers audios (with_numbers head items)
                  = ((audios ++ List.map fst items)%list,
                     without_numbers head items)).
  { unfold pickAudioNumbers.
    rewrite split_with_numbers, replace_with_numbers by assumption.
    pose proof (pick_fold (with_numbers head items) [] head items audios Hok
                  eq_refl) as Hfold.
    cbn [length] in Hfold.
    destruct (fold_left _ _ _) as [idx audios'].
    cbn [snd] in Hfold. now rewrite Hfold. }
  split; [exact Hpick|]. rewrite Hpick. cbn [fst snd].
  unfold without_numbers, with_numbers.
  rewrite refill_plain by exact Hhead. f_equal.
  now apply refill_items.
Qed.

(** Two markers, the first with the number [12a], the second with
    none. *)
Lemma pick_refill_round_trip_witness :
  pickAudioNumbers [] (u "om " ++ marker :: u "12a rama " ++ [marker])
  = ([u "12a"; []], u "om " ++ marker :: u " rama " ++ [marker])%list.
Proof.
  assert (Hhead : ~ In marker (u "om ")).
  { simpl. intros [H|[H|[H|[]]]]; discriminate H. }
  assert (Hnum : audio_number (u "12a")).
  { exists 49%N, (u "2"), (u "a").
    split; [reflexivity|]. split; [reflexivity|].
    split; [constructor; [reflexivity|constructor]|].
    right. exists 97%N. split; reflexivity. }
  assert (Hok : Forall item_ok [(u "12a", u " rama "); ([], [])]).
  { constructor; [|constructor; [|constructor]].
    - split; [|right; split; [exact Hnum|reflexivity]].
      simpl. intros [H|[H|[H|[H|[H|[H|[]]]]]]]; discriminate H.
    - split; [simpl; tauto|]. left. split; reflexivity. }
  exact (proj1 (pick_refill_round_trip [] (u "om ")
                  [(u "12a", u " rama "); ([], [])] Hhead Hok)).
Defined.

End AudioMore.

(** ** Facts about the registry *)

Module RegistryFacts.
Import Registry RegistrySpec.
Local Open Scope nat_scope.

Lemma str_eqb_refl a : str_eqb a a = true.
Proof. now apply JSFacts.str_eqb_spec. Qed.

Lemma str_eqb_ne a b : a <> b -> str_eqb a b = false.
Proof.
  intros H. destruct (str_eqb a b) eqn:E; [|reflexivity].
  now apply JSFacts.str_eqb_spec in E.
Qed.

Lemma prop_app {V} key (a b : list (jstring * V)) :
  prop key (a ++ b)
  = match prop key a with Some v => Some v | None => prop key b end.
Proof.
  induction a as [|[k v] a IH]; [reflexivity|]. simpl.
  now destruct (str_eqb k key).
Qed.

(** *** Writing a property *)

Lemma prop_update_eq {V} key (v : V) obj :
  is_Some (prop key obj) -> prop key (update key v obj) = Some v.
Proof.
  induction obj as [|[k w] obj IH]; simpl; [intros [x Hx]; discriminate|].
  destruct (str_eqb k key) eqn:E; simpl; rewrite E; auto.
Qed.

Lemma prop_create_eq {V} key (v : V) obj :
  prop key obj = None -> prop key (create key v obj) = Some v.
Proof.
  induction obj as [|[k w] obj IH]; simpl.
  - now rewrite str_eqb_refl.
  - destruct (str_eqb k key) eqn:E; [discriminate|]. intros H.
    destruct (before key k); simpl.
    + now rewrite str_eqb_refl.
    + rewrite E. auto.
Qed.

Lemma prop_set_prop_eq {V} key (v : V) obj :
  prop key (set_prop key v obj) = Some v.
Proof.
  unfold set_prop. destruct (prop key obj) eqn:E.
  - apply prop_update_eq. rewrite E. eauto.
  - now apply prop_create_eq.
Qed.

Lemma prop_set_prop_ne {V} key k (v : V) obj :
  k <> key -> prop k (set_prop key v obj) = prop k obj.
Proof.
  intros Hne. unfold set_prop. destruct (prop key obj) as [w|].
  - induction obj as [|[k' w'] obj IH]; [reflexivity|]. simpl.
    destruct (str_eqb k' key) eqn:E; simpl; [|now rewrite IH].
    apply JSFacts.str_eqb_spec in E. subst k'.
    now rewrite (str_eqb_ne key k) by congruence.
  - induction obj as [|[k' w'] obj IH]; simpl.
    + now rewrite (str_eqb_ne key k) by congruence.
    + destruct (before key k'); simpl; [|now rewrite IH].
      now rewrite (str_eqb_ne key k) by congruence.
Qed.

Lemma update_update {V} key (v : V) obj :
  update key v (update key v obj) = update key v obj.
Proof.
  induction obj as [|[k w] obj IH]; [reflexivity|]. simpl.
  destruct (str_eqb k key) eqn:E; simpl; rewrite E; [reflexivity|].
  now rewrite IH.
Qed.

Lemma update_create {V} key (v : V) obj :
  prop key obj = None -> update key v (create key v obj) = create key v obj.
Proof.
  induction obj as [|[k w] obj IH]; simpl.
  - now rewrite str_eqb_refl.
  - destruct (str_eqb k key) eqn:E; [discriminate|]. intros H.
    destruct (before key k); simpl.
    + now rewrite str_eqb_refl.
    + rewrite E. now rewrite IH.
Qed.

Lemma set_prop_twice {V} key (v : V) obj :
  set_prop key v (set_prop key v obj) = set_prop key v obj.
Proof.
  unfold set_prop at 1. rewrite prop_set_prop_eq.
  unfold set_prop. destruct (prop key obj) eqn:E.
  - apply update_update.
  - now apply update_create.
Qed.

(** *** The marks [addRomanScheme] derives *)

Lemma fold_add_mark dv vowels acc mark :
  prop mark (fold_left (add_mark dv) vowels acc)
  = match prop mark (rev (marks_of_vowels dv vowels)) with
    | Some v => Some v
    | None => prop mark acc
    end.
Proof.
  revert acc. induction vowels as [|[key value] vowels IH]; intros acc;
    [reflexivity|].
  cbn [fold_left]. rewrite IH. unfold marks_of_vowels. cbn [flat_map fst snd].
  fold (marks_of_vowels dv vowels). rewrite rev_app_distr, prop_app.
  destruct (prop mark (rev (marks_of_vowels dv vowels))); [reflexivity|].
  unfold add_mark. destruct (str_eqb key key_a); [reflexivity|].
  cbn [rev app prop]. fold (mark_of dv key).
  destruct (str_eqb (mark_of dv key) mark) eqn:E.
  - apply JSFacts.str_eqb_spec in E. subst mark. apply prop_set_prop_eq.
  - apply prop_set_prop_ne. intros ->. now rewrite str_eqb_refl in E.
Qed.


Lemma roman_twice (name : jstring) (R : gset jstring) :
  {[ name ]} ∪ ({[ name ]} ∪ R) = {[ name ]} ∪ R.
Proof. rewrite (assoc_L (∪)). now rewrite (idemp_L (∪)). Qed.

(** What a call that returns has done. *)
Lemma addRomanScheme_returns (dv : group) (name : jstring) (l : loc)
    (st st' : store) (s : scheme) :
  objects st !! l = Some s ->
  addRomanScheme dv name l st = (st', Ok tt) ->
  (exists s',
      objects st' !! l = Some s' /\
      scheme_of st' name = Some s' /\
      isRomanScheme s' = isRomanScheme s /\
      alternates s' = alternates s /\
      accented_vowel_alternates s' = accented_vowel_alternates s /\
      (forall g, g <> u "vowel_marks" ->
                 prop g (groups s') = prop g (groups s)) /\
      exists marks,
        prop (u "vowel_marks") (groups s') = Some marks /\
        match prop (u "vowel_marks") (groups s) with
        | Some m => marks = m
        | None =>
            exists vowels,
              prop (u "vowels") (groups s) = Some vowels /\
              forall mark,
                prop mark marks = prop mark (rev (marks_of_vowels dv vowels))
        end) /\
  (forall l', l' <> l -> objects st' !! l' = objects st !! l') /\
  (forall n, n <> name -> prop n (schemes st') = prop n (schemes st)) /\
  addRomanScheme dv name l st' = (st', Ok tt) /\
  schemes st' = schemes (addBrahmicScheme name l st) /\
  romanSchemes st' = {[ name ]} ∪ romanSchemes st.
Proof.
  intros Hl Hcall. unfold addRomanScheme in Hcall. rewrite Hl in Hcall.
  destruct (prop (u "vowel_marks") (groups s)) as [m|] eqn:Hvm.
  - injection Hcall as <-. split; [|split; [|split; [|split]]].
    + exists s. cbn [objects]. split; [exact Hl|].
      split; [unfold scheme_of; cbn [schemes objects];
              now rewrite prop_set_prop_eq|].
      do 3 (split; [reflexivity|]). split; [reflexivity|].
      exists m. now split.
    + reflexivity.
    + intros n Hn. cbn [schemes]. now apply prop_set_prop_ne.
    + unfold addRomanScheme. cbn [objects schemes romanSchemes].
      rewrite Hl, Hvm. now rewrite set_prop_twice, roman_twice.
    + split; reflexivity.
  - assert (Hvowels : prop (u "vowels")
                        (set_prop (u "vowel_marks") [] (groups s))
                      = prop (u "vowels") (groups s))
      by (apply prop_set_prop_ne; discriminate).
    rewrite Hvowels in Hcall.
    destruct (prop (u "vowels") (groups s)) as [vowels|] eqn:Hv;
      [|discriminate].
    injection Hcall as <-.
    set (marks := fold_left (add_mark dv) vowels []).
    set (s' := with_groups s
                 (set_prop (u "vowel_marks") marks
                    (set_prop (u "vowel_marks") [] (groups s)))).
    assert (Hmarks : prop (u "vowel_marks") (groups s') = Some marks)
      by apply prop_set_prop_eq.
    split; [|split; [|split; [|split]]].
    + exists s'. cbn [objects]. split; [apply lookup_insert_eq|].
      split; [unfold scheme_of; cbn [schemes objects];
              rewrite prop_set_prop_eq; apply lookup_insert_eq|].
      do 3 (split; [reflexivity|]). split.
      * intros g Hg. unfold s'. cbn [groups with_groups].
        now rewrite !prop_set_prop_ne.
      * exists marks. split; [exact Hmarks|]. exists vowels.
        split; [reflexivity|]. intros mark. unfold marks.
        rewrite fold_add_mark.
        now destruct (prop mark (rev (marks_of_vowels dv vowels))).
    + intros l' Hl'. cbn [objects]. now apply lookup_insert_ne.
    + intros n Hn. cbn [schemes]. now apply prop_set_prop_ne.
    + unfold addRomanScheme. cbn [objects schemes romanSchemes].
      rewrite lookup_insert_eq. fold s'. rewrite Hmarks.
      now rewrite set_prop_twice, roman_twice.
    + split; reflexivity.
Qed.

(** X9.  A call of [addRomanScheme] that returns: the name is
    registered for the caller's scheme object, as [addBrahmicScheme]
    registers it, and is put into [romanSchemes]; the flags of the
    scheme and its groups other than [vowel_marks] are as before; a
    [vowel_marks] it had is kept, and otherwise it gets one that reads
    as the marks of its vowels other than the short a, a later vowel
    with the same mark taking over; no other object and no other name
    has changed; and the same call again changes nothing. *)
Theorem addRomanScheme_registers (dv : group) (name : jstring) (l : loc)
    (st st' : store) (s : scheme) :
  objects st !! l = Some s ->
  addRomanScheme dv name l st = (st', Ok tt) ->
  (exists s',
      objects st' !! l = Some s' /\
      scheme_of st' name = Some s' /\
      isRomanScheme s' = isRomanScheme s /\
      alternates s' = alternates s /\
      accented_vowel_alternates s' = accented_vowel_alternates s /\
      (forall g, g <> u "vowel_marks" ->
                 prop g (groups s') = prop g (groups s)) /\
      exists marks,
        prop (u "vowel_marks") (groups s') = Some marks /\
        match prop (u "vowel_marks") (groups s) with
        | Some m => marks = m
        | None =>
            exists vowels,
              prop (u "vowels") (groups s) = Some vowels /\
              forall mark,
                prop mark marks = prop mark (rev (marks_of_vowels dv vowels))
        end) /\
  (forall l', l' <> l -> objects st' !! l' = objects st !! l') /\
  (forall n, n <> name -> prop n (schemes st') = prop n (schemes st)) /\
  addRomanScheme dv name l st' = (st', Ok tt) /\
  schemes st' = schemes (addBrahmicScheme name l st) /\
  romanSchemes st' = {[ name ]} ∪ romanSchemes st.
Proof. apply addRomanScheme_returns. Qed.

(** Harvard-Kyoto as written gets the marks of [A] and [i]. *)
Lemma addRomanScheme_registers_witness :
  exists s',
    scheme_of (fst (addRomanScheme vowel_to_marks (u "hk") 1
                      (store_of hk_written))) (u "hk") = Some s' /\
    isRomanScheme s' = true.
Proof.
  destruct (addRomanScheme vowel_to_marks (u "hk") 1 (store_of hk_written))
    as [st' r] eqn:Hcall.
  assert (Hr : r = Ok tt).
  { apply (f_equal snd) in Hcall. cbn [snd] in Hcall. rewrite <- Hcall.
    vm_compute. reflexivity. }
  subst r.
  destruct (addRomanScheme_registers vowel_to_marks (u "hk") 1
              (store_of hk_written) st' hk_written eq_refl Hcall)
    as ((s' & _ & Hs' & Hroman & _) & _).
  exists s'. split; [exact Hs'|exact Hroman].
Defined.

(** X10.  A scheme with neither [vowel_marks] nor [vowels]:
    [addRomanScheme] raises and registers nothing, but leaves an empty
    [vowel_marks] in the caller's object; so the same call again
    returns, and registers the scheme with no marks at all. *)
Theorem addRomanScheme_failed_call_leaves_marks (dv : group)
    (name : jstring) (l : loc) (st : store) (s : scheme) :
  objects st !! l = Some s ->
  prop (u "vowel_marks") (groups s) = None ->
  prop (u "vowels") (groups s) = None ->
  let first := addRomanScheme dv name l st in
  let second := addRomanScheme dv name l (fst first) in
  snd first = Throw (TypeError (MissingGroup name (u "vowels"))) /\
  schemes (fst first) = schemes st /\
  romanSchemes (fst first) = romanSchemes st /\
  (forall l', l' <> l -> objects (fst first) !! l' = objects st !! l') /\
  snd second = Ok tt /\
  exists s',
    objects (fst first) !! l = Some s' /\
    scheme_of (fst second) name = Some s' /\
    prop (u "vowel_marks") (groups s') = Some [] /\
    forall g, g <> u "vowel_marks" -> prop g (groups s') = prop g (groups s).
Proof.
  intros Hl Hvm Hv first second.
  assert (Hblank : prop (u "vowels")
                     (set_prop (u "vowel_marks") [] (groups s)) = None)
    by (rewrite prop_set_prop_ne; [exact Hv|discriminate]).
  assert (Hfirst :
            first
            = ({| objects :=
                    <[l := with_groups s
                             (set_prop (u "vowel_marks") [] (groups s))]>
                      (objects st);
                  schemes := schemes st;
                  romanSchemes := romanSchemes st |},
               Throw (TypeError (MissingGroup name (u "vowels"))))).
  { unfold first, addRomanScheme. now rewrite Hl, Hvm, Hblank. }
  set (s' := with_groups s (set_prop (u "vowel_marks") [] (groups s))) in *.
  assert (Hmarks : prop (u "vowel_marks") (groups s') = Some [])
    by apply prop_set_prop_eq.
  assert (Hsecond :
            second
            = ({| objects := <[l := s']> (objects st);
                  schemes := set_prop name l (schemes st);
                  romanSchemes := {[ name ]} ∪ romanSchemes st |}, Ok tt)).
  { unfold second. rewrite Hfirst. cbn [fst]. unfold addRomanScheme.
    cbn [objects schemes romanSchemes]. rewrite lookup_insert_eq.
    now rewrite Hmarks. }
  rewrite Hfirst, Hsecond. cbn [fst snd objects schemes romanSchemes].
  do 3 (split; [reflexivity|]).
  split; [intros l' Hl'; now apply lookup_insert_ne|].
  split; [reflexivity|]. exists s'.
  split; [apply lookup_insert_eq|].
  split; [unfold scheme_of; cbn [schemes objects];
          rewrite prop_set_prop_eq; apply lookup_insert_eq|].
  split; [exact Hmarks|].
  intros g Hg. unfold s'. cbn [groups with_groups].
  now apply prop_set_prop_ne.
Qed.

(** A scheme with no group at all. *)
Lemma addRomanScheme_failed_call_leaves_marks_witness :
  snd (addRomanScheme vowel_to_marks (u "x") 1
         (store_of (with_groups Demo.hk [])))
  = Throw (TypeError (MissingGroup (u "x") (u "vowels"))) /\
  snd (addRomanScheme vowel_to_marks (u "x") 1
         (fst (addRomanScheme vowel_to_marks (u "x") 1
                 (store_of (with_groups Demo.hk [])))))
  = Ok tt.
Proof.
  destruct (addRomanScheme_failed_call_leaves_marks vowel_to_marks (u "x") 1
              (store_of (with_groups Demo.hk [])) (with_groups Demo.hk [])
              eq_refl eq_refl eq_refl) as (H1 & _ & _ & _ & H2 & _).
  split; [exact H1|exact H2].
Defined.

(** *** The loop over the Roman schemes *)

Lemma keeps_refl dv st : keeps dv st st.
Proof.
  intros l s Hl. exists s. do 5 (split; [auto|]). split; [auto|].
  intros Hnone marks Hmarks. congruence.
Qed.

Lemma keeps_trans dv st1 st2 st3 :
  keeps dv st1 st2 -> keeps dv st2 st3 -> keeps dv st1 st3.
Proof.
  intros H12 H23 l s Hl.
  destruct (H12 l s Hl) as (s2 & Hl2 & Hf2 & Ha2 & Hv2 & Hg2 & Hs2 & Hd2).
  destruct (H23 l s2 Hl2) as (s3 & Hl3 & Hf3 & Ha3 & Hv3 & Hg3 & Hs3 & Hd3).
  exists s3. split; [exact Hl3|]. split; [congruence|].
  split; [congruence|]. split; [congruence|]. split; [|split].
  - intros g Hg. now rewrite (Hg3 g Hg), (Hg2 g Hg).
  - intros Hs. rewrite <- (Hs2 Hs). apply Hs3. now rewrite (Hs2 Hs).
  - intros Hnone marks Hmarks.
    destruct (prop (u "vowel_marks") (groups s2)) as [m2|] eqn:Hm2.
    + assert (s3 = s2) by (apply Hs3; left; unfold has_marks; rewrite Hm2; eauto).
      subst s3. apply (Hd2 Hnone). congruence.
    + destruct (Hd3 eq_refl marks Hmarks) as (vowels & Hvowels & Hall).
      exists vowels. split; [|exact Hall].
      rewrite <- Hvowels. symmetry. apply Hg2. discriminate.
Qed.

Lemma prop_In {V} key (v : V) obj : prop key obj = Some v -> In (key, v) obj.
Proof.
  induction obj as [|[k w] obj IH]; simpl; [discriminate|].
  destruct (str_eqb k key) eqn:E; [|auto].
  apply JSFacts.str_eqb_spec in E. intros [= ->]. left. now subst.
Qed.

Lemma In_prop {V} key (v : V) obj :
  List.NoDup (List.map fst obj) -> In (key, v) obj -> prop key obj = Some v.
Proof.
  induction obj as [|[k w] obj IH]; simpl; [intros _ []|].
  intros Hnd Hin. apply List.NoDup_cons_iff in Hnd as [Hk Hnd].
  destruct Hin as [[= -> ->]|Hin]; [now rewrite str_eqb_refl|].
  destruct (str_eqb k key) eqn:E; [|auto].
  apply JSFacts.str_eqb_spec in E. subst k. destruct Hk.
  now apply (List.in_map fst _ (key, v)).
Qed.

Lemma update_same {V} key (v : V) obj :
  prop key obj = Some v -> update key v obj = obj.
Proof.
  induction obj as [|[k w] obj IH]; [reflexivity|]. simpl.
  destruct (str_eqb k key) eqn:E; [now intros [= ->]|].
  intros H. now rewrite IH.
Qed.

Lemma set_prop_same {V} key (v : V) obj :
  prop key obj = Some v -> set_prop key v obj = obj.
Proof. intros H. unfold set_prop. rewrite H. now apply update_same. Qed.

Lemma addRomanScheme_step dv name l st st' s :
  objects st !! l = Some s ->
  prop name (schemes st) = Some l ->
  isRomanScheme s = true ->
  addRomanScheme dv name l st = (st', Ok tt) ->
  keeps dv st st' /\ schemes st' = schemes st /\
  romanSchemes st' = {[ name ]} ∪ romanSchemes st /\
  exists s', objects st' !! l = Some s' /\ has_marks s'.
Proof.
  intros Hl Hname Hroman Hcall.
  destruct (addRomanScheme_returns dv name l st st' s Hl Hcall)
    as ((s' & Hl' & _ & Hflag & Halt & Hava & Hgroups & marks & Hmarks
         & Hwhich)
        & Hother & _ & _ & _).
  assert (Hst' : schemes st' = schemes st /\
                 romanSchemes st' = {[ name ]} ∪ romanSchemes st /\
                 (has_marks s -> objects st' = objects st)).
  { unfold addRomanScheme in Hcall. rewrite Hl in Hcall.
    unfold has_marks.
    destruct (prop (u "vowel_marks") (groups s)).
    - injection Hcall as <-. cbn [schemes romanSchemes objects].
      split; [now apply set_prop_same|]. split; reflexivity.
    - destruct (prop (u "vowels") _); [|discriminate].
      injection Hcall as <-. cbn [schemes romanSchemes].
      split; [now apply set_prop_same|]. split; [reflexivity|].
      intros [x Hx]. discriminate Hx. }
  destruct Hst' as (Hschemes & Hromans & Hsame).
  assert (Hhas : has_marks s') by (unfold has_marks; rewrite Hmarks; eauto).
  split; [|split; [exact Hschemes|split; [exact Hromans|eauto]]].
  intros l0 s0 Hl0. destruct (decide (l0 = l)) as [->|Hne].
  - assert (s0 = s) by congruence. subst s0. exists s'.
    split; [exact Hl'|]. split; [exact Hflag|]. split; [exact Halt|].
    split; [exact Hava|]. split; [exact Hgroups|]. split.
    + intros [Hs|Hs]; [|congruence].
      rewrite (Hsame Hs) in Hl'. congruence.
    + intros Hnone marks' Hmarks'. rewrite Hnone in Hwhich.
      assert (marks' = marks) by congruence. subst marks'. exact Hwhich.
  - exists s0. rewrite (Hother l0 Hne). do 5 (split; [auto|]).
    split; [auto|]. intros Hnone marks' Hmarks'. congruence.
Qed.

Lemma fold_add_if_roman_Throw dv entries st e :
  fold_left (add_if_roman dv) entries (st, Throw e) = (st, Throw e).
Proof.
  induction entries as [|[name l] entries IH]; [reflexivity|]. exact IH.
Qed.

Lemma fold_add_if_roman dv entries st st' :
  List.NoDup (List.map fst (schemes st)) ->
  (forall name l, In (name, l) entries -> In (name, l) (schemes st)) ->
  fold_left (add_if_roman dv) entries (st, Ok tt) = (st', Ok tt) ->
  keeps dv st st' /\ schemes st' = schemes st /\
  romanSchemes st ⊆ romanSchemes st' /\
  forall name l,
    In (name, l) entries ->
    exists s',
      objects st' !! l = Some s' /\
      (isRomanScheme s' = true -> has_marks s' /\ name ∈ romanSchemes st').
Proof.
  revert st. induction entries as [|[name l] entries IH];
    intros st Hnd Hsub Hfold.
  - injection Hfold as <-. split; [apply keeps_refl|].
    split; [reflexivity|]. split; [reflexivity|]. intros name l [].
  - cbn [fold_left add_if_roman] in Hfold.
    destruct (objects st !! l) as [s|] eqn:Hl;
      [|now rewrite fold_add_if_roman_Throw in Hfold].
    assert (Hname : prop name (schemes st) = Some l)
      by (apply In_prop; [exact Hnd|apply Hsub; now left]).
    assert (Hstep : exists st1,
               fold_left (add_if_roman dv) entries (st1, Ok tt) = (st', Ok tt)
               /\ keeps dv st st1 /\ schemes st1 = schemes st /\
               romanSchemes st ⊆ romanSchemes st1 /\
               exists s1, objects st1 !! l = Some s1 /\
                          (isRomanScheme s1 = true ->
                           has_marks s1 /\ name ∈ romanSchemes st1)).
    { destruct (isRomanScheme s) eqn:Hroman.
      - destruct (addRomanScheme dv name l st) as [st1 [[]|e]] eqn:Hcall;
          [|now rewrite fold_add_if_roman_Throw in Hfold].
        destruct (addRomanScheme_step dv name l st st1 s Hl Hname Hroman Hcall)
          as (Hkeeps & Hschemes & Hromans & s1 & Hl1 & Hhas).
        exists st1. split; [exact Hfold|]. split; [exact Hkeeps|].
        split; [exact Hschemes|]. rewrite Hromans.
        split; [apply union_subseteq_r|].
        exists s1. split; [exact Hl1|]. intros _.
        split; [exact Hhas|]. apply elem_of_union_l. now apply elem_of_singleton.
      - exists st. split; [exact Hfold|]. split; [apply keeps_refl|].
        split; [reflexivity|]. split; [reflexivity|].
        exists s. split; [exact Hl|]. congruence. }
    destruct Hstep as (st1 & Hfold1 & Hkeeps & Hschemes & Hromans & s1 & Hl1
                       & Hs1).
    destruct (IH st1) as (Hkeeps' & Hschemes' & Hromans' & Hentries).
    { now rewrite Hschemes. }
    { intros n l0 Hin. rewrite Hschemes. apply Hsub. now right. }
    { exact Hfold1. }
    split; [now apply (keeps_trans dv st st1 st')|].
    split; [congruence|]. split; [now transitivity (romanSchemes st1)|].
    intros n l0 [[= <- <-]|Hin]; [|now apply Hentries].
    destruct (Hkeeps' l s1 Hl1) as (s' & Hl' & Hflag & _ & _ & _ & Hsame & _).
    exists s'. split; [exact Hl'|]. intros Hroman.
    rewrite Hflag in Hroman. destruct (Hs1 Hroman) as [Hhas Helem].
    split; [|now apply Hromans'].
    now rewrite (Hsame (or_introl Hhas)).
Qed.

(** X12.  When the loop over the registry at the end of the set-up
    returns, every registered scheme whose [isRomanScheme] is true has
    a [vowel_marks] group and its name is in [romanSchemes]; the
    registry names the same objects; every object keeps its flag, its
    alternates and all its other groups; an object that had
    [vowel_marks], or is not flagged, is as it was; and the
    [vowel_marks] an object has got are those derived from its
    vowels. *)
Theorem add_roman_schemes_gives_marks (dv : group) (st st' : store) :
  List.NoDup (List.map fst (schemes st)) ->
  add_roman_schemes dv st = (st', Ok tt) ->
  schemes st' = schemes st /\
  keeps dv st st' /\
  forall name s',
    scheme_of st' name = Some s' ->
    isRomanScheme s' = true ->
    has_marks s' /\ name ∈ romanSchemes st'.
Proof.
  intros Hnd Hloop.
  destruct (fold_add_if_roman dv (schemes st) st st' Hnd (fun _ _ H => H) Hloop)
    as (Hkeeps & Hschemes & _ & Hentries).
  split; [exact Hschemes|]. split; [exact Hkeeps|].
  intros name s' Hs' Hroman. unfold scheme_of in Hs'. rewrite Hschemes in Hs'.
  destruct (prop name (schemes st)) as [l|] eqn:Hname; [|discriminate].
  destruct (Hentries name l (prop_In _ _ _ Hname)) as (s1 & Hl1 & Hs1).
  assert (s1 = s') by congruence. subst s1. now apply Hs1.
Qed.

(** The registry that holds Harvard-Kyoto as written. *)
Lemma add_roman_schemes_gives_marks_witness :
  exists s',
    scheme_of
      (fst (add_roman_schemes vowel_to_marks
              {| objects := {[ 1 := hk_written ]};
                 schemes := [(u "hk", 1)];
                 romanSchemes := ∅ |})) (u "hk") = Some s' /\
    has_marks s'.
Proof.
  set (st := {| objects := {[ 1 := hk_written ]};
                schemes := [(u "hk", 1)];
                romanSchemes := ∅ |}).
  destruct (add_roman_schemes vowel_to_marks st) as [st' r] eqn:Hloop.
  assert (Hr : r = Ok tt).
  { apply (f_equal snd) in Hloop. cbn [snd] in Hloop. rewrite <- Hloop.
    vm_compute. reflexivity. }
  subst r.
  assert (Hnd : List.NoDup (List.map fst (schemes st))).
  { apply List.NoDup_cons; [intros []|apply List.NoDup_nil]. }
  destruct (add_roman_schemes_gives_marks vowel_to_marks st st' Hnd Hloop)
    as (Hschemes & Hkeeps & Hall).
  destruct (Hkeeps 1 hk_written eq_refl) as (s' & Hl' & Hflag & _).
  exists s'. cbn [fst].
  assert (Hs' : scheme_of st' (u "hk") = Some s').
  { unfold scheme_of. rewrite Hschemes. exact Hl'. }
  split; [exact Hs'|]. apply (Hall (u "hk") s' Hs'). rewrite Hflag. reflexivity.
Defined.


(** *** Capital alternates *)

Section Capitals.
Variable toUpperCase : N -> jstring.

Lemma fold_capitalize (init acc : list jstring) :
  fold_left (fun l alternate => (l ++ [capitalize toUpperCase alternate])%list)
    init acc
  = (acc ++ List.map (capitalize toUpperCase) init)%list.
Proof.
  revert acc. induction init as [|a init IH]; intros acc; simpl.
  - now rewrite app_nil_r.
  - rewrite IH. now rewrite <- app_assoc.
Qed.

Lemma add_capitals_eq object v :
  prop v (add_capitals toUpperCase object v)
  = Some (default [] (prop v object)
            ++ capitals toUpperCase v (default [] (prop v object)))%list.
Proof.
  unfold add_capitals. rewrite prop_set_prop_eq, fold_capitalize.
  unfold capitals. now rewrite <- app_assoc.
Qed.

Lemma add_capitals_ne object v w :
  w <> v -> prop w (add_capitals toUpperCase object v) = prop w object.
Proof. intros H. unfold add_capitals. now apply prop_set_prop_ne. Qed.

Lemma fold_add_capitals codeList object :
  NoDup codeList ->
  (forall v, In v codeList ->
             prop v (fold_left (add_capitals toUpperCase) codeList object)
             = Some (default [] (prop v object)
                       ++ capitals toUpperCase v (default [] (prop v object)))%list)
  /\
  (forall v, ~ In v codeList ->
             prop v (fold_left (add_capitals toUpperCase) codeList object)
             = prop v object).
Proof.
  intros Hnd. revert object.
  induction Hnd as [|c codeList Hc _ IH]; intros object.
  - split; [intros v []|reflexivity].
  - cbn [fold_left].
    destruct (IH (add_capitals toUpperCase object c)) as [IHin IHout].
    split.
    + intros v [->|Hv].
      * rewrite IHout by (rewrite <- list_elem_of_In; exact Hc).
        apply add_capitals_eq.
      * assert (Hne : v <> c).
        { intros ->. apply Hc. now rewrite list_elem_of_In. }
        rewrite (IHin v Hv). now rewrite add_capitals_ne.
    + intros v Hv. rewrite IHout by (intros H; apply Hv; now right).
      apply add_capitals_ne. intros ->. apply Hv. now left.
Qed.

End Capitals.

(** X11.  [addCapitalAlternates] on a list of distinct codes: each code
    of the list gets, after the alternates it had, its own capital form
    and then the capital forms of those alternates; the alternates of
    every other code are as before.  Without the object it raises,
    unless the list is empty. *)
Theorem addCapitalAlternates_spec (toUpperCase : N -> jstring)
    (codeList : list jstring) (object : list (jstring * list jstring)) :
  NoDup codeList ->
  (exists object',
      addCapitalAlternates toUpperCase codeList (Some object)
      = Ok (Some object') /\
      (forall v, In v codeList ->
                 prop v object'
                 = Some (default [] (prop v object)
                           ++ capitals toUpperCase v
                                (default [] (prop v object)))%list) /\
      (forall v, ~ In v codeList -> prop v object' = prop v object)) /\
  (codeList <> [] ->
   exists e, addCapitalAlternates toUpperCase codeList None = Throw e).
Proof.
  intros Hnd. split.
  - exists (fold_left (add_capitals toUpperCase) codeList object).
    split; [now destruct codeList|].
    now apply fold_add_capitals.
  - destruct codeList as [|v codeList]; [now intros []|]. intros _.
    simpl. eauto.
Qed.

(** The codes [k] and [m] with the capitals of ASCII; [k] has the
    alternate [q]. *)
Lemma addCapitalAlternates_spec_witness :
  exists object',
    addCapitalAlternates (fun c => [lower_unit c - 32]%N) [u "k"; u "m"]
      (Some [(u "k", [u "q"])])
    = Ok (Some object') /\
    prop (u "k") object' = Some [u "q"; u "K"; u "Q"] /\
    prop (u "m") object' = Some [u "M"].
Proof.
  assert (Hnd : NoDup [u "k"; u "m"]).
  { apply NoDup_cons_2; [|apply NoDup_cons_2; [|apply NoDup_nil_2]].
    - intros H. apply list_elem_of_In in H. destruct H as [H|[]].
      discriminate H.
    - intros H. apply list_elem_of_In in H. destruct H. }
  destruct (proj1 (addCapitalAlternates_spec (fun c => [lower_unit c - 32]%N)
                     [u "k"; u "m"] [(u "k", [u "q"])] Hnd))
    as (object' & Hcall & Hin & _).
  exists object'. split; [exact Hcall|]. split.
  - rewrite (Hin (u "k")) by (now left). reflexivity.
  - rewrite (Hin (u "m")) by (right; now left). reflexivity.
Defined.

End RegistryFacts.

(** ** Facts about the syllables *)

Module AksaraFacts.
Import Regex Aksara AudioMoreSpec AksaraSpec.
Local Open Scope nat_scope.

(** *** Where a match ends *)

Lemma star_calls {A} (p : N -> bool) (s : jstring) (k : jstring -> option A) x :
  star p s k = Some x ->
  exists pre rest, s = (pre ++ rest)%list /\ k rest = Some x.
Proof.
  induction s as [|c s IH]; simpl.
  - intros H. exists [], []. auto.
  - destruct (p c).
    + destruct (star p s k) as [r|] eqn:E.
      * intros [= <-]. destruct (IH eq_refl) as (pre & rest & -> & Hk).
        exists (c :: pre), rest. auto.
      * intros H. exists [], (c :: s). auto.
    + intros H. exists [], (c :: s). auto.
Qed.

Lemma run_calls {A} (r : regex) bol (s : jstring)
    (k : bool -> jstring -> option A) x :
  run r bol s k = Some x ->
  exists b pre rest, s = (pre ++ rest)%list /\ k b rest = Some x.
Proof.
  revert bol s k. induction r as [c|p| | |a IHa b IHb|a IHa b IHb|a IHa|p|p];
    intros bol s k; cbn [run].
  - destruct s as [|y s]; [discriminate|]. destruct (N.eqb y c); [|discriminate].
    intros H. exists false, [y], s. auto.
  - destruct s as [|y s]; [discriminate|]. destruct (p y); [|discriminate].
    intros H. exists false, [y], s. auto.
  - destruct bol; [|discriminate]. intros H. exists true, [], s. auto.
  - destruct s; [|discriminate]. intros H. exists bol, [], []. auto.
  - intros H. destruct (IHa _ _ _ H) as (b1 & pre1 & rest1 & -> & H1).
    destruct (IHb _ _ _ H1) as (b2 & pre2 & rest2 & -> & H2).
    exists b2, (pre1 ++ pre2)%list, rest2. now rewrite <- app_assoc.
  - destruct (run a bol s k) as [y|] eqn:E.
    + intros [= <-]. apply (IHa _ _ _ E).
    + apply IHb.
  - destruct (run a bol s k) as [y|] eqn:E.
    + intros [= <-]. apply (IHa _ _ _ E).
    + intros H. exists bol, [], s. auto.
  - intros H. destruct (star_calls _ _ _ _ H) as (pre & rest & -> & Hk).
    eauto.
  - destruct s as [|y s]; [discriminate|]. destruct (p y); [|discriminate].
    intros H. destruct (star_calls _ _ _ _ H) as (pre & rest & -> & Hk).
    exists false, (y :: pre), rest. auto.
Qed.

Lemma match_len_le r bol s n : match_len r bol s = Some n -> n ≤ length s.
Proof.
  unfold match_len. intros H.
  destruct (run_calls _ _ _ _ _ H) as (b & pre & rest & _ & [= <-]). lia.
Qed.

Lemma vowel_match_positive bol s n :
  match_len RE_AKSARA_VOWEL bol s = Some n -> 1 ≤ n ≤ length s.
Proof.
  intros H. split; [|now apply (match_len_le _ _ _ _ H)].
  unfold match_len, RE_AKSARA_VOWEL in H. cbn [run] in H.
  destruct s as [|c s]; [discriminate|].
  destruct (ci vowel_letters c); [|discriminate].
  destruct (star_calls _ _ _ _ H) as (pre & rest & -> & Hk).
  cbn [run] in Hk.
  destruct rest as [|y rest].
  - injection Hk as <-. cbn [length]. rewrite !length_app. simpl. lia.
  - destruct (ci [0x1e43%N; 0x1e25%N] y); injection Hk as <-;
      cbn [length]; rewrite !length_app; simpl; lia.
Qed.

Lemma search_from_spec r bol s i j n :
  search_from r bol s i = Some (j, n) ->
  exists pre rest b,
    s = (pre ++ rest)%list /\ j = i + length pre /\
    match_len r b rest = Some n.
Proof.
  revert bol i. induction s as [|c s IH]; intros bol i; cbn [search_from].
  - destruct (match_len r bol []) as [m|] eqn:E; [|discriminate].
    intros [= <- <-]. exists [], [], bol. split; [reflexivity|].
    split; [simpl; lia|exact E].
  - destruct (match_len r bol (c :: s)) as [m|] eqn:E.
    + intros [= <- <-]. exists [], (c :: s), bol. split; [reflexivity|].
      split; [simpl; lia|exact E].
    + intros H. destruct (IH _ _ H) as (pre & rest & b & -> & -> & Hm).
      exists (c :: pre), rest, b. split; [reflexivity|].
      split; [simpl; lia|exact Hm].
Qed.

(** *** The syllables of a sentence *)

Lemma split_syllables_total fuel str :
  length str ≤ fuel ->
  exists items,
    split_syllables fuel str = Some items /\
    concat items = str /\
    Forall (fun item => item <> []) items.
Proof.
  revert str. induction fuel as [|fuel IH]; intros str Hlen.
  - destruct str; [|simpl in Hlen; lia]. exists []. now split.
  - destruct str as [|c str]; [exists []; now split|].
    cbn [split_syllables].
    destruct (search RE_AKSARA_VOWEL (c :: str)) as [[i n]|] eqn:Hs.
    + destruct (search_from_spec _ _ _ _ _ _ Hs)
        as (pre & rest & b & Heq & -> & Hm).
      destruct (vowel_match_positive _ _ _ Hm) as [Hn Hn'].
      cbn [plus] in *.
      assert (Hshort : length (skipn (length pre + n) (c :: str)) ≤ fuel).
      { rewrite length_skipn. simpl in Hlen |- *. lia. }
      destruct (IH _ Hshort) as (more & -> & Hcat & Hne).
      eexists. split; [reflexivity|]. split.
      * cbn [concat]. rewrite Hcat. apply firstn_skipn.
      * constructor; [|exact Hne].
        intros H. apply (f_equal (@length N)) in H.
        rewrite length_firstn in H. simpl in H, Hlen. lia.
    + exists [c :: str]. split; [reflexivity|]. split.
      * simpl. now rewrite app_nil_r.
      * constructor; [discriminate|constructor].
Qed.

(** *** The expression for punctuation and numbers at one position *)

Lemma star_reaches {A} (p : N -> bool) (ds tl : jstring)
    (k : jstring -> option A) x :
  Forall (fun c => p c = true) ds ->
  starts_with p tl = false ->
  k tl = Some x ->
  star p (ds ++ tl) k = Some x.
Proof.
  intros Hds Htl Hk. induction Hds as [|c ds Hc _ IH]; simpl.
  - destruct tl as [|c tl]; [exact Hk|]. simpl in Htl |- *. now rewrite Htl.
  - now rewrite Hc, IH.
Qed.

Lemma star_bars_fail {A} (ds tl : jstring) (k : jstring -> option A) :
  (forall s, starts_with digit s = false -> k s = None) ->
  Forall (fun c => N.eqb bar c = true) ds ->
  starts_with digit tl = false ->
  starts_with (N.eqb bar) tl = false ->
  star (N.eqb bar) (ds ++ tl) k = None.
Proof.
  intros Hk Hds Hdig Hbar. induction Hds as [|c ds Hc _ IH]; cbn [app].
  - destruct tl as [|c tl]; [now apply Hk|]. cbn [starts_with star] in *.
    rewrite Hbar. now apply Hk.
  - cbn [star]. rewrite Hc, IH. apply Hk. cbn [starts_with].
    apply N.eqb_eq in Hc. now subst c.
Qed.

Lemma bars_are_bars n : Forall (fun c => N.eqb bar c = true) (repeat bar n).
Proof. induction n; constructor; auto. Qed.

Lemma punc_num_match_nil bol : match_len RE_AKSARA_PUNC_NUM bol [] = None.
Proof. destruct bol; reflexivity. Qed.

Lemma punc_num_match_plain bol c tl :
  punc_start c = false ->
  match_len RE_AKSARA_PUNC_NUM bol (c :: tl) = None.
Proof.
  unfold punc_start. intros H.
  apply orb_false_iff in H as [H Hdigit].
  apply orb_false_iff in H as [Hmark Hbar].
  rewrite N.eqb_sym in Hbar.
  unfold match_len, RE_AKSARA_PUNC_NUM. cbn [alts run].
  now rewrite Hmark, Hbar, Hdigit.
Qed.

Lemma punc_class_bar c :
  punc_class bar c = N.eqb c bar || digit c || dot_or_dash c.
Proof. reflexivity. Qed.

Lemma punc_class_digit d c :
  digit d = true -> punc_class d c = digit c || dot_or_dash c.
Proof.
  intros Hd. unfold punc_class.
  destruct (N.eqb_spec d bar) as [->|_]; [discriminate Hd|reflexivity].
Qed.

Lemma punc_num_match bol punc text :
  punc_ok punc ->
  stops_before punc text ->
  match_len RE_AKSARA_PUNC_NUM bol (punc ++ text) = Some (length punc).
Proof.
  intros Hok Hstop. destruct Hok as [c Hc|n|n d tail Hd Htail|d tail Hd Htail].
  - unfold match_len, RE_AKSARA_PUNC_NUM. cbn [alts run app].
    rewrite Hc. f_equal. simpl. lia.
  - cbn [repeat app] in *. cbn [stops_before] in Hstop.
    rewrite N.eqb_refl in Hstop. cbn [orb] in Hstop.
    assert (Hnext : starts_with digit text = false /\
                    starts_with (N.eqb bar) text = false).
    { destruct text as [|c text]; [now split|].
      cbn [starts_with] in Hstop |- *.
      rewrite punc_class_bar in Hstop.
      apply orb_false_iff in Hstop as [Hstop _].
      apply orb_false_iff in Hstop as [Hb Hdg].
      rewrite N.eqb_sym. now split. }
    destruct Hnext as [Hdig Hbar].
    unfold match_len, RE_AKSARA_PUNC_NUM. cbn [alts run].
    assert (Hmark : one_of (marker :: u ",?!:") bar = false) by reflexivity.
    rewrite Hmark, N.eqb_refl.
    rewrite star_bars_fail;
      [|intros s Hs; destruct s as [|y s]; [reflexivity|];
        simpl in Hs; now rewrite Hs
       |apply bars_are_bars|exact Hdig|exact Hbar].
    rewrite (AudioMore.star_run _ _ _ _ (bars_are_bars n) Hbar)
      by discriminate.
    f_equal. cbn [length]. rewrite length_app. lia.
  - cbn [repeat app] in *. cbn [stops_before] in Hstop.
    rewrite N.eqb_refl in Hstop. cbn [orb] in Hstop.
    unfold match_len, RE_AKSARA_PUNC_NUM. cbn [alts run].
    assert (Hmark : one_of (marker :: u ",?!:") bar = false) by reflexivity.
    rewrite Hmark, N.eqb_refl. rewrite <- app_assoc. cbn [app].
    erewrite star_reaches; [reflexivity|apply bars_are_bars| |].
    + cbn [starts_with].
      destruct (N.eqb_spec bar d) as [<-|_]; [discriminate Hd|reflexivity].
    + rewrite Hd.
      rewrite (AudioMore.star_run _ _ _ _ Htail Hstop) by discriminate.
      f_equal. cbn [length]. rewrite !length_app. simpl. rewrite length_app.
      lia.
  - cbn [stops_before] in Hstop. rewrite Hd, orb_true_r in Hstop.
    assert (Hbar : N.eqb bar d = false)
      by (destruct (N.eqb_spec bar d) as [<-|_]; [discriminate Hd|reflexivity]).
    assert (Hmark : one_of (marker :: u ",?!:") d = false).
    { unfold one_of, marker, Audio.marker, digit in *. simpl.
      apply andb_true_iff in Hd as [H1 H2].
      apply N.leb_le in H1, H2.
      repeat (apply orb_false_iff; split); try reflexivity;
        apply N.eqb_neq; lia. }
    unfold match_len, RE_AKSARA_PUNC_NUM. cbn [alts run app].
    rewrite Hmark, Hbar, Hd.
    assert (Hcls : forall c, punc_class d c = digit c || dot_or_dash c)
      by (intros c; now apply punc_class_digit).
    assert (Htail' : Forall (fun c => digit c || dot_or_dash c = true) tail).
    { eapply Forall_impl; [exact Htail|]. intros c Hc. cbv beta in Hc.
      now rewrite <- Hcls. }
    assert (Hstop' : starts_with (fun c => digit c || dot_or_dash c) text
                     = false).
    { destruct text as [|c text]; [reflexivity|].
      cbn [starts_with] in Hstop |- *. now rewrite <- Hcls. }
    rewrite (AudioMore.star_run _ _ _ _ Htail' Hstop') by discriminate.
    f_equal. cbn [length]. rewrite length_app. lia.
Qed.

(** *** The sentences between the punctuation *)

Lemma punc_num_split_bol bol skip cur s :
  split_scan RE_AKSARA_PUNC_NUM bol skip cur s
  = split_scan RE_AKSARA_PUNC_NUM false skip cur s.
Proof. destruct skip, s; reflexivity. Qed.

Lemma split_scan_skip_units r more tl cur :
  split_scan r false (length more) cur (more ++ tl)
  = split_scan r false 0 cur tl.
Proof.
  induction more as [|c more IH]; [reflexivity|]. cbn [length app split_scan].
  exact IH.
Qed.

Lemma punc_num_split_plain plain rest cur :
  Forall (fun c => punc_start c = false) plain ->
  split_scan RE_AKSARA_PUNC_NUM false 0 cur (plain ++ rest)
  = split_scan RE_AKSARA_PUNC_NUM false 0 (rev plain ++ cur) rest.
Proof.
  intros Hplain. revert cur.
  induction Hplain as [|c plain Hc _ IH]; intros cur; [reflexivity|].
  cbn [app split_scan]. rewrite punc_num_match_plain by exact Hc.
  rewrite IH. cbn [rev]. now rewrite <- app_assoc.
Qed.

Lemma punc_ok_cons punc :
  punc_ok punc ->
  exists c more,
    punc = c :: more /\
    (if N.eqb c bar || digit c
     then Forall (fun x => punc_class c x = true) more
     else more = []).
Proof.
  intros [c Hc|n|n d tail Hd Htail|d tail Hd Htail].
  - exists c, []. split; [reflexivity|].
    assert (H : N.eqb c bar || digit c = false).
    { unfold one_of in Hc. apply existsb_exists in Hc as (x & Hin & Heq).
      apply N.eqb_eq in Heq. subst x.
      destruct Hin as [<-|[<-|[<-|[<-|[<-|[]]]]]]; reflexivity. }
    now rewrite H.
  - exists bar, (repeat bar n). split; [reflexivity|].
    rewrite N.eqb_refl. cbn [orb].
    induction n; constructor; auto.
  - exists bar, (repeat bar n ++ d :: tail)%list. split; [reflexivity|].
    rewrite N.eqb_refl. cbn [orb]. apply Forall_app. split.
    + induction n; constructor; auto.
    + constructor; [|exact Htail]. rewrite punc_class_bar, Hd.
      now rewrite orb_true_r.
  - exists d, tail. split; [reflexivity|]. now rewrite Hd, orb_true_r.
Qed.

Lemma punc_num_split_items items cur :
  aligned items ->
  split_scan RE_AKSARA_PUNC_NUM false 0 cur (text_of items)
  = rev cur :: List.map snd items.
Proof.
  revert cur. induction items as [|[punc sentence] items IH]; intros cur;
    [reflexivity|].
  intros (Hok & Hplain & Hstop & Hrest).
  cbn [text_of flat_map fst snd List.map]. fold (text_of items).
  rewrite <- app_assoc.
  pose proof (punc_num_match false punc _ Hok Hstop) as Hmatch.
  destruct (punc_ok_cons punc Hok) as (c & more & -> & _).
  cbn [app length] in *. cbn [split_scan]. rewrite Hmatch.
  rewrite split_scan_skip_units, punc_num_split_plain by exact Hplain.
  rewrite IH by exact Hrest. now rewrite app_nil_r, rev_involutive.
Qed.

Lemma punc_num_split head items :
  Forall (fun c => punc_start c = false) head ->
  aligned items ->
  split RE_AKSARA_PUNC_NUM (head ++ text_of items)
  = head :: List.map snd items.
Proof.
  intros Hhead Hok. unfold split.
  assert (Hscan : split_scan RE_AKSARA_PUNC_NUM true 0 []
                    (head ++ text_of items)
                  = head :: List.map snd items).
  { rewrite punc_num_split_bol, punc_num_split_plain by exact Hhead.
    rewrite punc_num_split_items by exact Hok.
    now rewrite app_nil_r, rev_involutive. }
  destruct (head ++ text_of items)%list as [|c s] eqn:E; [|exact Hscan].
  rewrite punc_num_match_nil.
  apply app_eq_nil in E as [-> E].
  destruct items as [|[punc sentence] items]; [reflexivity|].
  destruct Hok as (Hpunc & _).
  destruct (punc_ok_cons punc Hpunc) as (c & more & -> & _). discriminate E.
Qed.

(** *** The loop over the sentences *)

Lemma syllables_spec sentence :
  split_syllables (length sentence) sentence = Some (syllables sentence) /\
  concat (syllables sentence) = sentence /\
  Forall (fun item => item <> []) (syllables sentence).
Proof.
  unfold syllables.
  destruct (split_syllables_total (length sentence) sentence (Nat.le_refl _))
    as (items & -> & Hcat & Hne).
  now split.
Qed.

Lemma split_sentence_end data pre sentence acc :
  data = (pre ++ sentence)%list ->
  split_sentence data (Some (length pre, acc)) sentence
  = Some (length data, (acc ++ syllables sentence)%list).
Proof.
  intros ->. unfold split_sentence.
  rewrite (proj1 (syllables_spec sentence)), <- length_app.
  now rewrite (lookup_ge_None_2 (pre ++ sentence) (length (pre ++ sentence))).
Qed.

Lemma split_sentence_punc data pre sentence punc tl acc :
  data = ((pre ++ sentence) ++ punc ++ tl)%list ->
  punc_ok punc ->
  stops_before punc tl ->
  split_sentence data (Some (length pre, acc)) sentence
  = Some (length ((pre ++ sentence) ++ punc),
          (acc ++ syllables sentence ++ [punc])%list).
Proof.
  intros Hdata Hok Hstop. unfold split_sentence.
  rewrite (proj1 (syllables_spec sentence)), <- length_app.
  destruct (punc_ok_cons punc Hok) as (c & more & -> & Hmore).
  cbn [app] in Hdata.
  assert (Hc : data !! length (pre ++ sentence) = Some c)
    by (rewrite Hdata; now apply list_lookup_middle).
  rewrite Hc. cbn [stops_before] in Hstop.
  destruct (N.eqb c bar || digit c).
  - assert (Hrun : Audio.take_while (punc_class c)
                     (skipn (S (length (pre ++ sentence))) data) = more).
    { rewrite Hdata.
      replace ((pre ++ sentence) ++ c :: more ++ tl)%list
        with (((pre ++ sentence) ++ [c]) ++ more ++ tl)%list
        by now rewrite <- app_assoc.
      replace (S (length (pre ++ sentence)))
        with (length ((pre ++ sentence) ++ [c]))
        by (rewrite (length_app _ [c]); simpl; lia).
      rewrite drop_app_length. now apply AudioMore.take_while_run. }
    rewrite Hrun. f_equal. f_equal.
    + rewrite (length_app _ (c :: more)). simpl. lia.
    + now rewrite <- app_assoc.
  - subst more. f_equal. f_equal.
    + rewrite (length_app _ [c]). simpl. lia.
    + now rewrite <- app_assoc.
Qed.

Lemma split_sentence_fold data pre sentence items acc :
  aligned items ->
  data = (pre ++ sentence ++ text_of items)%list ->
  exists idx,
    fold_left (split_sentence data) (sentence :: List.map snd items)
      (Some (length pre, acc))
    = Some (idx,
            (acc ++ syllables sentence
             ++ flat_map (fun it => fst it :: syllables (snd it)) items)%list).
Proof.
  revert pre sentence acc.
  induction items as [|[punc next] items IH]; intros pre sentence acc Hok Hdata.
  - cbn [text_of flat_map List.map fold_left] in *. rewrite app_nil_r in Hdata.
    rewrite (split_sentence_end _ _ _ _ Hdata). rewrite app_nil_r. eauto.
  - destruct Hok as (Hpunc & Hplain & Hstop & Hrest).
    change (fold_left (split_sentence data)
              (sentence :: List.map snd ((punc, next) :: items))
              (Some (length pre, acc)))
      with (fold_left (split_sentence data) (next :: List.map snd items)
              (split_sentence data (Some (length pre, acc)) sentence)).
    assert (Hdata' : data
                     = ((pre ++ sentence) ++ punc
                        ++ next ++ text_of items)%list).
    { rewrite Hdata. cbn [text_of flat_map fst snd]. fold (text_of items).
      now rewrite <- !app_assoc. }
    rewrite (split_sentence_punc data pre sentence punc _ acc Hdata' Hpunc
               Hstop).
    destruct (IH ((pre ++ sentence) ++ punc)%list next
                (acc ++ syllables sentence ++ [punc])%list Hrest)
      as (idx & ->).
    { rewrite Hdata'. now rewrite <- !app_assoc. }
    exists idx. f_equal. f_equal. cbn [flat_map fst snd].
    now rewrite <- !app_assoc.
Qed.

Lemma split_sentence_returns data sentences st :
  is_Some st -> is_Some (fold_left (split_sentence data) sentences st).
Proof.
  revert st. induction sentences as [|sentence sentences IH]; intros st Hst;
    [exact Hst|].
  cbn [fold_left]. apply IH. destruct Hst as [[idx items] ->].
  unfold split_sentence.
  rewrite (proj1 (syllables_spec sentence)).
  destruct (data !! (idx + length sentence)) as [punc|]; [|eauto].
  destruct (N.eqb punc bar || digit punc); eauto.
Qed.

Lemma concat_items_of head items :
  concat (items_of head items) = (head ++ text_of items)%list.
Proof.
  unfold items_of. rewrite concat_app.
  rewrite (proj1 (proj2 (syllables_spec head))). f_equal.
  induction items as [|[punc sentence] items IH]; [reflexivity|].
  cbn [flat_map text_of fst snd app concat]. fold (text_of items).
  rewrite concat_app, IH.
  rewrite (proj1 (proj2 (syllables_spec sentence))).
  now rewrite <- app_assoc.
Qed.

(** X17.  [splitAksara] returns on every text.  On a text made of
    sentences and of punctuation and numbers that the expression and the
    loop read alike -- a mark, or bars, bars with a number, or a number,
    not followed by a unit the loop would add to them -- it returns the
    syllables of each sentence with the punctuation between them: the
    items concatenate to the text, and none is empty.  A bar followed by
    a dash is not read alike, and the dash comes out twice. *)
Theorem splitAksara_keeps_text (head : jstring)
    (items : list (jstring * jstring)) :
  Forall (fun c => punc_start c = false) head ->
  aligned items ->
  (forall data, is_Some (splitAksara data)) /\
  splitAksara (head ++ text_of items) = Some (items_of head items) /\
  concat (items_of head items) = (head ++ text_of items)%list /\
  Forall (fun item => item <> []) (items_of head items) /\
  splitAksara (u "ka|-ma") = Some [u "ka"; u "|-"; u "-ma"].
Proof.
  intros Hhead Hok. split; [|split; [|split; [|split]]].
  - intros data. unfold splitAksara.
    destruct (split_sentence_returns data (split RE_AKSARA_PUNC_NUM data)
                (Some (0, []))) as [[idx res] ->]; eauto.
  - unfold splitAksara. rewrite punc_num_split by assumption.
    destruct (split_sentence_fold (head ++ text_of items) [] head items []
                Hok eq_refl) as (idx & Hfold).
    cbn [length] in Hfold. rewrite Hfold. reflexivity.
  - apply concat_items_of.
  - unfold items_of. apply Forall_app. split.
    + apply syllables_spec.
    + clear Hhead. induction items as [|[punc sentence] items IH];
        [constructor|].
      destruct Hok as (Hpunc & _ & _ & Hrest).
      cbn [flat_map fst snd]. constructor.
      * destruct (punc_ok_cons punc Hpunc) as (c & more & -> & _).
        discriminate.
      * apply Forall_app. split; [apply syllables_spec|now apply IH].
  - vm_compute. reflexivity.
Qed.

(** A word, a bar with a number, a word. *)
Lemma splitAksara_keeps_text_witness :
  splitAksara (u "rAma" ++ u "|12|" ++ u "sIta")
  = Some (items_of (u "rAma") [(u "|12|", u "sIta")]).
Proof.
  assert (Hhead : Forall (fun c => punc_start c = false) (u "rAma"))
    by (repeat constructor).
  assert (Hok : aligned [(u "|12|", u "sIta")]).
  { split; [|split; [repeat constructor|split; [reflexivity|exact I]]].
    apply (punc_bars_num 0 49%N (u "2|")); [reflexivity|].
    repeat constructor. }
  exact (proj1 (proj2 (splitAksara_keeps_text (u "rAma")
                         [(u "|12|", u "sIta")] Hhead Hok))).
Defined.

(** *** The type of an item *)

Lemma type_of_part_char text :
  exists c, type_of_part text = [c] /\ type_char c = true.
Proof.
  unfold type_of_part. destruct text as [|c text]; [now exists 32%N|].
  destruct (N.eqb c marker); [now exists 117%N|].
  destruct (test RE_AKSARA_TYPE_NUM (c :: text)); [now exists 110%N|].
  destruct (test RE_AKSARA_TYPE_PUNC (c :: text)); [now exists 112%N|].
  cbv zeta.
  destruct (search RE_AKSARA_CONS_HELP_1 _) as [[i n]|];
    destruct (test RE_AKSARA_VOWEL (c :: text));
    try (eexists; split; [reflexivity|reflexivity]).
  - destruct n as [|[|n]]; eexists; (split; [reflexivity|reflexivity]).
  - destruct n as [|[|n]]; eexists; (split; [reflexivity|reflexivity]).
Qed.

Lemma existsb_rev {A} (f : A -> bool) (l : list A) :
  existsb f (rev l) = existsb f l.
Proof.
  induction l as [|c l IH]; [reflexivity|]. cbn [rev existsb].
  rewrite existsb_app, IH. cbn [existsb]. rewrite orb_false_r.
  apply orb_comm.
Qed.

Lemma split_on_parts cur text :
  existsb (N.eqb tab) cur = false ->
  Forall (fun part => existsb (N.eqb tab) part = false)
    (split_on tab cur text) /\
  length (split_on tab cur text) = S (count_occ N.eq_dec text tab).
Proof.
  revert cur. induction text as [|c text IH]; intros cur Hcur;
    cbn [split_on count_occ].
  - split; [|reflexivity]. constructor; [|constructor].
    rewrite existsb_rev. exact Hcur.
  - destruct (N.eqb_spec c tab) as [->|Hne].
    + destruct (IH [] eq_refl) as [Hparts Hlen].
      destruct (N.eq_dec tab tab) as [_|Hn]; [|now destruct Hn].
      split; [|cbn [length]; now rewrite Hlen].
      constructor; [|exact Hparts]. rewrite existsb_rev. exact Hcur.
    + destruct (N.eq_dec c tab) as [Heq|_]; [now destruct Hne|].
      apply IH. cbn [existsb]. rewrite Hcur, orb_false_r.
      apply N.eqb_neq. congruence.
Qed.

Lemma split_on_whole text :
  existsb (N.eqb tab) text = false ->
  forall cur, split_on tab cur text = [(rev cur ++ text)%list].
Proof.
  induction text as [|c text IH]; intros Hno cur; cbn [split_on].
  - now rewrite app_nil_r.
  - cbn [existsb] in Hno. apply orb_false_iff in Hno as [Hc Hno].
    rewrite N.eqb_sym in Hc. rewrite Hc, (IH Hno). cbn [rev].
    now rewrite <- app_assoc.
Qed.

Lemma getAksaraType_unfold depth text :
  getAksaraType (S depth) text
  = if existsb (N.eqb tab) text then
      match mapM (getAksaraType depth) (split_on tab [] text) with
      | Some types => Some (concat types)
      | None => None
      end
    else Some (type_of_part text).
Proof. reflexivity. Qed.

Lemma getAksaraType_part depth part :
  existsb (N.eqb tab) part = false ->
  getAksaraType (S depth) part = Some (type_of_part part).
Proof. intros H. rewrite getAksaraType_unfold. now rewrite H. Qed.

Lemma mapM_parts depth parts :
  Forall (fun part => existsb (N.eqb tab) part = false) parts ->
  mapM (getAksaraType (S depth)) parts
  = Some (List.map type_of_part parts).
Proof.
  induction 1 as [|part parts Hpart _ IH]; [reflexivity|].
  cbn [mapM List.map]. rewrite (getAksaraType_part _ _ Hpart), IH.
  reflexivity.
Qed.

Lemma getAksaraType_returns depth text :
  getAksaraType (S (S depth)) text
  = Some (concat (List.map type_of_part (split_on tab [] text))).
Proof.
  rewrite getAksaraType_unfold.
  destruct (existsb (N.eqb tab) text) eqn:Htab.
  - rewrite mapM_parts; [reflexivity|]. now apply split_on_parts.
  - rewrite (split_on_whole _ Htab). cbn [rev app List.map concat].
    now rewrite app_nil_r.
Qed.

(** X18.  [getAksaraType] returns on every text, the calls through
    [map] nesting once at most: it gives one character for each part
    between the tabs of the text -- one for a text without tab, the
    blank for an empty part -- and each is one of the blank, [u], [n],
    [p], [0], [1], [2], [4], [5] and [6]. *)
Theorem getAksaraType_types (depth : nat) (text : jstring) :
  2 ≤ depth ->
  exists types,
    getAksaraType depth text = Some types /\
    types = concat (List.map type_of_part (split_on tab [] text)) /\
    length types = S (count_occ N.eq_dec text tab) /\
    Forall (fun c => type_char c = true) types.
Proof.
  intros Hdepth. destruct depth as [|[|depth]]; try lia.
  eexists. split; [apply getAksaraType_returns|]. split; [reflexivity|].
  destruct (split_on_parts [] text eq_refl) as [_ Hlen].
  rewrite <- Hlen. clear Hlen.
  induction (split_on tab [] text) as [|part parts IH]; [now split|].
  cbn [List.map concat length]. destruct IH as [IHlen IHall].
  destruct (type_of_part_char part) as (c & -> & Hc).
  cbn [app length]. split; [now rewrite IHlen|]. now constructor.
Qed.

(** A consonant cluster with its vowel, a tab, a consonant. *)
Lemma getAksaraType_types_witness :
  getAksaraType 2 (u "tra" ++ tab :: u "k") = Some (u "61").
Proof.
  destruct (getAksaraType_types 2 (u "tra" ++ tab :: u "k") (Nat.le_refl 2))
    as (types & Hcall & -> & _).
  rewrite Hcall. vm_compute. reflexivity.
Defined.

(** *** The consonant at the end of a word *)

Lemma consonant_at_end_spec l :
  consonant_at_end l = true <->
  (exists x, l = [x]) \/
  (exists x k next rest,
      l = (x :: repeat [marker] k ++ next :: rest)%list /\
      ends_word next = true).
Proof.
  induction l as [|x l IH].
  - split; [discriminate|].
    intros [(x & H)|(x & k & next & rest & H & _)]; discriminate H.
  - destruct l as [|next rest].
    + split; [intros _; left; eauto|reflexivity].
    + change (consonant_at_end (x :: next :: rest))
        with (ends_word next
              || (str_eqb next [marker] && negb (Nat.eqb (length rest) 0)
                  && consonant_at_end (next :: rest))).
      split.
      * intros H. right. apply orb_true_iff in H as [H|H].
        -- exists x, 0, next, rest. now split.
        -- apply andb_true_iff in H as [H Hrec].
           apply andb_true_iff in H as [Hnext Hrest].
           apply JSFacts.str_eqb_spec in Hnext. subst next.
           apply (proj1 IH) in Hrec
             as [(y & Hy)|(y & k & next & rest' & Hy & Hend)].
           ++ injection Hy as _ ->. discriminate Hrest.
           ++ injection Hy as <- ->.
              exists x, (S k), next, rest'. now split.
      * intros [(y & H)|(y & k & next' & rest' & H & Hend)]; [discriminate H|].
        injection H as <- H. destruct k as [|k]; cbn [repeat app] in H.
        -- injection H as -> _. now rewrite Hend.
        -- injection H as -> ->. apply orb_true_iff. right.
           assert (Hrec : consonant_at_end
                            ([marker] :: repeat [marker] k ++ next' :: rest')
                          = true).
           { apply IH. right. exists [marker], k, next', rest'. now split. }
           rewrite Hrec, andb_true_r.
           apply andb_true_iff. split; [now apply JSFacts.str_eqb_spec|].
           rewrite length_app. cbn [length].
           now rewrite Nat.add_succ_r.
Qed.

(** X20.  [isConsonantAtEnd(sy, i)] without its recursion: it holds
    exactly when [sy[i]] is the last item, or when after [sy[i]] and any
    number of markers there is an item that is a number or begins with
    punctuation.  So a consonant before a marker that ends the list is
    not at the end. *)
Theorem isConsonantAtEnd_spec (sy : list jstring) (i : nat) :
  (isConsonantAtEnd sy i = true <->
   (exists x, skipn i sy = [x]) \/
   (exists x k next rest,
       skipn i sy = (x :: repeat [marker] k ++ next :: rest)%list /\
       ends_word next = true)) /\
  (forall x, isConsonantAtEnd [x; [marker]] 0 = false).
Proof.
  split; [apply consonant_at_end_spec|].
  intros x. reflexivity.
Qed.

End AksaraFacts.

(** ** The registry and the map compiler together *)

Module RegistryMakeMap.
Import MakeMap MakeMapSpec MakeMapMoreSpec MakeMapFacts MakeMapMore.
Import Registry RegistrySpec RegistryFacts.
Local Open Scope nat_scope.

Lemma add_entry_marked_keep alternates group toGroup tokens acc entry :
  marked tokens acc ->
  marked tokens (add_entry alternates group toGroup acc entry).
Proof.
  intros H. destruct entry as [key F]. unfold add_entry.
  destruct (prop key toGroup) as [T0|]; [|exact H].
  destruct (str_eqb group (u "vowel_marks") || str_eqb group (u "virama"));
    [|exact H].
  intros tok Hin. cbn [t_marks]. apply set_all_lookup. right. now apply H.
Qed.

Lemma add_group_marked_keep alternates toScheme tokens acc g :
  marked tokens acc -> marked tokens (add_group alternates toScheme acc g).
Proof.
  intros H. destruct g as [group fromGroup]. unfold add_group.
  destruct (includes_str _ group); [exact H|].
  destruct (prop group (groups toScheme)); [|exact H].
  apply fold_left_keeps; [exact H|].
  intros a e. apply add_entry_marked_keep.
Qed.

(** The renderings of the source's vowel marks whose key the target
    has are keys of [marks]. *)
Lemma makeMap_marks schemes from to options m fromScheme toScheme
    fromGroup toGroup key F :
  makeMap schemes from to options = Ok m ->
  schemes !! from = Some fromScheme ->
  schemes !! to = Some toScheme ->
  In (u "vowel_marks", fromGroup) (groups fromScheme) ->
  prop (u "vowel_marks") (groups toScheme) = Some toGroup ->
  In (key, F) fromGroup ->
  is_Some (prop key toGroup) ->
  is_Some (marks m !! F).
Proof.
  intros Hm Hfrom Hto Hg HtoG Hentry Hkey. unfold makeMap in Hm.
  rewrite Hfrom, Hto in Hm.
  destruct (match accented_vowel_alternates fromScheme with
            | Some ava => _ | None => _ end) as [ml|e] eqn:Hacc;
    [|discriminate].
  cbn [bind] in Hm.
  destruct (group_prop to toScheme _ _); [|discriminate].
  destruct (group_prop to toScheme _ _); [|discriminate].
  destruct (group_prop from fromScheme _ _); [|discriminate].
  injection Hm as <-. cbn [marks].
  assert (Hgrow : forall tok,
             is_Some (t_marks (group_tables fromScheme toScheme) !! tok) ->
             is_Some (fst ml !! tok)).
  { destruct (accented_vowel_alternates fromScheme) as [ava|].
    - destruct (add_accented_Ok _ _ _ _ Hacc) as (Hf & _). exact Hf.
    - injection Hacc as <-. auto. }
  apply Hgrow. unfold group_tables.
  apply (fold_left_reaches _ (marked [F]) _ (u "vowel_marks", fromGroup));
    [exact Hg| | |now left].
  - intros acc. unfold add_group.
    change (includes_str
              [u "alternates"; u "accented_vowel_alternates";
               u "isRomanScheme"] (u "vowel_marks")) with false.
    cbv iota. rewrite HtoG.
    apply (fold_left_reaches _ _ _ (key, F)); [exact Hentry| |].
    + intros acc'. unfold add_entry. destruct Hkey as [T0 ->].
      change (str_eqb (u "vowel_marks") (u "vowel_marks")
              || str_eqb (u "vowel_marks") (u "virama")) with true.
      cbv iota. intros t [<-|[]]. cbn [t_marks].
      apply set_all_lookup. left. now left.
    + intros acc' e. apply add_entry_marked_keep.
  - intros acc g. apply add_group_marked_keep.
Qed.

Lemma In_prop_is_Some {V} key (v : V) obj :
  In (key, v) obj -> is_Some (prop key obj).
Proof.
  induction obj as [|[k w] obj IH]; [intros []|]. simpl.
  intros [[= -> ->]|Hin]; [rewrite str_eqb_refl; eauto|].
  destruct (str_eqb k key); eauto.
Qed.

(** X22.  What [addRomanScheme] derives the vowel marks for: once a
    Roman scheme without [vowel_marks] is added, the map from a scheme
    with vowel marks into it has, among its [marks], the rendering of
    every vowel mark of the source whose key is the mark of a vowel,
    other than the short a, of the Roman scheme. *)
Theorem derived_marks_are_compiled (dv : group) (name : jstring) (l : loc)
    (st st' : store) (s s' : scheme) (vowels : group)
    (schemes : gmap jstring scheme) (from : jstring) (fromScheme : scheme)
    (fromMarks : group) (m : compiled) (k value key F : jstring) :
  objects st !! l = Some s ->
  prop (u "vowel_marks") (groups s) = None ->
  prop (u "vowels") (groups s) = Some vowels ->
  addRomanScheme dv name l st = (st', Ok tt) ->
  scheme_of st' name = Some s' ->
  schemes !! name = Some s' ->
  schemes !! from = Some fromScheme ->
  In (u "vowel_marks", fromMarks) (groups fromScheme) ->
  In (key, F) fromMarks ->
  In (k, value) vowels -> k <> key_a -> mark_of dv k = key ->
  makeMap schemes from name ∅ = Ok m ->
  is_Some (marks m !! F).
Proof.
  intros Hl Hvm Hv Hcall Hs' Hto Hfrom Hg Hentry Hvowel Hk Hmark Hm.
  destruct (addRomanScheme_returns dv name l st st' s Hl Hcall)
    as ((s1 & _ & Hs1 & _ & _ & _ & _ & marks & Hmarks & Hold) & _).
  assert (s1 = s') by congruence. subst s1.
  rewrite Hvm in Hold. destruct Hold as (vowels' & Hv' & Hread).
  assert (vowels' = vowels) by congruence. subst vowels'.
  apply (makeMap_marks schemes from name ∅ m fromScheme s' fromMarks marks
           key F Hm Hfrom Hto Hg Hmarks Hentry).
  rewrite Hread. apply (In_prop_is_Some key value).
  apply in_rev. rewrite rev_involutive.
  unfold marks_of_vowels. apply in_flat_map. exists (k, value).
  split; [exact Hvowel|]. cbn [fst snd].
  rewrite (str_eqb_ne k key_a Hk). rewrite Hmark. now left.
Qed.

(** Harvard-Kyoto as written, added to a registry with Devanagari. *)
Lemma derived_marks_are_compiled_witness :
  exists s' m,
    scheme_of (fst (addRomanScheme vowel_to_marks (u "hk") 1
                      (store_of hk_written))) (u "hk") = Some s' /\
    makeMap (<[u "hk" := s']> Demo.schemes) (u "devanagari") (u "hk") ∅
    = Ok m /\
    is_Some (marks m !! [0x93e%N]).
Proof.
  destruct (addRomanScheme vowel_to_marks (u "hk") 1 (store_of hk_written))
    as [st' r] eqn:Hcall.
  assert (H : r = Ok tt /\
              exists s', scheme_of st' (u "hk") = Some s' /\
                         exists m,
                           makeMap (<[u "hk" := s']> Demo.schemes)
                             (u "devanagari") (u "hk") ∅ = Ok m).
  { assert (Hr : (st', r)
                 = addRomanScheme vowel_to_marks (u "hk") 1
                     (store_of hk_written)) by (now rewrite Hcall).
    apply (f_equal snd) in Hr as Hr2. apply (f_equal fst) in Hr.
    cbn [fst snd] in Hr, Hr2. subst st' r.
    split; [vm_compute; reflexivity|].
    eexists. split; [vm_compute; reflexivity|].
    eexists. vm_compute. reflexivity. }
  destruct H as (-> & s' & Hs' & m & Hm).
  exists s', m. cbn [fst]. split; [exact Hs'|]. split; [exact Hm|].
  assert (Hfrom : <[u "hk" := s']> Demo.schemes !! u "devanagari"
                  = Some Demo.devanagari).
  { rewrite lookup_insert_ne by discriminate. reflexivity. }
  assert (Hg : In (u "vowel_marks",
                   [([0x93e], [0x93e]); ([0x93f], [0x93f])]%N)
                 (groups Demo.devanagari)) by (right; now left).
  assert (Hentry : In ([0x93e%N], [0x93e%N])
                     [([0x93e], [0x93e]); ([0x93f], [0x93f])]%N)
    by now left.
  assert (Hvowel : In ([0x906%N], u "A")
                     [([0x905], u "a"); ([0x906], u "A");
                      ([0x907], u "i")]%N) by (right; now left).
  assert (Hk : [0x906%N] <> key_a) by discriminate.
  exact (derived_marks_are_compiled vowel_to_marks (u "hk") 1
           (store_of hk_written) st' hk_written s'
           [([0x905], u "a"); ([0x906], u "A"); ([0x907], u "i")]%N
           (<[u "hk" := s']> Demo.schemes) (u "devanagari") Demo.devanagari
           [([0x93e], [0x93e]); ([0x93f], [0x93f])]%N m
           [0x906%N] (u "A") [0x93e%N] [0x93e%N]
           eq_refl eq_refl eq_refl Hcall Hs' (lookup_insert_eq _ _ _)
           Hfrom Hg Hentry Hvowel Hk eq_refl Hm).
Defined.

End RegistryMakeMap.

(** ** The Roman engine on plain objects *)

Module RomanReading.
Import MakeMap Options Roman RomanSpec RomanMoreSpec RomanFacts RomanMore.
Import Prototype RomanReadingSpec.
Local Open Scope nat_scope.

(** *** Texts without member names *)

Lemma is_prefix_firstn k (b r : jstring) :
  is_prefix (firstn k b) (b ++ r) = true.
Proof.
  revert b. induction k as [|k IH]; intros [|x b]; try reflexivity.
  cbn [firstn app is_prefix]. now rewrite N.eqb_refl, IH.
Qed.

Lemma includes_prefix (p s : jstring) :
  is_prefix p s = true -> includes s p = true.
Proof. intros H. destruct s; cbn [includes]; now rewrite H. Qed.

Lemma includes_tail x (s p : jstring) :
  includes (x :: s) p = false -> includes s p = false.
Proof. cbn [includes]. now intros [_ H]%orb_false_iff. Qed.

Lemma free_tail x s :
  free_of_names (x :: s) = true -> free_of_names s = true.
Proof.
  unfold free_of_names. rewrite !forallb_forall. intros H name Hin.
  specialize (H name Hin). apply negb_true_iff in H.
  apply negb_true_iff. now apply (includes_tail x).
Qed.

Lemma free_skipn k b r :
  free_of_names (b ++ r) = true -> free_of_names (skipn k b ++ r) = true.
Proof.
  revert k. induction b as [|x b IH]; intros k H.
  - now destruct k.
  - destruct k as [|k]; [exact H|]. cbn [skipn]. apply IH.
    now apply (free_tail x).
Qed.

Lemma free_token k b r :
  free_of_names (b ++ r) = true ->
  existsb (str_eqb (firstn k b)) names = false.
Proof.
  intros H. destruct (existsb _ names) eqn:E; [|reflexivity].
  apply existsb_exists in E as (name & Hin & Heq).
  apply JSFacts.str_eqb_spec in Heq.
  unfold free_of_names in H. rewrite forallb_forall in H.
  specialize (H name Hin). apply negb_true_iff in H.
  rewrite includes_prefix in H; [discriminate|].
  rewrite <- Heq. apply is_prefix_firstn.
Qed.

Section Reads.
Variable native : jstring -> jstring.
Variable m : compiled.
Variable options : gmap string jsval.

Lemma inherited_None key :
  existsb (str_eqb key) names = false -> inherited native !! key = None.
Proof.
  intros H. unfold inherited. apply not_elem_of_list_to_map_1.
  intros Hin. apply list_elem_of_fmap in Hin as ([k v] & -> & Hin).
  apply list_elem_of_In, in_map_iff in Hin as (name & [= <- _] & Hname).
  assert (E : existsb (str_eqb name) names = true).
  { apply existsb_exists. exists name. split; [exact Hname|].
    now apply JSFacts.str_eqb_spec. }
  cbn [fst] in H. congruence.
Qed.

Lemma plain_own obj key :
  existsb (str_eqb key) names = false -> plain native obj !! key = obj !! key.
Proof.
  intros H. unfold plain. rewrite lookup_union, (inherited_None _ H).
  now destruct (obj !! key).
Qed.

(** *** The runs on both readings *)

Lemma emit_match_visible had token tempLetter :
  existsb (str_eqb token) names = false ->
  emit_match (visible native m) had token tempLetter
  = emit_match m had token tempLetter.
Proof.
  intros H. unfold emit_match.
  change (toRoman (visible native m)) with (toRoman m).
  change (fromSchemeA (visible native m)) with (fromSchemeA m).
  change (marks (visible native m)) with (plain native (marks m)).
  now rewrite (plain_own _ _ H).
Qed.

Lemma match_tokens_visible n st :
  (forall k, existsb (str_eqb (firstn k (tokenBuffer st))) names = false) ->
  match_tokens (visible native m) options n st = match_tokens m options n st.
Proof.
  revert st. induction n as [|n IH]; intros st Hfree; [reflexivity|].
  cbn [match_tokens]. unfold substr0.
  change (toRoman (visible native m)) with (toRoman m).
  change (letters (visible native m)) with (plain native (letters m)).
  change (consonants (visible native m)) with (plain native (consonants m)).
  rewrite !(plain_own _ _ (Hfree (S n))).
  destruct (sgml_step options st (firstn (S n) (tokenBuffer st)))
    as [sgml|]; [|reflexivity].
  destruct (letters m !! firstn (S n) (tokenBuffer st)) as [tl|],
    (truthy_val sgml || toggledTrans st), n as [|n'];
    try reflexivity; try (apply IH; exact Hfree);
    now rewrite (emit_match_visible _ _ _ (Hfree _)).
Qed.

(** What is left of the buffer after the inner loop. *)
Lemma match_tokens_leaves n st a st' :
  match_tokens m options n st = (a, st') ->
  exists k, tokenBuffer st' = skipn k (tokenBuffer st).
Proof.
  intros H.
  destruct (match_tokens_cases _ _ _ _ _ _ H)
    as [(_ & _ & ->)|(k & tok & _ & _ & Hcase)]; [now exists 0|].
  destruct Hcase as [(_ & _ & Hb & _)|[(tl & _ & _ & Hb & _)|(_ & _ & Hb & _)]];
    eauto.
Qed.

Lemma outer_loop_visible fuel rest st :
  buffer_ok m st ->
  free_of_names (tokenBuffer st ++ rest) = true ->
  outer_loop (visible native m) options fuel rest st
  = outer_loop m options fuel rest st.
Proof.
  revert rest st. induction fuel as [|fuel IH]; intros rest st Hok Hfree;
    [reflexivity|].
  assert (Hinner : forall s1 r,
             free_of_names (tokenBuffer s1 ++ r) = true ->
             (tokenBuffer s1 = [] /\ loop_bound m = 0 \/
              tokenBuffer s1 <> [] /\ 1 ≤ loop_bound m /\
              length (tokenBuffer s1) ≤ loop_bound m) ->
             (let '(a, st2) :=
                match_tokens (visible native m) options (loop_bound m) s1 in
              match outer_loop (visible native m) options fuel r st2 with
              | Some (l, st3) => Some (cons_action a l, st3)
              | None => None
              end)
             = (let '(a, st2) := match_tokens m options (loop_bound m) s1 in
                match outer_loop m options fuel r st2 with
                | Some (l, st3) => Some (cons_action a l, st3)
                | None => None
                end)).
  { intros s1 r Hf Hcase.
    rewrite match_tokens_visible by (intros k; now apply (free_token k _ r)).
    destruct (match_tokens m options (loop_bound m) s1) as [a st2] eqn:Hmt.
    destruct (match_tokens_leaves _ _ _ _ Hmt) as [k Hk].
    rewrite IH; [reflexivity| |rewrite Hk; now apply free_skipn].
    destruct Hcase as [(Hnil & Hz)|(Hne & Hpos & Hlen)].
    - left. rewrite Hk, Hnil. now destruct k.
    - destruct (match_tokens_consumes _ _ _ _ _ _ Hmt Hpos Hne) as [_ Hshort].
      right. unfold loop_bound in *.
      destruct (maxTokenLength m) as [n|]; [|lia]. exists n. split; [auto|lia]. }
  cbn [outer_loop].
  change (room (visible native m)) with (room m).
  change (room_after_fill (visible native m)) with (room_after_fill m).
  change (loop_bound (visible native m)) with (loop_bound m).
  destruct rest as [|L rest].
  - destruct (tokenBuffer st) as [|c b] eqn:Hbuf; [reflexivity|].
    cbn [tail]. apply Hinner; [now rewrite Hbuf|].
    right. rewrite Hbuf. split; [discriminate|].
    destruct Hok as [Hnil|(n & Hmax & Hlt)]; [congruence|].
    unfold loop_bound. rewrite Hmax. rewrite Hbuf in Hlt. simpl in *. lia.
  - cbn [tail].
    assert (Hgo :
      match
        (if room m (tokenBuffer st)
         then Some (with_buffer st (tokenBuffer st ++ [L]))
         else None)
      with
      | Some st1 =>
          if room_after_fill m (tokenBuffer st)
          then outer_loop (visible native m) options fuel rest st1
          else
            let '(a, st2) :=
              match_tokens (visible native m) options (loop_bound m) st1 in
            match outer_loop (visible native m) options fuel rest st2 with
            | Some (l, st3) => Some (cons_action a l, st3)
            | None => None
            end
      | None =>
          let '(a, st2) :=
            match_tokens (visible native m) options (loop_bound m) st in
          match outer_loop (visible native m) options fuel rest st2 with
          | Some (l, st3) => Some (cons_action a l, st3)
          | None => None
          end
      end
      = match
          (if room m (tokenBuffer st)
           then Some (with_buffer st (tokenBuffer st ++ [L]))
           else None)
        with
        | Some st1 =>
            if room_after_fill m (tokenBuffer st)
            then outer_loop m options fuel rest st1
            else
              let '(a, st2) := match_tokens m options (loop_bound m) st1 in
              match outer_loop m options fuel rest st2 with
              | Some (l, st3) => Some (cons_action a l, st3)
              | None => None
              end
        | None =>
            let '(a, st2) := match_tokens m options (loop_bound m) st in
            match outer_loop m options fuel rest st2 with
            | Some (l, st3) => Some (cons_action a l, st3)
            | None => None
            end
        end).
    { assert (Hfree1 : free_of_names ((tokenBuffer st ++ [L]) ++ rest) = true)
        by now rewrite <- app_assoc.
      destruct (room m (tokenBuffer st)) eqn:Hroom.
      - destruct (room_after_fill m (tokenBuffer st)) eqn:Hfill.
        + apply IH; [|exact Hfree1]. right.
          unfold room_after_fill in Hfill.
          destruct (maxTokenLength m) as [n|]; [|discriminate].
          exists n. split; [reflexivity|]. apply Nat.ltb_lt in Hfill.
          cbn [with_buffer tokenBuffer]. rewrite length_app. simpl. lia.
        + apply Hinner; [exact Hfree1|]. right.
          cbn [with_buffer tokenBuffer]. rewrite length_app.
          unfold room, loop_bound in *.
          destruct (maxTokenLength m) as [n|]; [|discriminate].
          apply Nat.ltb_lt in Hroom. simpl.
          split; [now destruct (tokenBuffer st)|lia].
      - apply Hinner.
        + apply (free_skipn 0) in Hfree. cbn [skipn] in Hfree.
          destruct Hok as [Hnil|(n & Hmax & Hlt)].
          * rewrite Hnil in *. now apply (free_tail L).
          * unfold room in Hroom. rewrite Hmax in Hroom.
            apply Nat.ltb_ge in Hroom. lia.
        + left. destruct Hok as [Hnil|(n & Hmax & Hlt)].
          * split; [exact Hnil|]. unfold room, loop_bound in *.
            rewrite Hnil in Hroom.
            destruct (maxTokenLength m) as [n|]; [|reflexivity].
            apply Nat.ltb_ge in Hroom. simpl in Hroom. lia.
          * unfold room in Hroom. rewrite Hmax in Hroom.
            apply Nat.ltb_ge in Hroom. lia. }
    destruct (tokenBuffer st); exact Hgo.
Qed.

End Reads.
(** *** Runs and their output *)

Section Run.
Variable schemes : gmap jstring scheme.
Variable map : compiled.
Variable options : gmap string jsval.

Lemma run_exists fuel data :
  enough_fuel data ≤ fuel ->
  exists tr st, outer_loop map options fuel data initial = Some (tr, st).
Proof.
  intros Hfuel.
  destruct (outer_loop_terminates map options fuel data initial)
    as [[tr st] Hrun]; [now left|unfold enough_fuel in Hfuel; simpl; lia|].
  eauto.
Qed.




Lemma longest_match_run fuel data :
  1 ≤ loop_bound map ->
  truthy_val (get options "skip_sgml") = false ->
  ~ In 35%N data ->
  enough_fuel data ≤ fuel ->
  exists tr st,
    outer_loop map options fuel data initial = Some (tr, st) /\
    List.map action_token tr = munch map (length data) data /\
    Forall (by_letters map) tr.
Proof.
  intros Hm Hopt Hno Hfuel.
  destruct (run_exists fuel data Hfuel) as (tr & st & Hrun).
  exists tr, st. split; [exact Hrun|].
  rewrite (outer_loop_window map options fuel data initial tr st (length data)
             Hm (or_introl eq_refl) Hrun (Nat.le_refl _)).
  cbn [initial tokenBuffer app].
  apply (window_run_munch map options); [exact Hm|exact Hopt| |exact Hno].
  now split.
Qed.

End Run.



(** What the layer adds: with tokens of up to seven units, the text
    [valueOf] is one token that [letters] answers for, where the own
    keys give seven units passed through. *)
Lemma member_name_is_one_token :
  exists m tr st tr' st',
    makeMap Demo.schemes (u "hk") (u "devanagari") ∅ = Ok m /\
    outer_loop (visible (fun name => name) (long_tokens m)) ∅
      (enough_fuel (u "valueOf")) (u "valueOf") initial = Some (tr, st) /\
    List.map action_token tr = [u "valueOf"] /\
    List.map matched tr = [true] /\
    outer_loop (long_tokens m) ∅
      (enough_fuel (u "valueOf")) (u "valueOf") initial = Some (tr', st') /\
    List.map action_token tr'
    = [u "v"; u "a"; u "l"; u "u"; u "e"; u "O"; u "f"].
Proof.
  eexists _, _, _, _, _. split; [vm_compute; reflexivity|].
  split; [vm_compute; reflexivity|]. split; [vm_compute; reflexivity|].
  split; [vm_compute; reflexivity|]. split; vm_compute; reflexivity.
Qed.



(** X15.  Longest match: on an input without [#], with [skip_sgml]
    off and a positive [maxTokenLength], the engine returns and its
    tokens are those of the longest-match reading of the input -- at
    each place the longest prefix of at most [maxTokenLength] units
    that [letters], read as a plain object, answers for, or else one
    unit -- and a token is looked up exactly when [letters] answers
    for it. *)
Theorem roman_longest_match (native : jstring -> jstring) (m : compiled)
    (options : gmap string jsval) (fuel : nat) (data : jstring) :
  1 ≤ loop_bound (visible native m) ->
  truthy_val (get options "skip_sgml") = false ->
  ~ In 35%N data ->
  enough_fuel data ≤ fuel ->
  exists tr st,
    outer_loop (visible native m) options fuel data initial = Some (tr, st) /\
    List.map action_token tr
    = munch (visible native m) (length data) data /\
    Forall (by_letters (visible native m)) tr.
Proof.
  intros Hm Hopt Hno Hfuel.
  exact (longest_match_run (visible native m) options fuel data
           Hm Hopt Hno Hfuel).
Qed.

(** The consonant [kS] of the scheme with a shortcut is read before
    [k]. *)
Lemma roman_longest_match_witness :
  exists m tr st,
    makeMap Demo.schemes (u "shortcut") (u "devanagari") ∅ = Ok m /\
    outer_loop (visible (fun name => name) m) ∅
      (enough_fuel (u "kSak")) (u "kSak") initial = Some (tr, st) /\
    List.map action_token tr = [u "kS"; u "a"; u "k"].
Proof.
  assert (H : exists m,
             makeMap Demo.schemes (u "shortcut") (u "devanagari") ∅ = Ok m /\
             loop_bound m = 2 /\
             munch (visible (fun name => name) m) 4 (u "kSak")
             = [u "kS"; u "a"; u "k"]).
  { eexists. split; [vm_compute; reflexivity|].
    split; vm_compute; reflexivity. }
  destruct H as (m & Hm & Hb & Hmunch).
  assert (Hpos : 1 ≤ loop_bound (visible (fun name => name) m)).
  { change (loop_bound (visible (fun name => name) m)) with (loop_bound m).
    rewrite Hb. lia. }
  assert (Hno : ~ In 35%N (u "kSak"))
    by (simpl; intros [H|[H|[H|[H|[]]]]]; discriminate H).
  assert (Hopt : truthy_val (get ∅ "skip_sgml") = false) by reflexivity.
  destruct (roman_longest_match (fun name => name) m ∅
              (enough_fuel (u "kSak")) (u "kSak") Hpos Hopt Hno
              (Nat.le_refl _))
    as (tr & st & Hrun & Htok & _).
  exists m, tr, st. split; [exact Hm|]. split; [exact Hrun|].
  rewrite <- Hmunch. exact Htok.
Defined.

(** X24.  On a text in which no member name of [Object.prototype]
    occurs, the engine reads nothing but own keys: the run and the
    result are those on the compiled tables alone, whatever the text of
    the inherited members. *)
Theorem roman_reads_own_keys (schemes : gmap jstring scheme)
    (native : jstring -> jstring) (m : compiled)
    (options : gmap string jsval) (fuel : nat) (data : jstring) :
  free_of_names data = true ->
  outer_loop (visible native m) options fuel data initial
  = outer_loop m options fuel data initial /\
  transliterateRoman schemes fuel data (visible native m) options
  = transliterateRoman schemes fuel data m options.
Proof.
  intros Hfree.
  assert (Hrun : outer_loop (visible native m) options fuel data initial
                 = outer_loop m options fuel data initial)
    by (apply outer_loop_visible; [now left|exact Hfree]).
  split; [exact Hrun|]. unfold transliterateRoman. rewrite Hrun.
  reflexivity.
Qed.

(** A text of the fragment of Harvard-Kyoto. *)
Lemma roman_reads_own_keys_witness :
  exists m,
    makeMap Demo.schemes (u "hk") (u "devanagari") ∅ = Ok m /\
    transliterateRoman Demo.schemes (enough_fuel (u "kAmar k")) (u "kAmar k")
      (visible (fun name => name) m) ∅
    = transliterateRoman Demo.schemes (enough_fuel (u "kAmar k"))
        (u "kAmar k") m ∅.
Proof.
  assert (H : exists m,
             makeMap Demo.schemes (u "hk") (u "devanagari") ∅ = Ok m)
    by (vm_compute; eauto).
  destruct H as (m & Hm). exists m. split; [exact Hm|].
  assert (Hfree : free_of_names (u "kAmar k") = true)
    by (vm_compute; reflexivity).
  exact (proj2 (roman_reads_own_keys Demo.schemes (fun name => name) m ∅
                  _ _ Hfree)).
Defined.

End RomanReading.
